(** * envtemplater: a shallow embedding of [main.go]

    The development follows the source file top to bottom: the Go library
    functions the program calls ([strings.Split], [strings.SplitN],
    [strings.Trim], [filepath.Join], package [os]), the operations on the
    file system, the template context, the template files, the flags and
    [Run].  The statements come after the definitions.

    - Go strings are byte sequences and are modelled by [string] (a list
      of 8-bit characters).
    - A Go function returning [(T, error)] returns a [result T]; a
      run-time panic is a third outcome, kept apart from a returned error.
    - The file system is a tree of named nodes; [os.ReadDir], [os.Mkdir],
      [os.ReadFile] and [os.WriteFile] read and rebuild it.
    - Packages [flag] and [text/template] are parameters of the program
      ([Section program]). *)

From Stdlib Require Import Ascii ZArith Lia.
From stdpp Require Import base option list gmap strings.

Set Warnings "-register-all".

Local Open Scope Z_scope.
Local Open Scope nat_scope.

(** ** Errors, panics and results *)

Inductive Errno := EEXIST | ENOENT | ENOTDIR | EISDIR | EACCES.

(** The values of Go's [error] interface that the program can see:
    [errors.New] / [fmt.Errorf] values and the [*fs.PathError] of package
    [os]. *)
Inductive error :=
| errorString (msg : string)
| PathError (op path : string) (errno : Errno).

(** [runtime error: index out of range [index] with length len] *)
Inductive panic :=
| IndexOutOfRange (index len : nat).

Inductive result (A : Type) :=
| Ok (a : A)
| Err (e : error)
| Panic (p : panic).
Arguments Ok {A} a.
Arguments Err {A} e.
Arguments Panic {A} p.

#[global] Instance result_ret : MRet result := fun A a => Ok a.
#[global] Instance result_bind : MBind result := fun A B f m =>
  match m with
  | Ok a => f a
  | Err e => Err e
  | Panic p => Panic p
  end.

(** [v[i]] on a slice: panics when [i] is out of range. *)
Definition at_index {A} (v : list A) (i : nat) : result A :=
  match v !! i with
  | Some x => Ok x
  | None => Panic (IndexOutOfRange i (length v))
  end.

(** [os.IsExist(err)] *)
Definition IsExist (err : option error) : bool :=
  match err with
  | Some (PathError _ _ EEXIST) => true
  | _ => false
  end.

(** ** Package [strings] *)

Definition newline : string := String "010"%char "".

(** [len(s)] *)
Abbreviation len := String.length.

(** [s[n:]] *)
Fixpoint slice_from (n : nat) (s : string) : string :=
  match n, s with
  | 0, _ => s
  | S n', String _ s' => slice_from n' s'
  | S _, EmptyString => EmptyString
  end.

(** [s[:n]] *)
Fixpoint slice_to (n : nat) (s : string) : string :=
  match n, s with
  | 0, _ => EmptyString
  | S n', String c s' => String c (slice_to n' s')
  | S _, EmptyString => EmptyString
  end.

(** [strings.HasPrefix(s, prefix)] *)
Fixpoint HasPrefix (s prefix : string) {struct prefix} : bool :=
  match prefix, s with
  | EmptyString, _ => true
  | String c p', String d s' => if decide (c = d) then HasPrefix s' p' else false
  | String _ _, EmptyString => false
  end.

(** [strings.Index(s, substr)]: the index of the first instance of
    [substr] in [s]; Go's [-1] is [None]. *)
Fixpoint Index (s substr : string) : option nat :=
  if HasPrefix s substr then Some 0
  else match s with
       | EmptyString => None
       | String _ s' => S <$> Index s' substr
       end.

(** *** UTF-8 sequences, for the empty separator *)

(** The width [utf8.DecodeRuneInString] reports for the first rune of a
    non-empty [s]: the length of a well-formed UTF-8 sequence, 1 for an
    invalid byte. *)
Definition runeSize (s : string) : nat :=
  let byte (i : nat) : option nat := nat_of_ascii <$> String.get i s in
  let between (lo hi : nat) (b : option nat) : bool :=
    match b with
    | Some x => (lo <=? x) && (x <=? hi)
    | None => false
    end in
  let cont := between 128 191 in
  match byte 0 with
  | None => 0
  | Some s0 =>
      if s0 <? 194 then 1
      else if s0 <? 224 then (if cont (byte 1) then 2 else 1)
      else if s0 <? 240 then
        let lo := if s0 =? 224 then 160 else 128 in
        let hi := if s0 =? 237 then 159 else 191 in
        if between lo hi (byte 1) && cont (byte 2) then 3 else 1
      else if s0 <? 245 then
        let lo := if s0 =? 240 then 144 else 128 in
        let hi := if s0 =? 244 then 143 else 191 in
        if between lo hi (byte 1) && cont (byte 2) && cont (byte 3) then 4 else 1
      else 1
  end.

Fixpoint RuneCount_loop (fuel : nat) (s : string) : nat :=
  match fuel with
  | 0 => 0
  | S fuel' =>
      match s with
      | EmptyString => 0
      | _ => S (RuneCount_loop fuel' (slice_from (runeSize s) s))
      end
  end.

(** [utf8.RuneCountInString(s)]; every rune takes at least one byte, so
    [len s] rounds are enough. *)
Definition RuneCountInString (s : string) : nat := RuneCount_loop (len s) s.

(** The loop of [explode]: [k] pieces of one UTF-8 sequence each, then
    the rest of the string. *)
Fixpoint explode_loop (k : nat) (s : string) : list string :=
  match k with
  | 0 => [s]
  | S k' =>
      let size := runeSize s in
      slice_to size s :: explode_loop k' (slice_from size s)
  end.

(** [explode(s, n)]: [s] cut into UTF-8 sequences, at most [n] pieces
    ([n < 0]: no limit). *)
Definition explode (s : string) (n : Z) : list string :=
  let l := Z.of_nat (RuneCountInString s) in
  let n := if bool_decide (n < 0 ∨ n > l)%Z then l else n in
  if bool_decide (n > 0)%Z then explode_loop (Z.to_nat (n - 1)) s else [].

(** *** Split *)

Fixpoint Count_loop (fuel : nat) (s substr : string) : nat :=
  match fuel with
  | 0 => 0
  | S fuel' =>
      match Index s substr with
      | None => 0
      | Some i => S (Count_loop fuel' (slice_from (i + len substr) s) substr)
      end
  end.

(** [strings.Count(s, substr)]: the number of non-overlapping instances
    of [substr]; every round of the loop consumes at least one byte. *)
Definition Count (s substr : string) : nat :=
  if decide (substr = "") then RuneCountInString s + 1
  else Count_loop (len s) s substr.

(** The loop of [genSplit] with [sepSave = 0]: at most [n] cuts. *)
Fixpoint genSplit_loop (n : nat) (s sep : string) : list string :=
  match n with
  | 0 => [s]
  | S n' =>
      match Index s sep with
      | None => [s]
      | Some m => slice_to m s :: genSplit_loop n' (slice_from (m + len sep) s) sep
      end
  end.

(** [genSplit(s, sep, 0, n)] *)
Definition genSplit (s sep : string) (n : Z) : list string :=
  if bool_decide (n = 0)%Z then []
  else if decide (sep = "") then explode s n
  else
    let n := if bool_decide (n < 0)%Z then Z.of_nat (Count s sep + 1) else n in
    let n := if bool_decide (n > Z.of_nat (len s + 1))%Z then Z.of_nat (len s + 1) else n in
    genSplit_loop (Z.to_nat (n - 1)) s sep.

(** [strings.SplitN(s, sep, n)] *)
Definition SplitN (s sep : string) (n : Z) : list string := genSplit s sep n.

(** [strings.Split(s, sep)] *)
Definition Split (s sep : string) : list string := genSplit s sep (-1).

(** *** Trim *)

(** Whether the byte [c] is one of the bytes of [cutset]. *)
Fixpoint in_cutset (c : ascii) (cutset : string) : bool :=
  match cutset with
  | EmptyString => false
  | String d rest => if decide (c = d) then true else in_cutset c rest
  end.

Fixpoint TrimLeft (s cutset : string) : string :=
  match s with
  | EmptyString => EmptyString
  | String c s' => if in_cutset c cutset then TrimLeft s' cutset else s
  end.

Fixpoint TrimRight (s cutset : string) : string :=
  match s with
  | EmptyString => EmptyString
  | String c s' =>
      match TrimRight s' cutset with
      | EmptyString => if in_cutset c cutset then EmptyString else String c EmptyString
      | t => String c t
      end
  end.

(** [strings.Trim(s, cutset)] for a cutset of ASCII characters (the
    program's only cutset is a newline): all leading and trailing bytes
    contained in [cutset] are removed. *)
Definition Trim (s cutset : string) : string :=
  TrimLeft (TrimRight s cutset) cutset.

(** [strings.Join(elems, sep)]; the program does not call it, the
    statements about [Split] do. *)
Fixpoint Join (elems : list string) (sep : string) : string :=
  match elems with
  | [] => ""
  | [e] => e
  | e :: rest => e +:+ sep +:+ Join rest sep
  end.

(** ** Package [path/filepath] (Unix: the separator is ["/"]) *)

(** The elements of [path] between its separators. *)
Fixpoint path_elements (path : string) : list string :=
  match path with
  | EmptyString => [""]
  | String c rest =>
      if decide (c = "/"%char) then "" :: path_elements rest
      else match path_elements rest with
           | elem :: elems => String c elem :: elems
           | [] => [String c ""]
           end
  end.

(** One round of the loop of [filepath.Clean], on the elements written
    so far (the last one first): an empty element and ["."] are dropped,
    [".."] removes the element before it, or stays when there is none to
    remove and the path is not rooted. *)
Definition clean_step (rooted : bool) (out : list string) (elem : string) : list string :=
  if decide (elem = "" ∨ elem = ".") then out
  else if decide (elem = "..") then
    match out with
    | last :: before =>
        if decide (last = "..") then (if rooted then out else ".." :: out)
        else before
    | [] => if rooted then [] else [".."]
    end
  else elem :: out.

Definition clean_elements (rooted : bool) (elems : list string) : list string :=
  reverse (foldl (clean_step rooted) [] elems).

(** [filepath.Clean(path)] *)
Definition Clean (path : string) : string :=
  if decide (path = "") then "."
  else
    let rooted := HasPrefix path "/" in
    let out := clean_elements rooted (path_elements path) in
    if rooted then "/" +:+ Join out "/"
    else if decide (out = []) then "." else Join out "/".

(** [filepath.Join(elem...)]: the elements from the first non-empty one
    on, joined by the separator and cleaned. *)
Fixpoint filepath_Join (elem : list string) : string :=
  match elem with
  | [] => ""
  | e :: rest => if decide (e = "") then filepath_Join rest else Clean (Join elem "/")
  end.

(** ** The file system and package [os]

    A directory holds its entries in the order [os.ReadDir] lists them
    (sorted by file name); [readable] tells whether the directory can be
    listed.  Every entry that is not a directory is a [File].  Paths are
    resolved from the root of the tree, which is also the working
    directory, and [".."] is resolved on the path's text, as [Clean]
    does. *)

#[local] Unset Elimination Schemes.
Inductive node :=
| File (data : string)
| Dir (readable : bool) (entries : list (string * node)).
#[local] Set Elimination Schemes.

Definition is_dir (n : node) : bool :=
  match n with Dir _ _ => true | File _ => false end.

(** The directory a path names, as the names to follow from the root. *)
Definition path_key (path : string) : list string :=
  clean_elements true (path_elements path).

Fixpoint find_entry (name : string) (entries : list (string * node)) : option node :=
  match entries with
  | [] => None
  | (n, child) :: rest => if decide (n = name) then Some child else find_entry name rest
  end.

Fixpoint lookup_node (key : list string) (n : node) : option node :=
  match key with
  | [] => Some n
  | name :: rest =>
      match n with
      | Dir _ entries => find_entry name entries ≫= lookup_node rest
      | File _ => None
      end
  end.

Fixpoint alter_entry (name : string) (f : node → node) (entries : list (string * node))
  : list (string * node) :=
  match entries with
  | [] => []
  | (n, child) :: rest =>
      if decide (n = name) then (n, f child) :: rest
      else (n, child) :: alter_entry name f rest
  end.

(** A new entry goes to its place in the order of the names. *)
Fixpoint insert_sorted (name : string) (new : node) (entries : list (string * node))
  : list (string * node) :=
  match entries with
  | [] => [(name, new)]
  | (n, child) :: rest =>
      if String.ltb name n then (name, new) :: entries
      else (n, child) :: insert_sorted name new rest
  end.

(** [entries] with the entry [name] set to [new]. *)
Definition set_entry (name : string) (new : node) (entries : list (string * node))
  : list (string * node) :=
  match find_entry name entries with
  | Some _ => alter_entry name (λ _, new) entries
  | None => insert_sorted name new entries
  end.

(** The tree with the node at [key] set to [new]. *)
Fixpoint put_node (key : list string) (new : node) (n : node) : node :=
  match key, n with
  | [], _ => new
  | [name], Dir r entries => Dir r (set_entry name new entries)
  | name :: rest, Dir r entries => Dir r (alter_entry name (put_node rest new) entries)
  | _ :: _, File _ => n
  end.

(** The longest chain of directories below a node. *)
Fixpoint height (n : node) : nat :=
  match n with
  | File _ => 0
  | Dir _ entries =>
      S ((fix heights (entries : list (string * node)) : nat :=
            match entries with
            | [] => 0
            | (_, child) :: rest => height child `max` heights rest
            end) entries)
  end.

Record DirEntry := { Name : string; entry_IsDir : bool }.

(** A directory entry, as [os.ReadDir] reports it. *)
Definition to_DirEntry (e : string * node) : DirEntry :=
  {| Name := e.1; entry_IsDir := is_dir e.2 |}.

(** The node that [name] names; the empty path names nothing. *)
Definition stat (fs : node) (name : string) : option node :=
  if decide (name = "") then None else lookup_node (path_key name) fs.

(** [os.ReadDir(name)] *)
Definition os_ReadDir (fs : node) (name : string) : list DirEntry * option error :=
  match stat fs name with
  | None => ([], Some (PathError "open" name ENOENT))
  | Some (File _) => ([], Some (PathError "readdirent" name ENOTDIR))
  | Some (Dir false _) => ([], Some (PathError "open" name EACCES))
  | Some (Dir true entries) =>
      (map to_DirEntry entries, None)
  end.

(** The error of creating [name] when nothing exists there, by what the
    parent directory is. *)
Definition create_at (op name : string) (new : node) (fs : node) : option error * node :=
  let key := path_key name in
  if decide (name = "") then (Some (PathError op name ENOENT), fs)
  else
    match lookup_node (removelast key) fs with
    | Some (Dir _ _) => (None, put_node key new fs)
    | Some (File _) => (Some (PathError op name ENOTDIR), fs)
    | None => (Some (PathError op name ENOENT), fs)
    end.

(** [os.Mkdir(name, perm)] *)
Definition os_Mkdir (name : string) (fs : node) : option error * node :=
  match stat fs name with
  | Some _ => (Some (PathError "mkdir" name EEXIST), fs)
  | None => create_at "mkdir" name (Dir true []) fs
  end.

(** [os.ReadFile(name)] *)
Definition os_ReadFile (fs : node) (name : string) : result string :=
  match stat fs name with
  | Some (File data) => Ok data
  | Some (Dir _ _) => Err (PathError "read" name EISDIR)
  | None => Err (PathError "open" name ENOENT)
  end.

(** [os.WriteFile(name, data, perm)]: the file is created or truncated. *)
Definition os_WriteFile (name data : string) (fs : node) : option error * node :=
  match stat fs name with
  | Some (File _) => (None, put_node (path_key name) (File data) fs)
  | Some (Dir _ _) => (Some (PathError "open" name EISDIR), fs)
  | None => create_at "open" name (File data) fs
  end.

(** ** Operations with FS *)

Definition safeMkdir (path : string) (fs : node) : option error * node :=
  let '(err, fs') := os_Mkdir path fs in
  if IsExist err then (None, fs') else (err, fs').

(** The loop of [recursiveGetDirs] over the entries of [path];
    [recurse] is the recursive call. *)
Fixpoint recursiveGetDirs_loop (recurse : string → option (list string * option error))
    (path : string) (entries : list DirEntry) (dirs : list string)
  : option (list string * option error) :=
  match entries with
  | [] => Some (dirs, None)
  | entry :: rest =>
      if negb (entry_IsDir entry) then recursiveGetDirs_loop recurse path rest dirs
      else
        let dirs := dirs ++ [Name entry] in
        match recurse (filepath_Join [path; Name entry]) with
        | None => None
        | Some (subdirs, Some e) => Some (dirs, Some e)
        | Some (subdirs, None) =>
            recursiveGetDirs_loop recurse path rest
              (dirs ++ map (λ subdir, filepath_Join [Name entry; subdir]) subdirs)
        end
  end.

(** [recursiveGetDirs(path)], with a bound on the depth of the
    recursion; [None]: the bound was reached. *)
Fixpoint recursiveGetDirs_upto (depth : nat) (fs : node) (path : string)
  : option (list string * option error) :=
  match depth with
  | 0 => None
  | S depth' =>
      let '(entries, err) := os_ReadDir fs path in
      match err with
      | Some e => Some ([], Some e)
      | None => recursiveGetDirs_loop (recursiveGetDirs_upto depth' fs) path entries []
      end
  end.

(** The loop of [recursiveGetFiles]. *)
Fixpoint recursiveGetFiles_loop (recurse : string → option (list string * option error))
    (path : string) (entries : list DirEntry) (files : list string)
  : option (list string * option error) :=
  match entries with
  | [] => Some (files, None)
  | entry :: rest =>
      if negb (entry_IsDir entry) then
        recursiveGetFiles_loop recurse path rest (files ++ [Name entry])
      else
        match recurse (filepath_Join [path; Name entry]) with
        | None => None
        | Some (subfiles, Some e) => Some (files, Some e)
        | Some (subfiles, None) =>
            recursiveGetFiles_loop recurse path rest
              (files ++ map (λ subfile, filepath_Join [Name entry; subfile]) subfiles)
        end
  end.

(** [recursiveGetFiles(path)], bounded in the same way. *)
Fixpoint recursiveGetFiles_upto (depth : nat) (fs : node) (path : string)
  : option (list string * option error) :=
  match depth with
  | 0 => None
  | S depth' =>
      let '(entries, err) := os_ReadDir fs path in
      match err with
      | Some e => Some ([], Some e)
      | None => recursiveGetFiles_loop (recursiveGetFiles_upto depth' fs) path entries []
      end
  end.

(** The error reported when the recursion is deeper than the tree is
    high; on a well-formed tree that does not happen
    ([recursiveGetDirs_total], [recursiveGetFiles_total]). *)
Definition too_deep : list string * option error :=
  ([], Some (errorString "recursion deeper than the directory tree")).

(** The recursion goes one level down per call: it is bounded by the
    height of the tree. *)
Definition recursiveGetDirs (fs : node) (path : string) : list string * option error :=
  default too_deep (recursiveGetDirs_upto (S (height fs)) fs path).

Definition recursiveGetFiles (fs : node) (path : string) : list string * option error :=
  default too_deep (recursiveGetFiles_upto (S (height fs)) fs path).

(** The loop of [recursiveCopyDir] over the directories. *)
Fixpoint safeMkdir_each (rmt : string) (dirs : list string) (fs : node) : option error * node :=
  match dirs with
  | [] => (None, fs)
  | dir :: rest =>
      let '(err, fs') := safeMkdir (filepath_Join [rmt; dir]) fs in
      match err with
      | Some e => (Some e, fs')
      | None => safeMkdir_each rmt rest fs'
      end
  end.

Definition recursiveCopyDir (src rmt : string) (fs : node) : option error * node :=
  let '(err, fs1) := safeMkdir rmt fs in
  match err with
  | Some e => (Some e, fs1)
  | None =>
      let '(dirs, err) := recursiveGetDirs fs1 src in
      match err with
      | Some e => (Some e, fs1)
      | None => safeMkdir_each rmt dirs fs1
      end
  end.

(** ** Template context *)

Record TemplateContext := { envs : gmap string string }.

(** The loop of [NewTemplateContext] over [os.Environ()]. *)
Fixpoint NewTemplateContext_loop (environ : list string) (envs : gmap string string)
  : result (gmap string string) :=
  match environ with
  | [] => Ok envs
  | str :: rest =>
      let substrs := SplitN str "=" 2 in
      k ← at_index substrs 0;
      v ← at_index substrs 1;
      NewTemplateContext_loop rest (<[k := Trim v newline]> envs)
  end.

(** [NewTemplateContext()], given the value of [os.Environ()]. *)
Definition NewTemplateContext (environ : list string) : result TemplateContext :=
  envs ← NewTemplateContext_loop environ ∅;
  Ok {| envs := envs |}.

(** [fmt.Errorf("Error, missing variable '%v'", name)] *)
Definition MissingVariable (name : string) : error :=
  errorString ("Error, missing variable '" +:+ name +:+ "'").

Definition Env (tx : TemplateContext) (name : string) : result string :=
  match envs tx !! name with
  | None => Err (MissingVariable name)
  | Some v => Ok v
  end.

Definition List (tx : TemplateContext) (name delimiter : string) : result (list string) :=
  env ← Env tx name;
  Ok (Split env delimiter).

(** The loop of [Dict] over the items. *)
Fixpoint Dict_loop (items : list string) (kvDelimeter : string) (dict : gmap string string)
  : result (gmap string string) :=
  match items with
  | [] => Ok dict
  | substr :: rest =>
      let v := SplitN substr kvDelimeter 2 in
      k ← at_index v 0;
      x ← at_index v 1;
      Dict_loop rest kvDelimeter (<[k := x]> dict)
  end.

Definition Dict (tx : TemplateContext) (name itemDelimeter kvDelimeter : string)
  : result (gmap string string) :=
  env ← Env tx name;
  Dict_loop (Split env itemDelimeter) kvDelimeter ∅.

Definition Exist (tx : TemplateContext) (name : string) : bool :=
  bool_decide (is_Some (envs tx !! name)).

Definition NotExist (tx : TemplateContext) (name : string) : bool :=
  negb (bool_decide (is_Some (envs tx !! name))).


(** ** The process and its log

    The state a run works on: the file system, the process environment,
    and the log of the operations on template files that the run has
    completed, oldest first. *)

Inductive event :=
| Loaded (path : string)
| Rendered (path : string)
| Saved (path : string).

Record World := { fs : node; environ : list string; events : list event }.

Definition set_fs (fs' : node) (w : World) : World :=
  {| fs := fs'; environ := environ w; events := events w |}.

Definition log (e : event) (w : World) : World :=
  {| fs := fs w; environ := environ w; events := events w ++ [e] |}.

(** ** Template file *)

Record TemplateFile := {
  InputPath : string;
  Input : string;
  OutputPath : string;
  Output : string;
  Context : TemplateContext
}.

Definition NewTemplateFile (tx : TemplateContext) (inputPath outputPath : string)
  : TemplateFile :=
  {| InputPath := inputPath; Input := ""; OutputPath := outputPath; Output := "";
     Context := tx |}.

Definition LoadInput (tf : TemplateFile) (w : World) : result TemplateFile * World :=
  match os_ReadFile (fs w) (InputPath tf) with
  | Ok b =>
      (Ok {| InputPath := InputPath tf; Input := b; OutputPath := OutputPath tf;
             Output := Output tf; Context := Context tf |},
       log (Loaded (InputPath tf)) w)
  | Err e => (Err e, w)
  | Panic p => (Panic p, w)
  end.

Definition SaveOutput (tf : TemplateFile) (w : World) : result TemplateFile * World :=
  let '(err, fs') := os_WriteFile (OutputPath tf) (Output tf) (fs w) in
  match err with
  | Some e => (Err e, set_fs fs' w)
  | None => (Ok tf, log (Saved (OutputPath tf)) (set_fs fs' w))
  end.

(** A loop [for _, templateFile := range templateFiles] that returns at
    the first error; the files are updated in place. *)
Fixpoint for_each (step : TemplateFile → World → result TemplateFile * World)
    (templateFiles : list TemplateFile) (w : World)
  : result (list TemplateFile) * World :=
  match templateFiles with
  | [] => (Ok [], w)
  | templateFile :: rest =>
      match step templateFile w with
      | (Ok tf', w1) =>
          match for_each step rest w1 with
          | (Ok rest', w2) => (Ok (tf' :: rest'), w2)
          | (Err e, w2) => (Err e, w2)
          | (Panic p, w2) => (Panic p, w2)
          end
      | (Err e, w1) => (Err e, w1)
      | (Panic p, w1) => (Panic p, w1)
      end
  end.

(** ** Flags *)

(** The fields [IF], [OF], [ID] and [OD] ([IF] is a keyword here). *)
Record Flags := { flag_IF : string; flag_OF : string; flag_ID : string; flag_OD : string }.

(** [errors.New] *)
Definition errors_New (text : string) : error := errorString text.

Section program.

(** Package [flag]: [flagSet.Parse(args)] on the four string variables
    of [flags], which all start empty. *)
Variable flagSet_Parse : list string → Flags → Flags * option error.

(** Package [text/template]: [template.New(name).Parse(text)], and
    [Execute] with the text it wrote to the buffer. *)
Variable template_Template : Type.
Variable template_Parse : string → string → result template_Template.
Variable template_Execute : template_Template → TemplateContext → result string.

Definition Template (tf : TemplateFile) (w : World) : result TemplateFile * World :=
  match template_Parse (InputPath tf) (Input tf) with
  | Ok templater =>
      match template_Execute templater (Context tf) with
      | Ok buf =>
          (Ok {| InputPath := InputPath tf; Input := Input tf;
                 OutputPath := OutputPath tf; Output := buf; Context := Context tf |},
           log (Rendered (InputPath tf)) w)
      | Err e => (Err e, w)
      | Panic p => (Panic p, w)
      end
  | Err e => (Err e, w)
  | Panic p => (Panic p, w)
  end.

Definition NewFlags (args : list string) : Flags * option error :=
  let flags := {| flag_IF := ""; flag_OF := ""; flag_ID := ""; flag_OD := "" |} in
  let '(flags, err) := flagSet_Parse args flags in
  match err with
  | Some e => (flags, Some e)
  | None =>
      (* validate *)
      let err :=
        if bool_decide (flag_IF flags = "" ∧ flag_ID flags = "") then
          Some (errors_New "Required input file or input dir")
        else if bool_decide (flag_IF flags ≠ "" ∧ flag_OF flags = "") then
          Some (errors_New "Required output file when using input file")
        else if bool_decide (flag_ID flags ≠ "" ∧ flag_OD flags = "") then
          Some (errors_New "Required output dir when using input dir")
        else None in
      (flags, err)
  end.

(** The first part of [Run]: the directories are mirrored, the context
    is built and the template files are set up. *)
Definition Run_setup (flags : Flags) (w : World) : result (list TemplateFile) * World :=
  let '(err, w) :=
    if bool_decide (flag_ID flags ≠ "") then
      let '(err, fs') := recursiveCopyDir (flag_ID flags) (flag_OD flags) (fs w) in
      (err, set_fs fs' w)
    else (None, w) in
  match err with
  | Some e => (Err e, w)
  | None =>
      match NewTemplateContext (environ w) with
      | Ok tx =>
          if bool_decide (flag_ID flags ≠ "") then
            let '(files, err) := recursiveGetFiles (fs w) (flag_ID flags) in
            match err with
            | Some e => (Err e, w)
            | None =>
                (Ok (map (λ file,
                       NewTemplateFile tx
                         (filepath_Join [flag_ID flags; file])
                         (filepath_Join [flag_OD flags; file])) files), w)
            end
          else (Ok [NewTemplateFile tx (flag_IF flags) (flag_OF flags)], w)
      | Err e => (Err e, w)
      | Panic p => (Panic p, w)
      end
  end.

(** [Run] continues with the three loops over the template files. *)
Definition Run_phases (templateFiles : list TemplateFile) (w : World) : result unit * World :=
  match for_each LoadInput templateFiles w with
  | (Ok loaded, w1) =>
      match for_each Template loaded w1 with
      | (Ok rendered, w2) =>
          match for_each SaveOutput rendered w2 with
          | (Ok _, w3) => (Ok (), w3)
          | (Err e, w3) => (Err e, w3)
          | (Panic p, w3) => (Panic p, w3)
          end
      | (Err e, w2) => (Err e, w2)
      | (Panic p, w2) => (Panic p, w2)
      end
  | (Err e, w1) => (Err e, w1)
  | (Panic p, w1) => (Panic p, w1)
  end.

Definition Run (flags : Flags) (w : World) : result unit * World :=
  match Run_setup flags w with
  | (Ok templateFiles, w0) => Run_phases templateFiles w0
  | (Err e, w0) => (Err e, w0)
  | (Panic p, w0) => (Panic p, w0)
  end.

(** How the process ends: [log.Fatalf] prints the message and exits
    with status 1. *)
Inductive exit :=
| Exit0
| Fatalf (format : string) (err : error)
| Crash (p : panic).

Definition main (args : list string) (w : World) : exit * World :=
  let '(flags, err) := NewFlags args in
  match err with
  | Some e => (Fatalf "Failed parse flags: %v\n" e, w)
  | None =>
      match Run flags w with
      | (Ok _, w') => (Exit0, w')
      | (Err e, w') => (Fatalf "Failed run: %v\n" e, w')
      | (Panic p, w') => (Crash p, w')
      end
  end.

End program.

(** ** Vocabulary of the statements

    The statements below speak about occurrences of a delimiter through
    concatenation only, not through the functions of the model. *)

(** [d] occurs in [s]. *)
Definition occurs (d s : string) : Prop := ∃ a b, s = a +:+ d +:+ b.

(** [p] followed by [d] holds no occurrence of [d] but the final one:
    a string that starts with [p +:+ d] has its first [d] right after [p]. *)
Definition cut_at_first (d p : string) : Prop :=
  ∀ a b, p +:+ d = a +:+ d +:+ b → b = "".

(** [parts] are the pieces of a string cut at every occurrence of [d],
    from left to right: each piece but the last ends at the first [d]
    that follows its start, and the last piece holds no [d]. *)
Fixpoint split_on (d : string) (parts : list string) : Prop :=
  match parts with
  | [] => False
  | [p] => ¬ occurs d p
  | p :: rest => cut_at_first d p ∧ split_on d rest
  end.

(** Every byte of [s] is in [cutset]. *)
Fixpoint all_in (cutset s : string) : Prop :=
  match s with
  | EmptyString => True
  | String c s' => in_cutset c cutset = true ∧ all_in cutset s'
  end.

(** [s] consists of newline characters only. *)
Fixpoint newlines (s : string) : Prop :=
  match s with
  | EmptyString => True
  | String c s' => c = "010"%char ∧ newlines s'
  end.

Definition starts_with_newline (s : string) : Prop := ∃ t, s = newline +:+ t.
Definition ends_with_newline (s : string) : Prop := ∃ t, s = t +:+ newline.

(** The assignments [dict[k] = x] of the loop of [Dict], in order. *)
Definition assign_all (pairs : list (string * string)) (dict : gmap string string)
  : gmap string string :=
  foldl (λ m kv, <[kv.1 := kv.2]> m) dict pairs.

(** No entry of [environ] sets the name [N]. *)
Definition unset_in (N : string) (environ : list string) : Prop :=
  Forall (λ str, ∀ V, str ≠ N +:+ "=" +:+ V) environ.

(** A name a directory entry can have: one non-empty path element other
    than ["."] and [".."]. *)
Definition valid_name (name : string) : Prop :=
  name ≠ "" ∧ name ≠ "." ∧ name ≠ ".." ∧ ¬ occurs "/" name.

(** A well-formed tree: in every directory the names are valid and no
    name is used twice. *)
Inductive wf_node : node → Prop :=
| wf_File data : wf_node (File data)
| wf_Dir r entries :
    NoDup entries.*1 →
    Forall valid_name entries.*1 →
    Forall (λ e, wf_node e.2) entries →
    wf_node (Dir r entries).

(** Every directory of the tree can be listed. *)
Inductive readable_tree : node → Prop :=
| readable_File data : readable_tree (File data)
| readable_Dir entries :
    Forall (λ e, readable_tree e.2) entries →
    readable_tree (Dir true entries).

(** [key] names a directory below (or at) the node [n]. *)
Definition dir_at (n : node) (key : list string) : Prop :=
  ∃ r entries, lookup_node key n = Some (Dir r entries).

(** Something exists at [path]. *)
Definition exists_at (fs : node) (path : string) : Prop :=
  is_Some (stat fs path).

(** The relative path of a key: its names joined by the separator. *)
Definition rel_path (key : list string) : string := Join key "/".

(** The keys of the directories below a node, a directory before the
    directories below it, entry by entry. *)
Fixpoint subdir_keys (n : node) : list (list string) :=
  match n with
  | File _ => []
  | Dir _ entries =>
      flat_map (λ e, if is_dir e.2 then [e.1] :: map (cons e.1) (subdir_keys e.2) else [])
               entries
  end.

(** The keys that the entry [e] of a directory contributes. *)
Definition entry_keys (e : string * node) : list (list string) :=
  if is_dir e.2 then [e.1] :: map (cons e.1) (subdir_keys e.2) else [].

(** The content of the file at [key], if a file is there. *)
Definition file_at (fs : node) (key : list string) : option string :=
  match lookup_node key fs with
  | Some (File data) => Some data
  | _ => None
  end.

(** Two lists of template files with the same paths, file by file. *)
Definition same_paths (tfs1 tfs2 : list TemplateFile) : Prop :=
  Forall2 (λ tf1 tf2, InputPath tf1 = InputPath tf2 ∧ OutputPath tf1 = OutputPath tf2)
          tfs1 tfs2.

Definition is_Ok {A} (r : result A) : Prop :=
  match r with Ok _ => True | _ => False end.

(** The number of template files a loop completes before it stops. *)
Fixpoint completed (step : TemplateFile → World → result TemplateFile * World)
    (templateFiles : list TemplateFile) (w : World) : nat :=
  match templateFiles with
  | [] => 0
  | templateFile :: rest =>
      match step templateFile w with
      | (Ok _, w1) => S (completed step rest w1)
      | _ => 0
      end
  end.

(** A step that logs [ev] when it succeeds, keeps the paths of the
    template file, and changes nothing when it fails. *)
Definition logs (step : TemplateFile → World → result TemplateFile * World)
    (ev : TemplateFile → event) : Prop :=
  ∀ tf w,
    match step tf w with
    | (Ok tf', w') =>
        events w' = events w ++ [ev tf] ∧
        InputPath tf' = InputPath tf ∧ OutputPath tf' = OutputPath tf
    | (_, w') => w' = w
    end.

(** Relative paths: the names of non-empty keys, joined by the separator. *)
Definition rel_paths (dirs : list string) : Prop :=
  Forall (λ dir, ∃ key, key ≠ [] ∧ Forall valid_name key ∧ dir = rel_path key) dirs.

(** Neither path is inside the other. *)
Definition apart (path1 path2 : string) : Prop :=
  ¬ path_key path1 `prefix_of` path_key path2 ∧
  ¬ path_key path2 `prefix_of` path_key path1.

(** The keys of the files below a node, entry by entry. *)
Fixpoint file_keys (n : node) : list (list string) :=
  match n with
  | File _ => []
  | Dir _ entries =>
      flat_map (λ e, if is_dir e.2 then map (cons e.1) (file_keys e.2) else [[e.1]])
               entries
  end.

(** The keys of the files that the entry [e] of a directory contributes. *)
Definition entry_file_keys (e : string * node) : list (list string) :=
  if is_dir e.2 then map (cons e.1) (file_keys e.2) else [[e.1]].

(** [s] holds ASCII characters only (bytes below 128). *)
Fixpoint ascii_only (s : string) : Prop :=
  match s with
  | EmptyString => True
  | String c s' => nat_of_ascii c < 128 ∧ ascii_only s'
  end.

(** The characters of [s], each as a string of its own. *)
Fixpoint characters (s : string) : list string :=
  match s with
  | EmptyString => []
  | String c s' => String c "" :: characters s'
  end.

(** ** Sample data *)

(** The environment [L=a,b,c], [D=a=1;b=2], [F=a=1=x], [R=a=1;a=2],
    [M=a], [P=ab] and an empty [E]. *)
Definition sample_environ : list string :=
  ["L=a,b,c"; "D=a=1;b=2"; "F=a=1=x"; "R=a=1;a=2"; "M=a"; "P=ab"; "E="].

Definition sample_context : TemplateContext :=
  {| envs := list_to_map
       [("L", "a,b,c"); ("D", "a=1;b=2"); ("F", "a=1=x"); ("R", "a=1;a=2");
        ("M", "a"); ("P", "ab"); ("E", "")] |}.

(** The tree of the example: [src/a.txt], [src/sub/b.txt] and the empty
    directory [src/sub/empty], in the working directory. *)
Definition sample_fs : node :=
  Dir true
    [("src", Dir true
        [("a.txt", File "A");
         ("sub", Dir true [("b.txt", File "B"); ("empty", Dir true [])])])].

(** A parser for the sample runs: it reads [-name value] pairs of the
    four flags. *)
Fixpoint sample_Parse (args : list string) (flags : Flags) : Flags * option error :=
  match args with
  | [] => (flags, None)
  | [name] => (flags, Some (errorString ("flag needs an argument: " +:+ name)))
  | name :: value :: rest =>
      if decide (name = "-if") then
        sample_Parse rest {| flag_IF := value; flag_OF := flag_OF flags;
                             flag_ID := flag_ID flags; flag_OD := flag_OD flags |}
      else if decide (name = "-of") then
        sample_Parse rest {| flag_IF := flag_IF flags; flag_OF := value;
                             flag_ID := flag_ID flags; flag_OD := flag_OD flags |}
      else if decide (name = "-id") then
        sample_Parse rest {| flag_IF := flag_IF flags; flag_OF := flag_OF flags;
                             flag_ID := value; flag_OD := flag_OD flags |}
      else if decide (name = "-od") then
        sample_Parse rest {| flag_IF := flag_IF flags; flag_OF := flag_OF flags;
                             flag_ID := flag_ID flags; flag_OD := value |}
      else (flags, Some (errorString ("flag provided but not defined: " +:+ name)))
  end.

Definition dquote : string := String "034"%char "".

(** A template engine for the sample runs: it knows one action,
    [{{ .Env "NAME" }}], and replaces its first occurrence. *)
Definition sample_Execute (text : string) (tx : TemplateContext) : result string :=
  let opener := "{{ .Env " +:+ dquote in
  let closer := dquote +:+ " }}" in
  match Index text opener with
  | None => Ok text
  | Some i =>
      let rest := slice_from (i + len opener) text in
      match Index rest closer with
      | None => Err (errorString "template: unclosed action")
      | Some j =>
          v ← Env tx (slice_to j rest);
          Ok (slice_to i text +:+ v +:+ slice_from (j + len closer) rest)
      end
  end.

Definition sample_template_Parse (name text : string) : result string := Ok text.

(** The command line [-if in.txt -of out.txt -id src -od dst]. *)
Definition mixed_args : list string :=
  ["-if"; "in.txt"; "-of"; "out.txt"; "-id"; "src"; "-od"; "dst"].

Definition mixed_flags : Flags :=
  {| flag_IF := "in.txt"; flag_OF := "out.txt"; flag_ID := "src"; flag_OD := "dst" |}.

(** The template [Hello {{ .Env "NAME" }}]. *)
Definition hello_template : string :=
  "Hello {{ .Env " +:+ dquote +:+ "NAME" +:+ dquote +:+ " }}".

Definition hello_fs : node := Dir true [("in.txt", File hello_template)].

(** File mode: [-if in.txt -of out.txt]. *)
Definition hello_flags : Flags :=
  {| flag_IF := "in.txt"; flag_OF := "out.txt"; flag_ID := ""; flag_OD := "" |}.

(** A process with [NAME=World], and one where [NAME] is not set. *)
Definition hello_world : World :=
  {| fs := hello_fs; environ := ["NAME=World"]; events := [] |}.

Definition hello_unset : World :=
  {| fs := hello_fs; environ := ["HOME=/root"]; events := [] |}.

(** A process in the working directory of [sample_fs]. *)
Definition sample_world : World :=
  {| fs := sample_fs; environ := ["NAME=World"]; events := [] |}.

(** [Run] with the sample engine. *)
Definition sample_Run : Flags → World → result unit * World :=
  Run string sample_template_Parse sample_Execute.

(** The tree of the example with a directory [src/secret] that cannot
    be listed. *)
Definition locked_fs : node :=
  Dir true
    [("src", Dir true
        [("a.txt", File "A");
         ("secret", Dir false [("k.txt", File "K")]);
         ("z.txt", File "Z")])].

(** Directory mode: [-id src -od dst]. *)
Definition mirror_flags : Flags :=
  {| flag_IF := ""; flag_OF := ""; flag_ID := "src"; flag_OD := "dst" |}.

(** [-if in.txt -of nodir/out.txt]: the directory of the output is missing. *)
Definition nodir_flags : Flags :=
  {| flag_IF := "in.txt"; flag_OF := "nodir/out.txt"; flag_ID := ""; flag_OD := "" |}.

(** * Proofs *)

(** ** Strings *)

Section string_facts.
Implicit Types (s t d : string) (c : ascii).

Lemma app_String c s t : String c s +:+ t = String c (s +:+ t).
Proof. reflexivity. Qed.

Lemma app_empty_l s : "" +:+ s = s.
Proof. reflexivity. Qed.

Lemma app_empty_r s : s +:+ "" = s.
Proof. induction s as [|c s IH]; [done|]. by rewrite app_String, IH. Qed.

Lemma app_assoc_str s t d : (s +:+ t) +:+ d = s +:+ t +:+ d.
Proof. induction s as [|c s IH]; [done|]. by rewrite !app_String, IH. Qed.

Lemma len_app s t : len (s +:+ t) = len s + len t.
Proof. induction s as [|c s IH]; [done|]. rewrite app_String. simpl. by rewrite IH. Qed.

Lemma app_eq_empty s t : s +:+ t = "" → s = "" ∧ t = "".
Proof. destruct s; [done|]. by rewrite app_String. Qed.

Lemma len_zero s : len s = 0 → s = "".
Proof. by destruct s. Qed.

Lemma app_inv_head_str s t1 t2 : s +:+ t1 = s +:+ t2 → t1 = t2.
Proof.
  induction s as [|c s IH]; [done|]. rewrite !app_String. intros [=]. auto.
Qed.

Lemma slice_to_app s t : slice_to (len s) (s +:+ t) = s.
Proof. induction s as [|c s IH]; [by destruct t|]. rewrite app_String. simpl. by rewrite IH. Qed.

Lemma slice_from_app s t : slice_from (len s) (s +:+ t) = t.
Proof. induction s as [|c s IH]; [by destruct t|]. by rewrite app_String. Qed.

Lemma slice_to_from n s : slice_to n s +:+ slice_from n s = s.
Proof.
  revert s. induction n as [|n IH]; intros [|c s]; simpl; try done.
  by rewrite app_String, IH.
Qed.

Lemma len_slice_from n s : len (slice_from n s) = len s - n.
Proof. revert s. induction n as [|n IH]; intros [|c s]; simpl; auto with lia. Qed.

Lemma HasPrefix_spec s d : HasPrefix s d = true ↔ ∃ r, s = d +:+ r.
Proof.
  revert s. induction d as [|c d IH]; intros s; simpl.
  - split; [intros _; by exists s|done].
  - destruct s as [|c' s].
    + split; [done|]. intros [r Hr]. by rewrite app_String in Hr.
    + case_decide as Hc.
      * subst c'. rewrite IH. split; intros [r Hr]; exists r.
        -- by rewrite app_String, Hr.
        -- rewrite app_String in Hr. by injection Hr.
      * split; [done|]. intros [r Hr]. rewrite app_String in Hr. congruence.
Qed.

Lemma HasPrefix_app d r : HasPrefix (d +:+ r) d = true.
Proof. apply HasPrefix_spec. eauto. Qed.

(** [Index] finds an occurrence when there is one, and the first one. *)
Lemma Index_None s d : Index s d = None → ∀ a b, s ≠ a +:+ d +:+ b.
Proof.
  induction s as [|c s IH]; simpl.
  - destruct (HasPrefix "" d) eqn:Hp; [done|]. intros _ a b Heq.
    symmetry in Heq. apply app_eq_empty in Heq as [-> Heq].
    apply app_eq_empty in Heq as [-> _]. done.
  - destruct (HasPrefix (String c s) d) eqn:Hp; [done|].
    destruct (Index s d) eqn:Hi; [done|]. intros _ [|c' a] b Heq.
    + rewrite app_empty_l in Heq. rewrite Heq, HasPrefix_app in Hp. done.
    + rewrite app_String in Heq. injection Heq as -> Heq. by eapply IH.
Qed.

Lemma Index_Some s d m :
  Index s d = Some m →
  ∃ a b, s = a +:+ d +:+ b ∧ len a = m ∧
         slice_to m s = a ∧ slice_from (m + len d) s = b.
Proof.
  revert m. induction s as [|c s IH]; intros m; simpl.
  - destruct (HasPrefix "" d) eqn:Hp; [|done]. intros [= <-].
    apply HasPrefix_spec in Hp as [r Hr]. exists "", r.
    symmetry in Hr. apply app_eq_empty in Hr as [-> ->]. done.
  - destruct (HasPrefix (String c s) d) eqn:Hp.
    + intros [= <-]. apply HasPrefix_spec in Hp as [r Hr]. exists "", r.
      rewrite Hr, app_empty_l. split_and!; [done..|]. apply slice_from_app.
    + destruct (Index s d) as [m'|] eqn:Hi; [|done]. intros [= <-].
      destruct (IH m' eq_refl) as (a & b & -> & <- & Hto & Hfrom).
      exists (String c a), b. rewrite app_String. simpl. by rewrite Hto.
Qed.

Lemma Index_least s d m a b :
  Index s d = Some m → s = a +:+ d +:+ b → m ≤ len a.
Proof.
  revert m a. induction s as [|c s IH]; intros m a; simpl.
  - destruct (HasPrefix "" d); [|done]. intros [= <-] _. lia.
  - destruct (HasPrefix (String c s) d) eqn:Hp.
    + intros [= <-] _. lia.
    + destruct (Index s d) as [m'|] eqn:Hi; [|done]. intros [= <-] Heq.
      destruct a as [|c' a].
      * rewrite app_empty_l in Heq. rewrite Heq, HasPrefix_app in Hp. done.
      * rewrite app_String in Heq. injection Heq as -> Heq.
        simpl. apply le_n_S. by eapply IH.
Qed.

Lemma Index_empty_sep s : Index s "" = Some 0.
Proof. by destruct s. Qed.
End string_facts.

(** ** [Split] and [SplitN] with a non-empty separator *)

Section split_facts.
Implicit Types (s t d p : string) (parts : list string).

Lemma app_split_prefix s1 s2 t1 t2 :
  s1 +:+ s2 = t1 +:+ t2 → len s1 ≤ len t1 →
  ∃ w, t1 = s1 +:+ w ∧ s2 = w +:+ t2.
Proof.
  revert t1. induction s1 as [|c s1 IH]; intros t1; simpl.
  - intros Heq _. exists t1. by rewrite !app_empty_l in *.
  - destruct t1 as [|c' t1]; simpl; [lia|]. rewrite !app_String.
    intros [= -> Heq] Hle. destruct (IH t1 Heq) as (w & -> & ->); [lia|].
    by exists w.
Qed.

Lemma Index_occurs s d : occurs d s → is_Some (Index s d).
Proof.
  intros (a & b & ->). destruct (Index _ d) eqn:Hi; [done|].
  by eapply Index_None in Hi.
Qed.

Lemma Index_cut_at_first s d m :
  Index s d = Some m → cut_at_first d (slice_to m s).
Proof.
  intros Hi. destruct (Index_Some _ _ _ Hi) as (a & b & Hs & Hlen & -> & _).
  intros a' b' Heq.
  assert (s = a' +:+ d +:+ (b' +:+ b)) as Hs'.
  { rewrite Hs, <-(app_assoc_str a d b), Heq. by rewrite !app_assoc_str. }
  pose proof (Index_least _ _ _ _ _ Hi Hs') as Hle.
  apply (f_equal len) in Heq. rewrite !len_app in Heq.
  apply len_zero. lia.
Qed.

(** A string that starts with [p +:+ d], where [p] is cut at the first
    [d], has its first [d] at offset [len p]. *)
Lemma cut_at_first_Index d p r :
  cut_at_first d p → Index (p +:+ d +:+ r) d = Some (len p).
Proof.
  intros Hcut. destruct (Index_occurs (p +:+ d +:+ r) d) as [m Hi]; [by exists p, r|].
  pose proof (Index_least _ _ _ _ _ Hi eq_refl) as Hle.
  destruct (Index_Some _ _ _ Hi) as (a & b & Heq & Hlen & _).
  rewrite <-(app_assoc_str p), <-(app_assoc_str a) in Heq.
  destruct (app_split_prefix (a +:+ d) b (p +:+ d) r) as (w & Hpd & _);
    [done|rewrite !len_app; lia|].
  rewrite app_assoc_str in Hpd. pose proof (Hcut _ _ Hpd) as ->.
  apply (f_equal len) in Hpd. rewrite !len_app in Hpd. simpl in Hpd.
  rewrite Hi. f_equal. lia.
Qed.

Lemma genSplit_loop_nonempty n s d : genSplit_loop n s d ≠ [].
Proof. destruct n; simpl; [done|]. by destruct (Index s d). Qed.

Lemma Join_cons p parts d :
  parts ≠ [] → Join (p :: parts) d = p +:+ d +:+ Join parts d.
Proof. by destruct parts. Qed.

Lemma split_on_cons d p parts :
  parts ≠ [] → split_on d (p :: parts) ↔ cut_at_first d p ∧ split_on d parts.
Proof. by destruct parts. Qed.

Lemma Count_loop_le fuel s d : Count_loop fuel s d ≤ fuel.
Proof.
  revert s. induction fuel as [|fuel IH]; intros s; simpl; [done|].
  destruct (Index s d); [|lia]. specialize (IH (slice_from (n + len d) s)). lia.
Qed.

(** Cutting [Count] times leaves no separator behind. *)
Lemma genSplit_loop_Count fuel s d :
  d ≠ "" → len s ≤ fuel →
  let parts := genSplit_loop (Count_loop fuel s d) s d in
  Join parts d = s ∧ split_on d parts.
Proof.
  intros Hd. revert s. induction fuel as [|fuel IH]; intros s Hlen; simpl.
  - apply Nat.le_0_r, len_zero in Hlen as ->. split; [done|].
    intros (a & b & Heq). symmetry in Heq.
    apply app_eq_empty in Heq as [_ Heq]. by apply app_eq_empty in Heq as [? _].
  - destruct (Index s d) as [m|] eqn:Hi; simpl.
    + rewrite Hi. pose proof (Index_cut_at_first _ _ _ Hi) as Hcut.
      destruct (Index_Some _ _ _ Hi) as (a & b & Hs & Hm & Hto & Hfrom).
      rewrite Hto, Hfrom in *.
      destruct (IH b) as [HJ Hsp].
      { rewrite Hs, !len_app in Hlen. destruct d; [done|]. simpl in Hlen. lia. }
      rewrite Join_cons, split_on_cons by apply genSplit_loop_nonempty.
      by rewrite HJ.
    + split; [done|]. intros (a & b & Heq). by eapply Index_None in Hi.
Qed.

Lemma Split_eq s d :
  d ≠ "" → Split s d = genSplit_loop (Count_loop (len s) s d) s d.
Proof.
  intros Hd. unfold Split, genSplit, Count.
  rewrite bool_decide_eq_false_2 by done. rewrite !decide_False by done.
  rewrite (bool_decide_eq_true_2 (-1 < 0)%Z) by done.
  pose proof (Count_loop_le (len s) s d).
  rewrite bool_decide_eq_false_2 by lia. f_equal. lia.
Qed.

Lemma Split_spec s d :
  d ≠ "" → Join (Split s d) d = s ∧ split_on d (Split s d).
Proof. intros Hd. rewrite Split_eq by done. by apply genSplit_loop_Count. Qed.

(** The pieces are determined by the two properties of [Split_spec]. *)
Lemma split_on_unique d parts1 parts2 :
  split_on d parts1 → split_on d parts2 →
  Join parts1 d = Join parts2 d → parts1 = parts2.
Proof.
  revert parts2. induction parts1 as [|p1 parts1 IH]; intros parts2; [done|].
  destruct parts2 as [|p2 parts2]; [done|].
  destruct (decide (parts1 = [])) as [->|Hne1];
    destruct (decide (parts2 = [])) as [->|Hne2].
  - simpl. by intros _ _ ->.
  - rewrite (split_on_cons d p2 parts2), (Join_cons p2 parts2) by done. simpl.
    intros Hno [Hcut _] ->. destruct Hno. by eexists _, _.
  - rewrite (split_on_cons d p1 parts1), (Join_cons p1 parts1) by done. simpl.
    intros [Hcut _] Hno <-. destruct Hno. by eexists _, _.
  - rewrite !split_on_cons, !Join_cons by done.
    intros [Hcut1 Hsp1] [Hcut2 Hsp2] Heq.
    pose proof (cut_at_first_Index d p1 (Join parts1 d) Hcut1) as Hi1.
    pose proof (cut_at_first_Index d p2 (Join parts2 d) Hcut2) as Hi2.
    rewrite Heq, Hi2 in Hi1. injection Hi1 as Hlen.
    pose proof (f_equal (slice_to (len p1)) Heq) as Hp.
    rewrite slice_to_app, <-Hlen, slice_to_app in Hp. subst p2.
    f_equal. apply IH; [done..|].
    by do 2 apply app_inv_head_str in Heq.
Qed.

Lemma SplitN_2 s d :
  d ≠ "" →
  SplitN s d 2 =
    match Index s d with
    | Some m => [slice_to m s; slice_from (m + len d) s]
    | None => [s]
    end.
Proof.
  intros Hd. unfold SplitN, genSplit.
  rewrite bool_decide_eq_false_2 by done. rewrite decide_False by done.
  rewrite (bool_decide_eq_false_2 (2 < 0)%Z) by done.
  destruct s as [|c s].
  - rewrite bool_decide_eq_true_2 by (simpl; lia).
    change (Z.to_nat (_ - 1)) with 0. cbn [genSplit_loop].
    destruct (Index "" d) eqn:Hi; [|done].
    apply Index_Some in Hi as (a & b & Heq & _). symmetry in Heq.
    apply app_eq_empty in Heq as [_ Heq]. by apply app_eq_empty in Heq as [? _].
  - rewrite bool_decide_eq_false_2 by (simpl; lia).
    change (Z.to_nat (2 - 1)) with 1. cbn [genSplit_loop].
    by destruct (Index _ d).
Qed.

(** An item that holds the separator is cut at its first occurrence. *)
Lemma SplitN_2_occurs s d :
  d ≠ "" → occurs d s →
  ∃ k w, SplitN s d 2 = [k; w] ∧ s = k +:+ d +:+ w ∧ cut_at_first d k.
Proof.
  intros Hd Hocc. rewrite SplitN_2 by done.
  destruct (Index_occurs _ _ Hocc) as [m Hi]. rewrite Hi.
  pose proof (Index_cut_at_first _ _ _ Hi) as Hcut.
  destruct (Index_Some _ _ _ Hi) as (a & b & Hs & _ & Hto & Hfrom).
  rewrite Hto, Hfrom in *. by exists a, b.
Qed.

Lemma SplitN_2_no_occurrence s d :
  Index s d = None → SplitN s d 2 = [s].
Proof.
  intros Hi. rewrite SplitN_2, Hi; [done|].
  intros ->. by rewrite Index_empty_sep in Hi.
Qed.
End split_facts.

(** ** [Trim] *)

Section trim_facts.
Implicit Types (s t cutset : string) (c : ascii).

Lemma app_eq_singleton t c s c' :
  t +:+ String c "" = String c' s →
  (t = "" ∧ s = "" ∧ c = c') ∨ (∃ t', t = String c' t' ∧ s = t' +:+ String c "").
Proof.
  destruct t as [|x t]; rewrite ?app_empty_l, ?app_String.
  - intros [= -> <-]. by left.
  - intros [= -> <-]. right. by eexists.
Qed.

Lemma TrimRight_spec s cutset :
  ∃ r, s = TrimRight s cutset +:+ r ∧ all_in cutset r ∧
       ∀ t c, TrimRight s cutset = t +:+ String c "" → in_cutset c cutset = false.
Proof.
  induction s as [|c s (r & Hs & Hr & Hend)]; simpl.
  - exists "". split_and!; [done..|]. intros t c Heq. symmetry in Heq.
    by apply app_eq_empty in Heq as [_ ?].
  - destruct (TrimRight s cutset) as [|c' t'] eqn:Ht.
    + rewrite app_empty_l in Hs. subst r.
      destruct (in_cutset c cutset) eqn:Hc.
      * exists (String c s). split_and!; [done..|]. intros t x Heq. symmetry in Heq.
        by apply app_eq_empty in Heq as [_ ?].
      * exists s. split_and!; [done..|]. intros t x Heq.
        symmetry in Heq.
        apply app_eq_singleton in Heq as [(_ & _ & ->)|(t' & _ & Heq)]; [done|].
        symmetry in Heq. by apply app_eq_empty in Heq as [_ ?].
    + exists r. split_and!; [by rewrite app_String, <-Hs|done|].
      intros t x Heq. symmetry in Heq.
      apply app_eq_singleton in Heq as [(_ & ? & _)|(t'' & _ & Heq)]; [done|].
      by eapply Hend.
Qed.

Lemma TrimLeft_spec s cutset :
  ∃ l, s = l +:+ TrimLeft s cutset ∧ all_in cutset l ∧
       ∀ c t, TrimLeft s cutset = String c t → in_cutset c cutset = false.
Proof.
  induction s as [|c s (l & Hs & Hl & Hstart)]; simpl.
  - by exists "".
  - destruct (in_cutset c cutset) eqn:Hc.
    + exists (String c l). by rewrite app_String, <-Hs.
    + exists "". split_and!; [done..|]. by intros ? ? [= <- _].
Qed.

Lemma Trim_spec s cutset :
  ∃ l r, s = l +:+ Trim s cutset +:+ r ∧ all_in cutset l ∧ all_in cutset r ∧
         (∀ c t, Trim s cutset = String c t → in_cutset c cutset = false) ∧
         (∀ t c, Trim s cutset = t +:+ String c "" → in_cutset c cutset = false).
Proof.
  unfold Trim.
  destruct (TrimRight_spec s cutset) as (r & Hs & Hr & Hend).
  destruct (TrimLeft_spec (TrimRight s cutset) cutset) as (l & Ht & Hl & Hstart).
  exists l, r. split_and!; [|done..|].
  - by rewrite <-app_assoc_str, <-Ht.
  - intros t c Heq. apply (Hend (l +:+ t)). by rewrite Ht, Heq, app_assoc_str.
Qed.

Lemma all_in_newline s : all_in newline s → newlines s.
Proof.
  induction s as [|c s IH]; simpl; [done|]. intros [Hc Hs]. split; [|auto].
  by case_decide.
Qed.

(** [Trim(v, "\n")] strips the newlines at both ends of [v], and
    nothing else. *)
Lemma Trim_newline v :
  ∃ l r, v = l +:+ Trim v newline +:+ r ∧ newlines l ∧ newlines r ∧
         ¬ starts_with_newline (Trim v newline) ∧
         ¬ ends_with_newline (Trim v newline).
Proof.
  destruct (Trim_spec v newline) as (l & r & Hv & Hl & Hr & Hstart & Hend).
  exists l, r. split_and!; [done|by apply all_in_newline..| |].
  - intros [t Heq]. by specialize (Hstart _ _ Heq).
  - intros [t Heq]. by specialize (Hend _ _ Heq).
Qed.
End trim_facts.

(** ** Template context *)

Section context_facts.
Implicit Types (tx : TemplateContext) (N v d : string).

Lemma Env_present tx N v : envs tx !! N = Some v → Env tx N = Ok v.
Proof. unfold Env. by intros ->. Qed.

Lemma Env_absent tx N : envs tx !! N = None → Env tx N = Err (MissingVariable N).
Proof. unfold Env. by intros ->. Qed.

Lemma explode_loop_Join k s : Join (explode_loop k s) "" = s.
Proof.
  revert s. induction k as [|k IH]; intros s; [done|].
  cbn [explode_loop]. rewrite Join_cons by (by destruct k).
  by rewrite IH, app_empty_l, slice_to_from.
Qed.

Lemma explode_Join s : Join (explode s (-1)) "" = s.
Proof.
  unfold explode. cbv zeta. rewrite (bool_decide_eq_true_2 (-1 < 0 ∨ _)%Z) by lia.
  case_bool_decide as Hl; [apply explode_loop_Join|].
  unfold RuneCountInString in Hl. destruct s; [done|]. simpl in Hl. lia.
Qed.

Lemma Split_empty_sep s : Split s "" = explode s (-1).
Proof. done. Qed.

Lemma sample_context_snapshot : NewTemplateContext sample_environ = Ok sample_context.
Proof. vm_compute. f_equal. Qed.

(** C4: for a name absent from the environment snapshot, [Env], [List]
    and [Dict] fail with the missing-variable error, [Exist] is false and
    [NotExist] is true.  [Exist] and [NotExist] return a [bool]: they
    have no failure outcome. *)
Theorem absent_variable tx N :
  envs tx !! N = None →
  Env tx N = Err (MissingVariable N) ∧
  (∀ d, List tx N d = Err (MissingVariable N)) ∧
  (∀ d1 d2, Dict tx N d1 d2 = Err (MissingVariable N)) ∧
  Exist tx N = false ∧
  NotExist tx N = true.
Proof.
  intros Hn. pose proof (Env_absent _ _ Hn) as HE. unfold List, Dict, Exist, NotExist.
  rewrite HE, Hn. by split_and!.
Qed.

Lemma absent_variable_witness :
  envs sample_context !! "Q" = None ∧
  Env sample_context "Q" = Err (errorString "Error, missing variable 'Q'") ∧
  List sample_context "Q" "," = Err (errorString "Error, missing variable 'Q'") ∧
  Dict sample_context "Q" ";" "=" = Err (errorString "Error, missing variable 'Q'") ∧
  Exist sample_context "Q" = false ∧
  NotExist sample_context "Q" = true.
Proof.
  destruct (absent_variable sample_context "Q" eq_refl) as (H1 & H2 & H3 & H4 & H5).
  split; [reflexivity|]. split; [exact H1|]. split; [exact (H2 ",")|].
  split; [exact (H3 ";" "=")|]. split; [exact H4|exact H5].
Defined.



Example List_abc : List sample_context "L" "," = Ok ["a"; "b"; "c"].
Proof. reflexivity. Qed.

Example List_empty_value : List sample_context "E" "," = Ok [""].
Proof. reflexivity. Qed.

(** *** [Dict] *)

Lemma Dict_loop_pairs items kd pairs dict :
  Forall2 (λ item kv, SplitN item kd 2 = [kv.1; kv.2]) items pairs →
  Dict_loop items kd dict = Ok (assign_all pairs dict).
Proof.
  intros H. revert dict. induction H as [|item kv items pairs Hkv _ IH]; intros dict.
  - done.
  - cbn [Dict_loop]. rewrite Hkv. cbn. apply IH.
Qed.

Lemma assign_all_list_to_map pairs dict :
  assign_all pairs dict = list_to_map (reverse pairs) ∪ dict.
Proof.
  revert dict. induction pairs as [|[k x] pairs IH]; intros dict.
  - cbn. by rewrite (left_id_L ∅ (∪)).
  - rewrite reverse_cons, list_to_map_app. unfold assign_all in *.
    cbn [foldl fst snd]. rewrite IH, <-(assoc_L (∪)). f_equal.
    cbn. by rewrite insert_union_singleton_l.
Qed.

Lemma assign_all_other pairs dict k :
  k ∉ pairs.*1 → assign_all pairs dict !! k = dict !! k.
Proof.
  revert dict. induction pairs as [|[k' x] pairs IH]; intros dict Hk; [done|].
  cbn in *. apply not_elem_of_cons in Hk as [Hne Hk].
  unfold assign_all in IH. rewrite IH by done. by rewrite lookup_insert_ne.
Qed.

Lemma assign_all_last pairs1 k x pairs2 dict :
  k ∉ pairs2.*1 → assign_all (pairs1 ++ (k, x) :: pairs2) dict !! k = Some x.
Proof.
  intros Hk. unfold assign_all. rewrite foldl_app. cbn.
  fold (assign_all pairs2 (<[k:=x]> (foldl (λ m kv, <[kv.1:=kv.2]> m) dict pairs1))).
  rewrite assign_all_other by done. apply lookup_insert_eq.
Qed.

Lemma occurs_empty s : occurs "" s.
Proof. by exists "", s. Qed.

Lemma Dict_loop_panics items kd dict :
  Exists (λ item, ¬ occurs kd item) items →
  Dict_loop items kd dict = Panic (IndexOutOfRange 1 1).
Proof.
  intros Hex.
  assert (kd ≠ "") as Hkd.
  { intros ->. apply Exists_exists in Hex as (item & _ & Hno). apply Hno, occurs_empty. }
  revert dict. induction Hex as [item items Hno|item items _ IH]; intros dict;
    cbn [Dict_loop]; rewrite SplitN_2 by done.
  - destruct (Index item kd) as [m|] eqn:Hi; [|done].
    destruct Hno. apply Index_Some in Hi as (a & b & ? & _). by exists a, b.
  - destruct (Index item kd) as [m|] eqn:Hi; [|done]. cbn. apply IH.
Qed.

(** C1: an item without the key/value delimiter makes [Dict] index the
    one-element result of [SplitN] at 1: the call panics with an index
    out of range, it does not return an error. *)
Theorem Dict_item_without_kvDelimiter_panics tx N v id kd :
  envs tx !! N = Some v →
  Exists (λ item, ¬ occurs kd item) (Split v id) →
  Dict tx N id kd = Panic (IndexOutOfRange 1 1).
Proof.
  intros Hv Hex. unfold Dict. rewrite (Env_present _ _ _ Hv). cbn.
  by apply Dict_loop_panics.
Qed.

Lemma not_occurs_by_Index d s : Index s d = None → ¬ occurs d s.
Proof. intros Hi (a & b & ->). by eapply Index_None in Hi. Qed.

Lemma Dict_item_without_kvDelimiter_panics_witness :
  envs sample_context !! "M" = Some "a" ∧
  Split "a" ";" = ["a"] ∧
  ¬ occurs "=" "a" ∧
  Dict sample_context "M" ";" "=" = Panic (IndexOutOfRange 1 1).
Proof.
  split; [reflexivity|]. split; [reflexivity|].
  split; [apply not_occurs_by_Index; reflexivity|].
  apply (Dict_item_without_kvDelimiter_panics sample_context "M" "a" ";" "=" eq_refl).
  apply Exists_cons_hd, not_occurs_by_Index. reflexivity.
Defined.

(** C6, amended: with a non-empty key/value delimiter, when every item
    of the value holds the delimiter, [Dict] cuts each item at the first
    occurrence of the delimiter into a key and a value (the value keeps
    any later delimiter) and returns the mapping of the keys to their
    values. *)
Theorem Dict_cuts_items_at_first_kvDelimiter tx N v id kd :
  envs tx !! N = Some v →
  kd ≠ "" →
  Forall (occurs kd) (Split v id) →
  ∃ pairs,
    Forall2 (λ item kv, item = kv.1 +:+ kd +:+ kv.2 ∧ cut_at_first kd kv.1)
            (Split v id) pairs ∧
    Dict tx N id kd = Ok (list_to_map (reverse pairs)).
Proof.
  intros Hv Hkd Hocc. unfold Dict. rewrite (Env_present _ _ _ Hv). cbn.
  assert (∃ pairs,
    Forall2 (λ item kv, SplitN item kd 2 = [kv.1; kv.2] ∧
                        item = kv.1 +:+ kd +:+ kv.2 ∧ cut_at_first kd kv.1)
            (Split v id) pairs) as [pairs Hpairs].
  { induction Hocc as [|item items Hitem _ [pairs IH]]; [by exists []|].
    destruct (SplitN_2_occurs item kd Hkd Hitem) as (k & w & ? & ? & ?).
    exists ((k, w) :: pairs). by constructor. }
  exists pairs. split.
  - eapply Forall2_impl; [done|]. by intros ? ? (_ & ? & ?).
  - rewrite (Dict_loop_pairs _ _ pairs).
    + by rewrite assign_all_list_to_map, (right_id_L ∅ (∪)).
    + eapply Forall2_impl; [done|]. by intros ? ? (? & _).
Qed.

Lemma occurs_by_Index d s : is_Some (Index s d) → occurs d s.
Proof. intros [m Hi]. apply Index_Some in Hi as (a & b & ? & _). by exists a, b. Qed.

Lemma Dict_cuts_items_at_first_kvDelimiter_witness :
  envs sample_context !! "F" = Some "a=1=x" ∧
  Split "a=1=x" ";" = ["a=1=x"] ∧
  ∃ pairs,
    Forall2 (λ item kv, item = kv.1 +:+ "=" +:+ kv.2 ∧ cut_at_first "=" kv.1)
            (Split "a=1=x" ";") pairs ∧
    Dict sample_context "F" ";" "=" = Ok (list_to_map (reverse pairs)).
Proof.
  split; [reflexivity|]. split; [reflexivity|].
  apply (Dict_cuts_items_at_first_kvDelimiter sample_context "F" "a=1=x" ";" "=" eq_refl).
  - discriminate.
  - repeat constructor. apply occurs_by_Index. vm_compute. eexists. reflexivity.
Defined.

Example Dict_two_items :
  Dict sample_context "D" ";" "=" = Ok (<["b" := "2"]> (<["a" := "1"]> ∅)).
Proof. reflexivity. Qed.

Example Dict_first_delimiter :
  Dict sample_context "F" ";" "=" = Ok (<["a" := "1=x"]> ∅).
Proof. reflexivity. Qed.

(** C6 as stated fails for the empty key/value delimiter, which every
    item holds: the item ["ab"] is cut after its first character, not at
    the first occurrence of the delimiter (offset 0), and the
    one-character item ["a"] is not cut at all, so that [Dict] panics. *)
Lemma Dict_empty_kvDelimiter_counterexample :
  (envs sample_context !! "P" = Some "ab" ∧
   Forall (occurs "") (Split "ab" ";") ∧
   Dict sample_context "P" ";" "" = Ok (<["a" := "b"]> ∅) ∧
   ¬ cut_at_first "" "a") ∧
  (envs sample_context !! "M" = Some "a" ∧
   Forall (occurs "") (Split "a" ";") ∧
   Dict sample_context "M" ";" "" = Panic (IndexOutOfRange 1 1)).
Proof.
  split; (split; [reflexivity|]); (split; [repeat constructor; apply occurs_empty|]).
  - split; [reflexivity|]. intros Hcut. by specialize (Hcut "" "a" eq_refl).
  - reflexivity.
Qed.


(** *** [NewTemplateContext] *)

(** A name without ["="] followed by ["="] has its first ["="] at its end. *)
Lemma cut_at_first_char c N : ¬ occurs (String c "") N → cut_at_first (String c "") N.
Proof.
  intros Hno a b Heq. destruct b as [|c' b]; [done|]. destruct Hno.
  destruct (app_split_prefix (a +:+ String c "") (String c' b) N (String c ""))
    as (w & -> & _).
  - by rewrite app_assoc_str.
  - apply (f_equal len) in Heq. rewrite !len_app in *. simpl in *. lia.
  - exists a, w. by rewrite app_assoc_str.
Qed.

Lemma cut_at_first_inj d k1 x1 k2 x2 :
  cut_at_first d k1 → cut_at_first d k2 →
  k1 +:+ d +:+ x1 = k2 +:+ d +:+ x2 → k1 = k2 ∧ x1 = x2.
Proof.
  intros H1 H2 Heq.
  pose proof (cut_at_first_Index d k1 x1 H1) as Hi1.
  pose proof (cut_at_first_Index d k2 x2 H2) as Hi2.
  rewrite Heq, Hi2 in Hi1. injection Hi1 as Hlen.
  pose proof (f_equal (slice_to (len k1)) Heq) as Hk.
  rewrite slice_to_app, <-Hlen, slice_to_app in Hk. subst k2.
  split; [done|]. by do 2 apply app_inv_head_str in Heq.
Qed.

(** An entry [N=V] whose name holds no ["="] splits into [N] and [V]. *)
Lemma SplitN_entry N V :
  ¬ occurs "=" N → SplitN (N +:+ "=" +:+ V) "=" 2 = [N; V].
Proof.
  intros HN. destruct (SplitN_2_occurs (N +:+ "=" +:+ V) "=") as (k & x & -> & Heq & Hcut);
    [done|by exists N, V|].
  apply cut_at_first_char in HN.
  by destruct (cut_at_first_inj "=" N V k x HN Hcut Heq) as [-> ->].
Qed.

Lemma NewTemplateContext_loop_spec environ envs0 :
  Forall (occurs "=") environ →
  ∃ envs1,
    NewTemplateContext_loop environ envs0 = Ok envs1 ∧
    (∀ N, unset_in N environ → envs1 !! N = envs0 !! N) ∧
    (∀ environ1 N V environ2,
       environ = environ1 ++ (N +:+ "=" +:+ V) :: environ2 →
       ¬ occurs "=" N → unset_in N environ2 →
       envs1 !! N = Some (Trim V newline)) ∧
    (∀ N, is_Some (envs1 !! N) →
       is_Some (envs0 !! N) ∨
       ∃ V, N +:+ "=" +:+ V ∈ environ ∧ cut_at_first "=" N).
Proof.
  intros Hall. revert envs0.
  induction Hall as [|str environ Hstr _ IH]; intros envs0.
  - exists envs0. split_and!; [done..| |by left].
    intros [|??] ? ? ? ?; done.
  - destruct (SplitN_2_occurs str "=") as (k & x & Hsp & -> & Hcut); [done..|].
    destruct (IH (<[k := Trim x newline]> envs0)) as (envs1 & Hloop & Hunset & Hset & Hdom).
    exists envs1. cbn [NewTemplateContext_loop]. rewrite Hsp. cbn. split_and!; [done| | |].
    + intros N HN. apply Forall_cons in HN as [Hhd HN].
      rewrite Hunset by done. apply lookup_insert_ne. intros ->. by eapply Hhd.
    + intros [|str1 environ1] N V environ2; cbn.
      * intros [= Heq ->] HN Hun. rewrite Hunset by done.
        apply cut_at_first_char in HN.
        destruct (cut_at_first_inj "=" k x N V Hcut HN Heq) as [-> ->].
        apply lookup_insert_eq.
      * intros [= _ Heq]. by apply (Hset environ1).
    + intros N HN. destruct (Hdom N HN) as [Hin|(V & Hin & HcutN)].
      * destruct (decide (k = N)) as [->|Hne].
        -- right. exists x. split; [left|done].
        -- left. by rewrite lookup_insert_ne in Hin.
      * right. exists V. split; [by right|done].
Qed.

(** C3, amended: when every entry of the process environment holds an
    ["="], the snapshot is built; an entry [N=V] ([N] without ["="], not
    set again by a later entry) gives [N] the value [V] stripped of its
    leading and its trailing newlines, and of nothing else; every name of
    the snapshot comes from such an entry; and [Env] returns the value
    of the snapshot unchanged. *)
Theorem NewTemplateContext_snapshot environ :
  Forall (occurs "=") environ →
  ∃ tx,
    NewTemplateContext environ = Ok tx ∧
    (∀ environ1 N V environ2,
       environ = environ1 ++ (N +:+ "=" +:+ V) :: environ2 →
       ¬ occurs "=" N → unset_in N environ2 →
       ∃ l v r,
         V = l +:+ v +:+ r ∧ newlines l ∧ newlines r ∧
         ¬ starts_with_newline v ∧ ¬ ends_with_newline v ∧
         envs tx !! N = Some v) ∧
    (∀ N, is_Some (envs tx !! N) →
       ∃ V, N +:+ "=" +:+ V ∈ environ ∧ ¬ occurs "=" N) ∧
    (∀ N v, envs tx !! N = Some v → Env tx N = Ok v).
Proof.
  intros Hall. destruct (NewTemplateContext_loop_spec environ ∅ Hall)
    as (envs1 & Hloop & _ & Hset & Hdom).
  exists {| envs := envs1 |}. unfold NewTemplateContext. rewrite Hloop.
  split_and!; [done| | |].
  - intros environ1 N V environ2 Heq HN Hun.
    destruct (Trim_newline V) as (l & r & HV & Hl & Hr & Hstart & Hend).
    exists l, (Trim V newline), r. split_and!; [done..|]. by eapply Hset.
  - intros N HN. destruct (Hdom N HN) as [[? Hin]|(V & ? & Hcut)].
    + by rewrite lookup_empty in Hin.
    + exists V. split; [done|]. intros (a & b & ->).
      specialize (Hcut a (b +:+ "=")). rewrite !app_assoc_str in Hcut.
      specialize (Hcut eq_refl). by apply app_eq_empty in Hcut as [_ ?].
  - apply Env_present.
Qed.

Lemma NewTemplateContext_snapshot_witness :
  Forall (occurs "=") sample_environ ∧
  ∃ tx, NewTemplateContext sample_environ = Ok tx ∧
        ∀ N v, envs tx !! N = Some v → Env tx N = Ok v.
Proof.
  assert (Forall (occurs "=") sample_environ) as Hall.
  { repeat constructor; apply occurs_by_Index; vm_compute; eexists; reflexivity. }
  split; [exact Hall|].
  destruct (NewTemplateContext_snapshot sample_environ Hall) as (tx & Htx & _ & _ & HEnv).
  exists tx. split; [exact Htx|exact HEnv].
Defined.

(** C3 as stated fails: the newline in front of a value is stripped too.
    The entry [A=\nx] gives [A] the value ["x"], where stripping the
    trailing newlines only would keep the value as it is. *)
Lemma NewTemplateContext_leading_newline_counterexample :
  ∃ tx,
    NewTemplateContext ["A=" +:+ newline +:+ "x"] = Ok tx ∧
    Env tx "A" = Ok "x" ∧
    TrimRight (newline +:+ "x") newline = newline +:+ "x" ∧
    "x" ≠ newline +:+ "x".
Proof.
  exists {| envs := <["A" := "x"]> ∅ |}. split; [vm_compute; reflexivity|].
  split; [reflexivity|]. split; [reflexivity|]. discriminate.
Qed.
End context_facts.


(** ** Flags *)

Section flags_facts.
Variable flagSet_Parse : list string → Flags → Flags * option error.

Lemma NewFlags_parsed args flags :
  flagSet_Parse args {| flag_IF := ""; flag_OF := ""; flag_ID := ""; flag_OD := "" |}
    = (flags, None) →
  ∃ err, NewFlags flagSet_Parse args = (flags, err) ∧
    (err = None ↔
       ¬ (flag_IF flags = "" ∧ flag_ID flags = "") ∧
       ¬ (flag_IF flags ≠ "" ∧ flag_OF flags = "") ∧
       ¬ (flag_ID flags ≠ "" ∧ flag_OD flags = "")).
Proof.
  intros Hp. unfold NewFlags. rewrite Hp.
  repeat case_bool_decide; eexists; (split; [reflexivity|]); split; try done; tauto.
Qed.

(** C5, amended: when the parsed flags have both [-if] and [-id]
    non-empty, validation reports an error exactly when [-of] or [-od] is
    empty; with all four non-empty it reports none, and [main] enters the
    pipeline with both set. *)
Theorem NewFlags_mixed_modes args flags :
  flagSet_Parse args {| flag_IF := ""; flag_OF := ""; flag_ID := ""; flag_OD := "" |}
    = (flags, None) →
  flag_IF flags ≠ "" →
  flag_ID flags ≠ "" →
  ∃ err, NewFlags flagSet_Parse args = (flags, err) ∧
    (is_Some err ↔ flag_OF flags = "" ∨ flag_OD flags = "") ∧
    (err = None →
       ∀ template_Template template_Parse template_Execute w,
         main flagSet_Parse template_Template template_Parse template_Execute args w =
           match Run template_Template template_Parse template_Execute flags w with
           | (Ok _, w') => (Exit0, w')
           | (Err e, w') => (Fatalf "Failed run: %v\n" e, w')
           | (Panic p, w') => (Crash p, w')
           end).
Proof.
  intros Hp HIF HID. destruct (NewFlags_parsed args flags Hp) as (err & HN & Herr).
  exists err. split; [done|]. split.
  - destruct err as [e|].
    + split; [|by eexists]. intros _.
      destruct (decide (flag_OF flags = "")); [by left|].
      destruct (decide (flag_OD flags = "")); [by right|].
      assert (Some e = None) as [=]. apply Herr. tauto.
    + split; [by intros [? [=]]|]. intros Hor.
      destruct Herr as [Herr _]. specialize (Herr eq_refl). tauto.
  - intros ->. intros. unfold main. by rewrite HN.
Qed.
End flags_facts.

Lemma NewFlags_mixed_modes_witness :
  ∃ err, NewFlags sample_Parse mixed_args = (mixed_flags, err) ∧
         (is_Some err ↔ flag_OF mixed_flags = "" ∨ flag_OD mixed_flags = "").
Proof.
  destruct (NewFlags_mixed_modes sample_Parse mixed_args mixed_flags)
    as (err & HN & Herr & _).
  - reflexivity.
  - discriminate.
  - discriminate.
  - exists err. split; [exact HN|exact Herr].
Defined.


(** ** Paths *)

Section path_facts.
Implicit Types (s t name : string) (key elems : list string).

Lemma not_occurs_String c s d :
  ¬ occurs d (String c s) → ¬ occurs d s.
Proof. intros Hno (a & b & ->). apply Hno. by exists (String c a), b. Qed.

Lemma path_elements_nonempty s : path_elements s ≠ [].
Proof.
  destruct s as [|c s]; simpl; [done|]. case_decide; [done|].
  by destruct (path_elements s).
Qed.

Lemma path_elements_name s : ¬ occurs "/" s → path_elements s = [s].
Proof.
  induction s as [|c s IH]; intros Hno; simpl; [done|].
  case_decide as Hc.
  - subst c. destruct Hno. by exists "", s.
  - by rewrite IH by by eapply not_occurs_String.
Qed.

Lemma path_elements_app s t :
  path_elements (s +:+ "/" +:+ t) = path_elements s ++ path_elements t.
Proof.
  induction s as [|c s IH].
  - by rewrite app_empty_l.
  - rewrite (app_String c s). cbn [path_elements]. rewrite IH.
    case_decide; [done|]. pose proof (path_elements_nonempty s).
    by destruct (path_elements s).
Qed.

Lemma path_elements_slashfree s : Forall (λ e, ¬ occurs "/" e) (path_elements s).
Proof.
  induction s as [|c s IH]; simpl.
  - constructor; [|done]. intros (a & b & Heq). symmetry in Heq.
    apply app_eq_empty in Heq as [_ Heq]. by apply app_eq_empty in Heq as [? _].
  - case_decide as Hc.
    + constructor; [|done]. intros (a & b & Heq). symmetry in Heq.
      apply app_eq_empty in Heq as [_ Heq]. by apply app_eq_empty in Heq as [? _].
    + destruct (path_elements s) as [|e es] eqn:Hs; [by apply path_elements_nonempty in Hs|].
      apply Forall_cons in IH as [He Hes]. constructor; [|done].
      intros ([|c' a] & b & Heq).
      * rewrite app_empty_l in Heq. by injection Heq as -> _.
      * rewrite (app_String c' a) in Heq. injection Heq as -> Heq. apply He. by exists a, b.
Qed.

Lemma path_elements_Join key :
  key ≠ [] → Forall (λ e, ¬ occurs "/" e) key → path_elements (Join key "/") = key.
Proof.
  induction key as [|e key IH]; [done|]. intros _ Hall.
  apply Forall_cons in Hall as [He Hall].
  destruct (decide (key = [])) as [->|Hne]; [by apply path_elements_name|].
  rewrite Join_cons, path_elements_app, path_elements_name, IH by done. done.
Qed.

Lemma rel_path_inj key1 key2 :
  key1 ≠ [] → key2 ≠ [] →
  Forall valid_name key1 → Forall valid_name key2 →
  rel_path key1 = rel_path key2 → key1 = key2.
Proof.
  intros Hne1 Hne2 H1 H2 Heq.
  rewrite <-(path_elements_Join key1), <-(path_elements_Join key2); try done.
  - by unfold rel_path in Heq; rewrite Heq.
  - eapply Forall_impl; [exact H2|]. by intros ? (_ & _ & _ & ?).
  - eapply Forall_impl; [exact H1|]. by intros ? (_ & _ & _ & ?).
Qed.

(** *** [Clean] on its elements *)

Lemma clean_step_name rooted out name :
  valid_name name → clean_step rooted out name = name :: out.
Proof.
  intros (H1 & H2 & H3 & _). unfold clean_step.
  rewrite decide_False by (intros [?|?]; done). by rewrite decide_False.
Qed.

Lemma foldl_clean_step_names rooted out key :
  Forall valid_name key → foldl (clean_step rooted) out key = reverse key ++ out.
Proof.
  revert out. induction key as [|name key IH]; intros out Hall; [done|].
  apply Forall_cons in Hall as [Hname Hall]. cbn [foldl].
  rewrite clean_step_name, IH, reverse_cons, <-(assoc_L (++)) by done. done.
Qed.

Lemma clean_elements_app_names rooted elems key :
  Forall valid_name key →
  clean_elements rooted (elems ++ key) = clean_elements rooted elems ++ key.
Proof.
  intros Hall. unfold clean_elements.
  by rewrite foldl_app, foldl_clean_step_names, reverse_app, reverse_involutive.
Qed.

Lemma clean_elements_names rooted key :
  Forall valid_name key → clean_elements rooted key = key.
Proof. intros Hall. by rewrite <-(app_nil_l key) at 1; rewrite clean_elements_app_names. Qed.

(** With a root, cleaning leaves valid names only; without one it leaves
    the same names after some [".."]. *)
Lemma foldl_clean_step_rooted elems out n :
  Forall (λ e, ¬ occurs "/" e) elems → Forall valid_name out →
  ∃ n', Forall valid_name (foldl (clean_step true) out elems) ∧
        foldl (clean_step false) (out ++ replicate n "..") elems =
          foldl (clean_step true) out elems ++ replicate n' "..".
Proof.
  intros Helems. revert out n.
  induction Helems as [|e elems He _ IH]; intros out n Hout; [by exists n|].
  cbn [foldl].
  destruct (decide (e = "" ∨ e = ".")) as [Hdot|Hdot].
  { assert (∀ r o, clean_step r o e = o) as Hstep.
    { intros. unfold clean_step. by rewrite decide_True. }
    rewrite !Hstep. by apply IH. }
  destruct (decide (e = "..")) as [->|Hdd].
  - destruct out as [|last before].
    + destruct n as [|n].
      * apply (IH [] 1). done.
      * apply (IH [] (S (S n))). done.
    + apply Forall_cons in Hout as [Hlast Hbefore].
      destruct Hlast as (_ & _ & Hlast & _).
      assert (∀ r o, clean_step r (last :: o) ".." = o) as Hstep.
      { intros. unfold clean_step. rewrite decide_False by (intros [?|?]; done).
        rewrite decide_True by done. by rewrite decide_False. }
      rewrite <-app_comm_cons, !Hstep. by apply IH.
  - assert (valid_name e) as Hname.
    { split_and!; try done; intros ->; apply Hdot; auto. }
    rewrite !clean_step_name by done. rewrite app_comm_cons.
    apply IH. by constructor.
Qed.

Lemma clean_elements_rooted elems :
  Forall (λ e, ¬ occurs "/" e) elems →
  Forall valid_name (clean_elements true elems) ∧
  ∃ n, clean_elements false elems = replicate n ".." ++ clean_elements true elems.
Proof.
  intros Helems.
  destruct (foldl_clean_step_rooted elems [] 0 Helems) as (n & Hvalid & Heq); [done|].
  unfold clean_elements. split; [by apply Forall_reverse|].
  exists n. cbn in Heq. by rewrite Heq, reverse_app, reverse_replicate.
Qed.

Lemma clean_elements_dotdots n key :
  Forall valid_name key → clean_elements true (replicate n ".." ++ key) = key.
Proof.
  intros Hall. rewrite clean_elements_app_names by done.
  replace (clean_elements true (replicate n "..")) with (@nil string); [done|].
  unfold clean_elements. induction n as [|n IH]; [done|]. exact IH.
Qed.

Lemma path_key_valid path : Forall valid_name (path_key path).
Proof. apply clean_elements_rooted, path_elements_slashfree. Qed.

Lemma slashfree_valid key : Forall valid_name key → Forall (λ e, ¬ occurs "/" e) key.
Proof. intros H. eapply Forall_impl; [exact H|]. by intros ? (_ & _ & _ & ?). Qed.

Lemma HasPrefix_slash s : HasPrefix s "/" = true → ∃ t, s = "/" +:+ t.
Proof. apply HasPrefix_spec. Qed.

(** Cleaning a path does not change the directory it names. *)
Lemma path_key_Clean path : path_key (Clean path) = path_key path.
Proof.
  unfold Clean. case_decide as Hempty; [by subst|].
  pose proof (path_elements_slashfree path) as Hfree.
  destruct (clean_elements_rooted _ Hfree) as [Hvalid (n & Hn)].
  destruct (HasPrefix path "/") eqn:Hrooted.
  - fold (path_key path). unfold path_key at 1.
    change ("/" +:+ Join (path_key path) "/") with ("" +:+ "/" +:+ Join (path_key path) "/").
    rewrite path_elements_app. cbn [path_elements app].
    destruct (decide (path_key path = [])) as [Hnil|Hnil].
    + by rewrite Hnil.
    + rewrite path_elements_Join by eauto using slashfree_valid.
      change ("" :: path_key path) with ([""] ++ path_key path).
      by rewrite clean_elements_app_names.
  - rewrite Hn. case_decide as Hout.
    + apply app_eq_nil in Hout as [_ Hout]. unfold path_key at 2. by rewrite Hout.
    + unfold path_key at 1. rewrite path_elements_Join.
      * by apply clean_elements_dotdots.
      * done.
      * apply Forall_app. split; [|by apply slashfree_valid].
        apply Forall_replicate. by apply not_occurs_by_Index.
Qed.

Lemma path_key_app path key :
  Forall valid_name key →
  path_key (path +:+ "/" +:+ Join key "/") = path_key path ++ key.
Proof.
  intros Hall. unfold path_key. rewrite path_elements_app.
  destruct (decide (key = [])) as [->|Hne].
  - cbn [Join path_elements]. rewrite app_nil_r.
    unfold clean_elements. rewrite foldl_app. done.
  - rewrite path_elements_Join by eauto using slashfree_valid.
    by apply clean_elements_app_names.
Qed.

Lemma path_key_name name : valid_name name → path_key name = [name].
Proof.
  intros Hname. unfold path_key. rewrite path_elements_name by apply Hname.
  apply clean_elements_names. by constructor.
Qed.

(** [filepath.Join(path, rel)] names the directory [rel] below [path]. *)
Lemma path_key_filepath_Join path key :
  key ≠ [] → Forall valid_name key →
  path_key (filepath_Join [path; rel_path key]) = path_key path ++ key.
Proof.
  intros Hne Hall. unfold rel_path. cbn [filepath_Join].
  assert (Join key "/" ≠ "") as Hrel.
  { intros Heq. apply (f_equal path_elements) in Heq.
    rewrite path_elements_Join in Heq by eauto using slashfree_valid. subst key.
    apply Forall_cons in Hall as [(? & _) _]. done. }
  case_decide as Hpath.
  - subst path. rewrite decide_False by done. cbn [Join].
    rewrite path_key_Clean. unfold path_key.
    rewrite path_elements_Join by eauto using slashfree_valid.
    by rewrite clean_elements_names.
  - rewrite Join_cons by done. cbn [Join]. by rewrite path_key_Clean, path_key_app.
Qed.

(** Joining a name and a relative path puts the separator between them. *)
Lemma filepath_Join_rel_path name key :
  valid_name name → key ≠ [] → Forall valid_name key →
  filepath_Join [name; rel_path key] = rel_path (name :: key).
Proof.
  intros Hname Hne Hall. cbn [filepath_Join].
  rewrite decide_False by apply Hname. unfold rel_path.
  replace (Join [name; Join key "/"] "/") with (Join (name :: key) "/")
    by (by rewrite (Join_cons name key)).
  assert (Forall valid_name (name :: key)) as Hall' by by constructor.
  unfold Clean.
  rewrite decide_False; last first.
  { intros Heq. apply (f_equal path_elements) in Heq.
    rewrite path_elements_Join in Heq by (done || eauto using slashfree_valid).
    injection Heq as _ ->. done. }
  rewrite path_elements_Join by (done || eauto using slashfree_valid).
  destruct (HasPrefix _ "/") eqn:Hrooted.
  - apply HasPrefix_slash in Hrooted as [t Ht]. rewrite Join_cons in Ht by done.
    destruct name as [|c name]; [by destruct Hname|].
    rewrite app_String in Ht. injection Ht as -> _.
    destruct Hname as (_ & _ & _ & []). by exists "", name.
  - rewrite clean_elements_names by done. by rewrite decide_False.
Qed.
End path_facts.

(** ** The directory tree *)

Section tree_facts.
Implicit Types (n t fs child : node) (entries : list (string * node))
  (key : list string) (name path : string).

Lemma node_ind (P : node → Prop) :
  (∀ data, P (File data)) →
  (∀ r entries, Forall (λ e, P e.2) entries → P (Dir r entries)) →
  ∀ n, P n.
Proof.
  intros HF HD. fix IH 1. intros [data|r entries]; [apply HF|]. apply HD.
  induction entries as [|[name child] entries IHe]; constructor; [apply IH|apply IHe].
Qed.

Lemma find_entry_Some name entries child :
  find_entry name entries = Some child → (name, child) ∈ entries.
Proof.
  induction entries as [|[n c] entries IH]; cbn; [done|].
  case_decide as Hn; [intros [= ->]; subst; left|right; auto].
Qed.

Lemma find_entry_elem_of name entries child :
  NoDup entries.*1 → (name, child) ∈ entries → find_entry name entries = Some child.
Proof.
  induction entries as [|[n c] entries IH]; cbn; [by intros _ ?%elem_of_nil|].
  intros [Hn Hnd]%NoDup_cons [[= -> ->]|Hin]%elem_of_cons.
  - by rewrite decide_True.
  - rewrite decide_False; [auto|]. intros ->. apply Hn.
    apply list_elem_of_fmap. by exists (name, child).
Qed.

Lemma lookup_node_app key1 key2 n :
  lookup_node (key1 ++ key2) n = lookup_node key1 n ≫= lookup_node key2.
Proof.
  revert n. induction key1 as [|name key1 IH]; intros n; cbn; [done|].
  destruct n as [|r entries]; [done|]. destruct (find_entry name entries); cbn; auto.
Qed.

Lemma height_Dir r entries :
  height (Dir r entries) = S (max_list (height <$> entries.*2)).
Proof.
  cbn. f_equal. induction entries as [|[name child] entries IH]; cbn; [done|].
  by rewrite IH.
Qed.

Lemma height_child r entries name child :
  (name, child) ∈ entries → height child < height (Dir r entries).
Proof.
  intros Hin. rewrite height_Dir. apply Nat.lt_succ_r, max_list_elem_of_le.
  apply list_elem_of_fmap. exists child. split; [done|].
  apply list_elem_of_fmap. by exists (name, child).
Qed.

Lemma height_lookup key n t : lookup_node key n = Some t → height t ≤ height n.
Proof.
  revert n. induction key as [|name key IH]; intros n; cbn.
  - by intros [= ->].
  - destruct n as [|r entries]; [done|].
    destruct (find_entry name entries) as [child|] eqn:Hfind; [|done]. cbn.
    intros Ht%IH. apply find_entry_Some in Hfind.
    pose proof (height_child r _ _ _ Hfind) as Hc. cbn in Hc. lia.
Qed.

Lemma wf_lookup key n t : wf_node n → lookup_node key n = Some t → wf_node t.
Proof.
  revert n. induction key as [|name key IH]; intros n Hwf; cbn.
  - by intros [= <-].
  - destruct n as [|r entries]; [done|].
    destruct (find_entry name entries) as [child|] eqn:Hfind; [|done]. cbn.
    apply IH. inversion_clear Hwf as [|? ? _ _ Hall].
    apply find_entry_Some in Hfind.
    by apply (proj1 (Forall_forall _ _) Hall (name, child)).
Qed.

Lemma subdir_keys_valid t key :
  wf_node t → key ∈ subdir_keys t → key ≠ [] ∧ Forall valid_name key.
Proof.
  revert key. induction t as [|r entries IH] using node_ind; intros key Hwf; [by intros ?%elem_of_nil|].
  cbn. rewrite list_elem_of_In, in_flat_map. intros ([name child] & Hin & Hkey).
  apply list_elem_of_In in Hin. cbn in Hkey.
  inversion_clear Hwf as [|? ? _ Hnames Hchildren].
  assert (valid_name name) as Hname.
  { apply (proj1 (Forall_forall _ _) Hnames). apply list_elem_of_fmap. by exists (name, child). }
  destruct (is_dir child); [|done].
  destruct Hkey as [<-|Hkey%list_elem_of_In]; [by split; [|constructor]|].
  apply list_elem_of_fmap in Hkey as (key' & -> & Hkey').
  split; [done|]. constructor; [done|].
  eapply (proj1 (Forall_forall _ _) IH (name, child)); [done| |done].
  by apply (proj1 (Forall_forall _ _) Hchildren (name, child)).
Qed.

Lemma stat_Some fs path t :
  stat fs path = Some t → path ≠ "" ∧ lookup_node (path_key path) fs = Some t.
Proof. unfold stat. by case_decide. Qed.

Lemma stat_nonempty fs path : path ≠ "" → stat fs path = lookup_node (path_key path) fs.
Proof. unfold stat. intros. by rewrite decide_False. Qed.

Lemma os_ReadDir_readable fs path entries :
  stat fs path = Some (Dir true entries) →
  os_ReadDir fs path = (to_DirEntry <$> entries, None).
Proof. unfold os_ReadDir. by intros ->. Qed.

Lemma path_key_child path name :
  valid_name name → path_key (filepath_Join [path; name]) = path_key path ++ [name].
Proof. intros Hname. by apply (path_key_filepath_Join path [name]); [|constructor]. Qed.

(** A joined path is not empty: it names something below [path]. *)
Lemma filepath_Join_nonempty path key :
  key ≠ [] → Forall valid_name key → filepath_Join [path; rel_path key] ≠ "".
Proof.
  intros Hne Hall Heq. pose proof (path_key_filepath_Join path key Hne Hall) as Hkey.
  rewrite Heq in Hkey. by destruct (path_key path), key.
Qed.

Lemma stat_filepath_Join fs path t key :
  stat fs path = Some t → key ≠ [] → Forall valid_name key →
  stat fs (filepath_Join [path; rel_path key]) = lookup_node key t.
Proof.
  intros [_ Hlook]%stat_Some Hne Hall.
  rewrite stat_nonempty by by apply filepath_Join_nonempty.
  by rewrite path_key_filepath_Join, lookup_node_app, Hlook.
Qed.

Lemma lookup_child fs path r entries name child :
  stat fs path = Some (Dir r entries) →
  NoDup entries.*1 → valid_name name → (name, child) ∈ entries →
  stat fs (filepath_Join [path; name]) = Some child.
Proof.
  intros Hdir Hnd Hname Hin.
  change name with (rel_path [name]) at 1.
  rewrite (stat_filepath_Join _ _ _ [name] Hdir) by (done || by constructor).
  cbn. by rewrite (find_entry_elem_of _ _ child).
Qed.

Lemma recursiveGetDirs_loop_tree recurse path entries dirs :
  Forall (λ e, valid_name e.1 ∧ wf_node e.2 ∧
            (is_dir e.2 →
             recurse (filepath_Join [path; e.1]) = Some (rel_path <$> subdir_keys e.2, None)))
         entries →
  recursiveGetDirs_loop recurse path (to_DirEntry <$> entries) dirs =
    Some (dirs ++ (rel_path <$> subdir_keys (Dir true entries)), None).
Proof.
  intros Hall. revert dirs.
  induction Hall as [|[name child] entries (Hname & Hwf & Hrec) _ IH]; intros dirs.
  - cbn. by rewrite app_nil_r.
  - cbn [fmap list_fmap recursiveGetDirs_loop to_DirEntry Name entry_IsDir fst snd].
    cbn [subdir_keys flat_map fst snd] in *.
    destruct (is_dir child) eqn:Hdir; cbn [negb]; [|apply IH].
    rewrite Hrec by done. rewrite IH.
    do 2 f_equal. rewrite fmap_app, fmap_cons, <-!(assoc_L (++)). cbn. do 3 f_equal.
    rewrite <-!list_fmap_compose. apply Forall_fmap_ext_1, Forall_forall.
    intros key Hkey. cbn.
    destruct (subdir_keys_valid child key Hwf Hkey). by apply filepath_Join_rel_path.
Qed.

Lemma recursiveGetDirs_upto_tree depth fs path t :
  wf_node t → readable_tree t → is_dir t →
  stat fs path = Some t →
  height t ≤ depth →
  recursiveGetDirs_upto depth fs path = Some (rel_path <$> subdir_keys t, None).
Proof.
  revert depth path. induction t as [|r entries IH] using node_ind;
    intros depth path Hwf Hread Hdir Hlook Hdepth; [done|].
  inversion Hread as [|? Hreads]; subst. inversion_clear Hwf as [|? ? Hnd Hnames Hchildren].
  destruct depth as [|depth]; [rewrite height_Dir in Hdepth; lia|].
  cbn [recursiveGetDirs_upto]. rewrite (os_ReadDir_readable _ _ _ Hlook).
  apply recursiveGetDirs_loop_tree. apply Forall_forall. intros [name child] Hin.
  assert (valid_name name) as Hname.
  { apply (proj1 (Forall_forall _ _) Hnames). apply list_elem_of_fmap. by exists (name, child). }
  assert (wf_node child) as Hwfc by apply (proj1 (Forall_forall _ _) Hchildren _ Hin).
  split_and!; [done..|]. intros Hd.
  apply (proj1 (Forall_forall _ _) IH _ Hin); [done| |done| |].
  - apply (proj1 (Forall_forall _ _) Hreads _ Hin).
  - by eapply lookup_child.
  - pose proof (height_child true _ _ _ Hin). cbn [snd]. lia.
Qed.
(** *** The keys of the subdirectories *)

Lemma subdir_keys_Dir r entries :
  subdir_keys (Dir r entries) = flat_map entry_keys entries.
Proof. done. Qed.

Lemma elem_of_flat_map {A B} (f : A → list B) (l : list A) (y : B) :
  y ∈ flat_map f l ↔ ∃ x, x ∈ l ∧ y ∈ f x.
Proof.
  rewrite list_elem_of_In, in_flat_map. split; intros (x & Hx & Hy); exists x.
  - by rewrite !list_elem_of_In.
  - by rewrite <-!list_elem_of_In.
Qed.

Lemma elem_of_entry_keys key e :
  key ∈ entry_keys e ↔
  is_dir e.2 ∧ (key = [e.1] ∨ ∃ key', key = e.1 :: key' ∧ key' ∈ subdir_keys e.2).
Proof.
  unfold entry_keys. destruct (is_dir e.2).
  - rewrite elem_of_cons, list_elem_of_fmap. split; [|intros [_ ?]]; naive_solver.
  - rewrite elem_of_nil. split; [done|]. by intros [? _].
Qed.

Lemma entry_keys_head key entries :
  key ∈ flat_map entry_keys entries → ∃ name key', key = name :: key' ∧ name ∈ entries.*1.
Proof.
  rewrite elem_of_flat_map. intros (e & He & Hkey).
  apply elem_of_entry_keys in Hkey as [_ Hkey].
  assert (e.1 ∈ entries.*1) by (apply list_elem_of_fmap; by exists e).
  destruct Hkey as [->|(key' & -> & _)]; by eexists _, _.
Qed.

Lemma lookup_node_File key data t :
  lookup_node key (File data) = Some t → key = [].
Proof. by destruct key. Qed.

(** [subdir_keys] lists the directories below a node, and only them. *)
Lemma elem_of_subdir_keys t key :
  wf_node t → key ∈ subdir_keys t ↔ key ≠ [] ∧ dir_at t key.
Proof.
  revert key. induction t as [data|r entries IH] using node_ind; intros key Hwf.
  - cbn. rewrite elem_of_nil. split; [done|]. intros [Hne (r & es & Hl)].
    by apply lookup_node_File in Hl.
  - inversion_clear Hwf as [|? ? Hnd Hnames Hchildren].
    rewrite subdir_keys_Dir, elem_of_flat_map. split.
    + intros ([name child] & Hin & Hkey). apply elem_of_entry_keys in Hkey as [Hdir Hkey].
      cbn in Hdir, Hkey. unfold dir_at.
      destruct Hkey as [->|(key' & -> & Hkey')]; (split; [done|]); cbn;
        rewrite (find_entry_elem_of _ _ child) by done; cbn.
      * destruct child; [done|]. by eexists _, _.
      * apply (proj1 (Forall_forall _ _) IH _ Hin) in Hkey' as [_ ?]; [done|].
        apply (proj1 (Forall_forall _ _) Hchildren _ Hin).
    + intros [Hne (r' & es & Hl)]. destruct key as [|name key']; [done|]. cbn in Hl.
      destruct (find_entry name entries) as [child|] eqn:Hfind; [|done]. cbn in Hl.
      apply find_entry_Some in Hfind. exists (name, child). split; [done|].
      apply elem_of_entry_keys. cbn.
      destruct key' as [|name' key''].
      * injection Hl as ->. by split; [|left].
      * assert (is_dir child) as Hdir by by destruct child.
        split; [done|]. right. eexists. split; [done|].
        apply (proj1 (Forall_forall _ _) IH _ Hfind).
        -- apply (proj1 (Forall_forall _ _) Hchildren _ Hfind).
        -- split; [done|]. by exists r', es.
Qed.

Lemma subdir_keys_nonempty t : [] ∉ subdir_keys t.
Proof.
  destruct t as [|r entries]; [by intros ?%elem_of_nil|].
  rewrite subdir_keys_Dir. by intros (? & ? & [=] & _)%entry_keys_head.
Qed.

Lemma NoDup_entry_keys e : NoDup (subdir_keys e.2) → NoDup (entry_keys e).
Proof.
  intros Hnd. unfold entry_keys. destruct (is_dir e.2); [|constructor].
  constructor.
  - intros (key' & [= <-] & Hk)%list_elem_of_fmap. by apply subdir_keys_nonempty in Hk.
  - apply NoDup_fmap_2; [|done]. by intros ? ? [=].
Qed.

Lemma NoDup_subdir_keys t : wf_node t → NoDup (subdir_keys t).
Proof.
  induction t as [data|r entries IH] using node_ind; intros Hwf; [constructor|].
  inversion_clear Hwf as [|? ? Hnd Hnames Hchildren]. rewrite subdir_keys_Dir.
  clear Hnames. induction entries as [|[name child] entries IHe]; [constructor|].
  apply Forall_cons in IH as [IHc IH]. apply Forall_cons in Hchildren as [Hc Hchildren].
  cbn in Hnd. apply NoDup_cons in Hnd as [Hname Hnd].
  cbn [flat_map]. apply NoDup_app. split_and!.
  - apply NoDup_entry_keys. auto.
  - intros key [_ Hkey]%elem_of_entry_keys (name' & key' & -> & Hin)%entry_keys_head.
    cbn in Hkey. by destruct Hkey as [[= <-]|(? & [= <- _] & _)].
  - by apply IHe.
Qed.

Lemma entry_keys_dir name child :
  is_dir child → entry_keys (name, child) = [name] :: map (cons name) (subdir_keys child).
Proof. unfold entry_keys. cbn. by destruct (is_dir child). Qed.

(** The keys that start with [name] come from the entry [name]. *)
Lemma elem_of_keys_entry entries1 name child entries2 key' :
  NoDup (entries1 ++ (name, child) :: entries2).*1 →
  name :: key' ∈ flat_map entry_keys (entries1 ++ (name, child) :: entries2) →
  name :: key' ∈ entry_keys (name, child).
Proof.
  rewrite fmap_app, fmap_cons. cbn [fst].
  intros (_ & Hdisj & [Hnot _]%NoDup_cons)%NoDup_app.
  rewrite flat_map_app. cbn [flat_map].
  intros [Hin|[Hin|Hin]%elem_of_app]%elem_of_app; [|done|].
  - apply entry_keys_head in Hin as (? & ? & [= <- _] & Hin).
    destruct (Hdisj _ Hin). left.
  - by apply entry_keys_head in Hin as (? & ? & [= <- _] & Hin).
Qed.

(** Depth first: the directories below a directory follow it directly,
    with nothing else in between. *)
Lemma subdir_keys_contiguous t key :
  wf_node t → key ∈ subdir_keys t →
  ∃ before below after,
    subdir_keys t = before ++ key :: below ++ after ∧
    ∀ key', key' ∈ below ↔ key' ∈ subdir_keys t ∧ key `prefix_of` key' ∧ key ≠ key'.
Proof.
  revert key. induction t as [data|r entries IH] using node_ind; intros key Hwf;
    [by intros ?%elem_of_nil|].
  inversion Hwf as [|? ? Hnd Hnames Hchildren]; subst.
  rewrite subdir_keys_Dir. intros ([name child] & Hin & Hkey)%elem_of_flat_map.
  apply list_elem_of_split in Hin as (entries1 & entries2 & ->).
  pose proof (λ k, elem_of_keys_entry entries1 name child entries2 k Hnd) as Hhere.
  apply Forall_app in IH as [_ [IHc _]%Forall_cons].
  apply Forall_app in Hchildren as [_ [Hwfc _]%Forall_cons]. cbn [snd] in IHc, Hwfc.
  rewrite flat_map_app. cbn [flat_map].
  pose proof Hkey as Hkey0.
  apply elem_of_entry_keys in Hkey as [Hdir Hkey]. cbn [fst snd] in Hdir, Hkey.
  rewrite (entry_keys_dir _ _ Hdir).
  destruct Hkey as [->|(key2 & -> & Hkey2)].
  - exists (flat_map entry_keys entries1), (map (cons name) (subdir_keys child)),
      (flat_map entry_keys entries2).
    split; [done|]. intros key'. split.
    + intros (key'' & -> & Hk)%list_elem_of_fmap. split_and!.
      * apply elem_of_app. right. apply elem_of_app. left. right.
        apply list_elem_of_fmap. by exists key''.
      * by exists key''.
      * intros [= <-]. by apply subdir_keys_valid in Hk as [? _].
    + intros (Hk & [key'' ->] & Hne). cbn in Hk, Hne |- *.
      assert (name :: key'' ∈ flat_map entry_keys (entries1 ++ (name, child) :: entries2)) as Hk'.
      { rewrite flat_map_app. cbn [flat_map]. rewrite (entry_keys_dir _ _ Hdir). exact Hk. }
      apply Hhere, elem_of_entry_keys in Hk' as [_ [[= ->]|(? & [= <-] & ?)]]; [done..|].
      apply list_elem_of_fmap. by eexists.
  - destruct (IHc key2 Hwfc Hkey2) as (before2 & below2 & after2 & Hsplit & Hbelow).
    exists (flat_map entry_keys entries1 ++ [name] :: map (cons name) before2),
      (map (cons name) below2),
      (map (cons name) after2 ++ flat_map entry_keys entries2).
    split.
    { rewrite Hsplit, !map_app, map_cons, !map_app.
      rewrite <-!(assoc_L (++)). cbn. do 2 f_equal.
      by rewrite <-!(assoc_L (++)), <-app_comm_cons, <-(assoc_L (++)). }
    intros key'. split.
    + intros (key'' & -> & Hk)%list_elem_of_fmap.
      apply Hbelow in Hk as (Hk & Hpre & Hne). split_and!.
      * apply elem_of_app. right. apply elem_of_app. left. right.
        apply list_elem_of_fmap. by exists key''.
      * by apply prefix_cons.
      * by intros [= ->].
    + intros (Hk & [key3 ->] & Hne). rewrite <-app_comm_cons in Hk, Hne |- *.
      assert (name :: key2 ++ key3 ∈
                flat_map entry_keys (entries1 ++ (name, child) :: entries2)) as Hk'.
      { rewrite flat_map_app. cbn [flat_map]. rewrite (entry_keys_dir _ _ Hdir). exact Hk. }
      apply Hhere, elem_of_entry_keys in Hk' as [_ [[= Hnil]|(? & [= <-] & Hk')]].
      { apply app_eq_nil in Hnil as [-> _]. by apply subdir_keys_valid in Hkey2 as [? _]. }
      apply list_elem_of_fmap. eexists. split; [done|]. apply Hbelow.
      split_and!; [done|by exists key3|]. intros Heq. apply Hne. by rewrite <-Heq.
Qed.
(** *** The bound on the recursion *)

Lemma recursiveGetDirs_loop_Some recurse path entries dirs :
  Forall (λ e, is_dir e.2 → is_Some (recurse (filepath_Join [path; e.1]))) entries →
  is_Some (recursiveGetDirs_loop recurse path (to_DirEntry <$> entries) dirs).
Proof.
  intros Hall. revert dirs. induction Hall as [|[name child] entries Hrec _ IH]; intros dirs.
  - by eexists.
  - cbn [fmap list_fmap recursiveGetDirs_loop to_DirEntry Name entry_IsDir fst snd] in *.
    destruct (is_dir child); cbn [negb]; [|apply IH].
    destruct Hrec as [[subdirs [e|]] ->]; [done|by eexists|apply IH].
Qed.

(** On a well-formed tree the recursion of [recursiveGetDirs] ends
    within the height of the tree. *)
Lemma recursiveGetDirs_upto_enough depth fs path :
  wf_node fs →
  (∀ t, stat fs path = Some t → height t < depth) →
  0 < depth →
  is_Some (recursiveGetDirs_upto depth fs path).
Proof.
  intros Hwf. revert path. induction depth as [|depth IH]; intros path Hheight Hpos; [lia|].
  cbn [recursiveGetDirs_upto]. unfold os_ReadDir.
  destruct (stat fs path) as [[data|[] entries]|] eqn:Hlook;
    try by eexists.
  apply recursiveGetDirs_loop_Some, Forall_forall. intros [name child] Hin Hdir.
  pose proof (wf_lookup _ _ _ Hwf (proj2 (stat_Some _ _ _ Hlook))) as Hwft.
  inversion_clear Hwft as [|? ? Hnd Hnames _].
  assert (valid_name name) as Hname.
  { apply (proj1 (Forall_forall _ _) Hnames). apply list_elem_of_fmap. by exists (name, child). }
  pose proof (height_child true _ _ _ Hin) as Hc.
  specialize (Hheight _ eq_refl). cbn [fst snd] in *.
  apply IH.
  - intros t. rewrite (lookup_child _ _ _ _ _ _ Hlook Hnd Hname Hin). intros [= <-]. lia.
  - destruct child; [done|]. rewrite height_Dir in Hc. lia.
Qed.

Lemma recursiveGetDirs_total fs path :
  wf_node fs → recursiveGetDirs_upto (S (height fs)) fs path = Some (recursiveGetDirs fs path).
Proof.
  intros Hwf. unfold recursiveGetDirs.
  destruct (recursiveGetDirs_upto_enough (S (height fs)) fs path) as [res ->]; [done| |lia|done].
  intros t [_ Ht%height_lookup]%stat_Some. lia.
Qed.

Lemma recursiveGetFiles_loop_Some recurse path entries files :
  Forall (λ e, is_dir e.2 → is_Some (recurse (filepath_Join [path; e.1]))) entries →
  is_Some (recursiveGetFiles_loop recurse path (to_DirEntry <$> entries) files).
Proof.
  intros Hall. revert files. induction Hall as [|[name child] entries Hrec _ IH]; intros files.
  - by eexists.
  - cbn [fmap list_fmap recursiveGetFiles_loop to_DirEntry Name entry_IsDir fst snd] in *.
    destruct (is_dir child); cbn [negb]; [|apply IH].
    destruct Hrec as [[subfiles [e|]] ->]; [done|by eexists|apply IH].
Qed.

Lemma recursiveGetFiles_upto_enough depth fs path :
  wf_node fs →
  (∀ t, stat fs path = Some t → height t < depth) →
  0 < depth →
  is_Some (recursiveGetFiles_upto depth fs path).
Proof.
  intros Hwf. revert path. induction depth as [|depth IH]; intros path Hheight Hpos; [lia|].
  cbn [recursiveGetFiles_upto]. unfold os_ReadDir.
  destruct (stat fs path) as [[data|[] entries]|] eqn:Hlook;
    try by eexists.
  apply recursiveGetFiles_loop_Some, Forall_forall. intros [name child] Hin Hdir.
  pose proof (wf_lookup _ _ _ Hwf (proj2 (stat_Some _ _ _ Hlook))) as Hwft.
  inversion_clear Hwft as [|? ? Hnd Hnames _].
  assert (valid_name name) as Hname.
  { apply (proj1 (Forall_forall _ _) Hnames). apply list_elem_of_fmap. by exists (name, child). }
  pose proof (height_child true _ _ _ Hin) as Hc.
  specialize (Hheight _ eq_refl). cbn [fst snd] in *.
  apply IH.
  - intros t. rewrite (lookup_child _ _ _ _ _ _ Hlook Hnd Hname Hin). intros [= <-]. lia.
  - destruct child; [done|]. rewrite height_Dir in Hc. lia.
Qed.

Lemma recursiveGetFiles_total fs path :
  wf_node fs → recursiveGetFiles_upto (S (height fs)) fs path = Some (recursiveGetFiles fs path).
Proof.
  intros Hwf. unfold recursiveGetFiles.
  destruct (recursiveGetFiles_upto_enough (S (height fs)) fs path) as [res ->]; [done| |lia|done].
  intros t [_ Ht%height_lookup]%stat_Some. lia.
Qed.

(** C9: on a well-formed tree, when [root] names a directory whose
    whole tree can be listed, [recursiveGetDirs] returns, without error,
    the relative path of every directory below [root] and of nothing
    else, each once; a directory comes before the directories it
    contains, which follow it directly (depth first); and each path is
    the names from [root] down, joined by the separator, so that joined
    to [root] it names that directory. *)
Theorem recursiveGetDirs_lists_every_subdirectory fs root t :
  wf_node fs →
  stat fs root = Some t →
  is_dir t →
  readable_tree t →
  ∃ keys,
    recursiveGetDirs fs root = (rel_path <$> keys, None) ∧
    (∀ key, key ∈ keys ↔ key ≠ [] ∧ dir_at t key) ∧
    NoDup (rel_path <$> keys) ∧
    (∀ key name, key ∈ keys → key ++ [name] ∈ keys →
       ∃ i j, keys !! i = Some key ∧ keys !! j = Some (key ++ [name]) ∧ i < j) ∧
    (∀ key, key ∈ keys →
       ∃ before below after,
         keys = before ++ key :: below ++ after ∧
         ∀ key', key' ∈ below ↔ key' ∈ keys ∧ key `prefix_of` key' ∧ key ≠ key') ∧
    (∀ key, key ∈ keys →
       stat fs (filepath_Join [root; rel_path key]) = lookup_node key t).
Proof.
  intros Hwf Hstat Hdir Hread. destruct (stat_Some _ _ _ Hstat) as [Hroot Hlook].
  pose proof (wf_lookup _ _ _ Hwf Hlook) as Hwft.
  exists (subdir_keys t). split_and!.
  - apply (inj Some). rewrite <-recursiveGetDirs_total by done.
    apply recursiveGetDirs_upto_tree; try done.
    apply height_lookup in Hlook. lia.
  - intros key. by apply elem_of_subdir_keys.
  - apply NoDup_fmap_2_strong; [|by apply NoDup_subdir_keys].
    intros key1 key2 [? ?]%subdir_keys_valid [? ?]%subdir_keys_valid; try done.
    by apply rel_path_inj.
  - intros key name Hkey Hchild.
    destruct (subdir_keys_contiguous t key Hwft Hkey) as (before & below & after & Heq & Hbelow).
    assert (key ++ [name] ∈ below) as Hin.
    { apply Hbelow. split_and!; [done|by exists [name]|].
      intros Heq'. apply (f_equal length) in Heq'. rewrite length_app in Heq'. cbn in Heq'. lia. }
    apply list_elem_of_split in Hin as (below1 & below2 & ->).
    exists (length before), (length before + S (length below1)). rewrite Heq. split_and!.
    + by apply list_lookup_middle.
    + rewrite lookup_app_r by lia.
      replace (length before + S (length below1) - length before) with (S (length below1)) by lia.
      cbn [lookup list_lookup]. rewrite <-(assoc_L (++)). by apply list_lookup_middle.
    + lia.
  - intros key Hkey. by apply subdir_keys_contiguous.
  - intros key Hkey. destruct (subdir_keys_valid t key Hwft Hkey).
    by apply stat_filepath_Join.
Qed.
End tree_facts.

(** ** Mirroring directories *)

Section mirror_facts.
Implicit Types (n t fs child new : node) (entries : list (string * node))
  (key : list string) (name path : string).

Lemma find_alter_entry_eq name f entries :
  find_entry name (alter_entry name f entries) = f <$> find_entry name entries.
Proof.
  induction entries as [|[n c] entries IH]; cbn; [done|].
  case_decide as Hn; cbn; [by rewrite decide_True|by rewrite decide_False].
Qed.

Lemma find_alter_entry_ne name name' f entries :
  name ≠ name' → find_entry name' (alter_entry name f entries) = find_entry name' entries.
Proof.
  intros Hne. induction entries as [|[n c] entries IH]; cbn; [done|].
  case_decide as Hn; cbn.
  - subst n. by rewrite !decide_False.
  - case_decide; [done|apply IH].
Qed.

Lemma find_insert_sorted_eq name new entries :
  find_entry name entries = None →
  find_entry name (insert_sorted name new entries) = Some new.
Proof.
  induction entries as [|[n c] entries IH]; cbn; [by rewrite decide_True|].
  case_decide as Hn; [done|]. intros Hnone.
  destruct (String.ltb name n); cbn; [by rewrite decide_True|].
  rewrite decide_False by done. auto.
Qed.

Lemma find_insert_sorted_ne name name' new entries :
  name ≠ name' →
  find_entry name' (insert_sorted name new entries) = find_entry name' entries.
Proof.
  intros Hne. induction entries as [|[n c] entries IH]; cbn; [by rewrite decide_False|].
  destruct (String.ltb name n); cbn; [by rewrite decide_False|].
  by rewrite IH.
Qed.

Lemma find_set_entry_eq name new entries :
  find_entry name (set_entry name new entries) = Some new.
Proof.
  unfold set_entry. destruct (find_entry name entries) as [c|] eqn:Hfind.
  - by rewrite find_alter_entry_eq, Hfind.
  - by apply find_insert_sorted_eq.
Qed.

Lemma find_set_entry_ne name name' new entries :
  name ≠ name' → find_entry name' (set_entry name new entries) = find_entry name' entries.
Proof.
  intros Hne. unfold set_entry. destruct (find_entry name entries).
  - by apply find_alter_entry_ne.
  - by apply find_insert_sorted_ne.
Qed.

(** Creating a node where nothing was keeps everything that existed,
    and the new node exists. *)
Lemma lookup_put_node_new key new n :
  lookup_node key n = None →
  dir_at n (removelast key) →
  is_Some (lookup_node key (put_node key new n)) ∧
  ∀ key', is_Some (lookup_node key' n) → is_Some (lookup_node key' (put_node key new n)).
Proof.
  unfold dir_at.
  revert n. induction key as [|name rest IH]; intros n Hnone (rp & ep & Hparent); [done|].
  destruct n as [data|r entries]; [by destruct rest|].
  destruct rest as [|name2 rest].
  - cbn in Hnone |- *. rewrite find_set_entry_eq. split; [by eexists|].
    intros [|name' key']; [by eexists|]. cbn.
    destruct (decide (name = name')) as [<-|Hne].
    + destruct (find_entry name entries); [done|]. by intros [? ?].
    + by rewrite find_set_entry_ne.
  - cbn [removelast] in Hparent. cbn [lookup_node] in Hnone, Hparent.
    change (put_node (name :: name2 :: rest) new (Dir r entries))
      with (Dir r (alter_entry name (put_node (name2 :: rest) new) entries)).
    destruct (find_entry name entries) as [child|] eqn:Hfind; [|done].
    cbn in Hnone, Hparent. destruct (IH child Hnone) as [Hnew Hold]; [by eauto|].
    cbn [lookup_node]. rewrite find_alter_entry_eq, Hfind. cbn. split; [done|].
    intros [|name' key']; [by eexists|]. cbn [lookup_node].
    destruct (decide (name = name')) as [<-|Hne].
    + rewrite find_alter_entry_eq, Hfind. cbn. apply Hold.
    + by rewrite find_alter_entry_ne.
Qed.

Lemma os_Mkdir_spec path fs err fs' :
  os_Mkdir path fs = (err, fs') →
  (IsExist err → fs' = fs ∧ exists_at fs path) ∧
  (err = None →
     exists_at fs' path ∧ ∀ path', exists_at fs path' → exists_at fs' path') ∧
  (err ≠ None → fs' = fs).
Proof.
  unfold os_Mkdir, create_at, exists_at.
  destruct (stat fs path) as [t|] eqn:Hstat.
  { intros [= <- <-]. split_and!; by try eexists. }
  case_decide as Hpath; [intros [= <- <-]; by split_and!|].
  rewrite stat_nonempty in Hstat by done.
  destruct (lookup_node (removelast (path_key path)) fs) as [[data|r entries]|] eqn:Hparent;
    intros [= <- <-]; [by split_and!| |by split_and!].
  split_and!; [done| |done]. intros _.
  destruct (lookup_put_node_new (path_key path) (Dir true []) fs Hstat) as [Hnew Hold].
  { by eexists _, _. }
  split; [by rewrite stat_nonempty|]. intros path' [t [? Ht]%stat_Some].
  rewrite stat_nonempty by done. apply Hold. by eexists.
Qed.

Lemma safeMkdir_exists path fs : exists_at fs path → safeMkdir path fs = (None, fs).
Proof.
  unfold safeMkdir, os_Mkdir, exists_at. by intros [t ->].
Qed.

(** After [safeMkdir] returns no error the directory exists, and so does
    everything that existed. *)
Lemma safeMkdir_ok path fs fs' :
  safeMkdir path fs = (None, fs') →
  exists_at fs' path ∧ ∀ path', exists_at fs path' → exists_at fs' path'.
Proof.
  unfold safeMkdir. destruct (os_Mkdir path fs) as [err fs1] eqn:Hmk.
  destruct (os_Mkdir_spec _ _ _ _ Hmk) as (Hexist & Hnew & _).
  destruct (IsExist err) eqn:Hie.
  - intros [= <-]. destruct Hexist as [-> ?]; [done|]. by split.
  - intros [= -> <-]. by apply Hnew.
Qed.

Lemma safeMkdir_each_populated rmt dirs fs :
  Forall (λ dir, exists_at fs (filepath_Join [rmt; dir])) dirs →
  safeMkdir_each rmt dirs fs = (None, fs).
Proof.
  induction 1 as [|dir dirs Hdir _ IH]; [done|].
  cbn [safeMkdir_each]. by rewrite safeMkdir_exists.
Qed.

Lemma safeMkdir_each_ok rmt dirs fs fs' :
  safeMkdir_each rmt dirs fs = (None, fs') →
  Forall (λ dir, exists_at fs' (filepath_Join [rmt; dir])) dirs ∧
  ∀ path', exists_at fs path' → exists_at fs' path'.
Proof.
  revert fs. induction dirs as [|dir dirs IH]; intros fs; cbn [safeMkdir_each].
  - by intros [= <-].
  - destruct (safeMkdir _ fs) as [[e|] fs1] eqn:Hmk; [done|].
    destruct (safeMkdir_ok _ _ _ Hmk) as [Hnew Hold]. intros [Hall Hkeep]%IH.
    split; [|by auto]. constructor; [by auto|done].
Qed.

(** *** Running [recursiveCopyDir] again *)

Lemma lookup_put_node_other key n k :
  lookup_node key n = None →
  dir_at n (removelast key) →
  ¬ k `prefix_of` key →
  lookup_node k (put_node key (Dir true []) n) = lookup_node k n.
Proof.
  unfold dir_at.
  revert n k. induction key as [|name rest IH]; intros n k Hnone (rp & ep & Hparent) Hk;
    [done|].
  destruct n as [data|r entries]; [by destruct rest|].
  destruct k as [|name' k']; [destruct Hk; apply prefix_nil|].
  destruct rest as [|name2 rest].
  - cbn in Hnone |- *. destruct (decide (name = name')) as [<-|Hne].
    + rewrite find_set_entry_eq. destruct (find_entry name entries); [done|]. cbn.
      destruct k' as [|? ?]; [by destruct Hk|done].
    + by rewrite find_set_entry_ne.
  - cbn [removelast] in Hparent. cbn [lookup_node] in Hnone, Hparent.
    change (put_node (name :: name2 :: rest) (Dir true []) (Dir r entries))
      with (Dir r (alter_entry name (put_node (name2 :: rest) (Dir true [])) entries)).
    destruct (find_entry name entries) as [child|] eqn:Hfind; [|done].
    cbn in Hnone, Hparent. cbn [lookup_node].
    destruct (decide (name = name')) as [<-|Hne].
    + rewrite find_alter_entry_eq, Hfind. cbn. apply IH; [done|by eauto|].
      intros Hpre. apply Hk. by apply prefix_cons.
    + by rewrite find_alter_entry_ne.
Qed.

Lemma os_Mkdir_lookup_other path fs k :
  ¬ k `prefix_of` path_key path →
  lookup_node k (os_Mkdir path fs).2 = lookup_node k fs.
Proof.
  intros Hk. unfold os_Mkdir, create_at.
  destruct (stat fs path) as [t|] eqn:Hstat; [done|].
  case_decide as Hpath; [done|]. rewrite stat_nonempty in Hstat by done.
  destruct (lookup_node (removelast (path_key path)) fs) as [[data|r entries]|] eqn:Hparent;
    [done| |done].
  apply lookup_put_node_other; [done|by eexists _, _|done].
Qed.

Lemma safeMkdir_lookup_other path fs k :
  ¬ k `prefix_of` path_key path →
  lookup_node k (safeMkdir path fs).2 = lookup_node k fs.
Proof.
  intros Hk. unfold safeMkdir. pose proof (os_Mkdir_lookup_other path fs k Hk) as H.
  destruct (os_Mkdir path fs) as [err fs']. by destruct (IsExist err).
Qed.

(** *** Creating a directory keeps the tree well formed *)

Lemma find_entry_None name entries : find_entry name entries = None → name ∉ entries.*1.
Proof.
  induction entries as [|[n c] entries IH]; cbn; [by intros _ ?%elem_of_nil|].
  case_decide as Hn; [done|]. intros Hnone [->|Hin]%elem_of_cons; [done|]. by apply IH.
Qed.

Lemma alter_entry_names name f entries : (alter_entry name f entries).*1 = entries.*1.
Proof.
  induction entries as [|[n c] entries IH]; cbn; [done|].
  case_decide; cbn; [done|]. by rewrite IH.
Qed.

Lemma wf_alter_entry r name f entries :
  (∀ child, wf_node child → wf_node (f child)) →
  wf_node (Dir r entries) → wf_node (Dir r (alter_entry name f entries)).
Proof.
  intros Hf Hwf. inversion_clear Hwf as [|? ? Hnd Hnames Hchildren].
  constructor; rewrite ?alter_entry_names; [done..|].
  clear Hnd Hnames. induction Hchildren as [|[n c] entries Hc Hcs IH]; cbn; [done|].
  case_decide; constructor; cbn; auto.
Qed.

Lemma wf_insert_sorted r name new entries :
  name ∉ entries.*1 → valid_name name → wf_node new →
  wf_node (Dir r entries) → wf_node (Dir r (insert_sorted name new entries)).
Proof.
  intros Hfresh Hname Hnew Hwf. inversion_clear Hwf as [|? ? Hnd Hnames Hchildren].
  induction entries as [|[n c] entries IH]; cbn.
  - constructor; cbn; [apply NoDup_singleton|by constructor..].
  - destruct (String.ltb name n).
    + constructor; cbn; by constructor.
    + cbn in Hfresh, Hnd, Hnames. apply not_elem_of_cons in Hfresh as [Hne Hfresh].
      apply NoDup_cons in Hnd as [Hn Hnd]. apply Forall_cons in Hnames as [Hv Hnames].
      apply Forall_cons in Hchildren as [Hc Hchildren].
      specialize (IH Hfresh Hnd Hnames Hchildren).
      inversion_clear IH as [|? ? Hnd' Hnames' Hchildren'].
      constructor; cbn; constructor; try done.
      intros Hin. apply Hn. clear -Hin Hne.
      induction entries as [|[n' c'] entries IH]; cbn in *.
      * apply list_elem_of_singleton in Hin. by subst.
      * destruct (String.ltb name n'); cbn in *.
        -- apply elem_of_cons in Hin as [->|Hin]; [done|done].
        -- apply elem_of_cons in Hin as [->|Hin]; [left|right; auto].
Qed.

Lemma wf_set_entry r name new entries :
  valid_name name → wf_node new →
  wf_node (Dir r entries) → wf_node (Dir r (set_entry name new entries)).
Proof.
  intros Hname Hnew Hwf. unfold set_entry.
  destruct (find_entry name entries) eqn:Hfind.
  - by apply wf_alter_entry.
  - apply wf_insert_sorted; try done. by apply find_entry_None.
Qed.

Lemma wf_put_node key new n :
  Forall valid_name key → wf_node new → wf_node n → wf_node (put_node key new n).
Proof.
  intros Hkey Hnew. revert n. induction Hkey as [|name rest Hname _ IH]; intros n Hwf; [done|].
  destruct n as [data|r entries]; [by destruct rest|].
  destruct rest as [|name2 rest]; [by apply wf_set_entry|].
  change (put_node (name :: name2 :: rest) new (Dir r entries))
    with (Dir r (alter_entry name (put_node (name2 :: rest) new) entries)).
  by apply wf_alter_entry.
Qed.

Lemma wf_os_Mkdir path fs : wf_node fs → wf_node (os_Mkdir path fs).2.
Proof.
  intros Hwf. unfold os_Mkdir, create_at. destruct (stat fs path); [done|].
  case_decide; [done|].
  destruct (lookup_node (removelast _) fs) as [[?|? ?]|]; cbn; try done.
  apply wf_put_node; [apply path_key_valid| |done].
  constructor; by constructor.
Qed.

Lemma wf_safeMkdir path fs : wf_node fs → wf_node (safeMkdir path fs).2.
Proof.
  intros Hwf. unfold safeMkdir. pose proof (wf_os_Mkdir path fs Hwf) as H.
  destruct (os_Mkdir path fs) as [err fs']. by destruct (IsExist err).
Qed.

(** *** What [recursiveGetDirs] returns and what it depends on *)

Lemma recursiveGetDirs_loop_rel_paths recurse path (dentries : list DirEntry) dirs res :
  (∀ p r, recurse p = Some r → rel_paths r.1) →
  Forall (λ e, valid_name (Name e)) dentries →
  rel_paths dirs →
  recursiveGetDirs_loop recurse path dentries dirs = Some res →
  rel_paths res.1.
Proof.
  intros Hrec Hnames. revert dirs.
  induction Hnames as [|entry dentries Hname _ IH]; intros dirs Hdirs; cbn.
  - by intros [= <-].
  - destruct (entry_IsDir entry); cbn; [|by apply IH].
    assert (rel_paths (dirs ++ [Name entry])) as Hdirs'.
    { apply Forall_app. split; [done|]. constructor; [|done].
      exists [Name entry]. split_and!; [done|by constructor|done]. }
    destruct (recurse _) as [[subdirs [e|]]|] eqn:Hsub; [by intros [= <-]| |done].
    apply IH. apply Forall_app. split; [done|].
    apply Hrec in Hsub. cbn in Hsub. apply Forall_fmap.
    eapply Forall_impl; [exact Hsub|]. intros subdir (key & Hne & Hkey & ->). cbn.
    exists (Name entry :: key). split_and!; [done|by constructor|].
    by apply filepath_Join_rel_path.
Qed.

Lemma Forall_valid_entries fs path entries :
  wf_node fs → stat fs path = Some (Dir true entries) →
  Forall (λ e, valid_name (Name e)) (to_DirEntry <$> entries).
Proof.
  intros Hwf [_ Hlook]%stat_Some. pose proof (wf_lookup _ _ _ Hwf Hlook) as Hwft.
  inversion_clear Hwft as [|? ? _ Hnames _].
  apply Forall_fmap, Forall_forall. intros [name child] Hin. cbn.
  apply (proj1 (Forall_forall _ _) Hnames). apply list_elem_of_fmap. by exists (name, child).
Qed.

Lemma recursiveGetDirs_upto_rel_paths depth fs path res :
  wf_node fs → recursiveGetDirs_upto depth fs path = Some res → rel_paths res.1.
Proof.
  intros Hwf. revert path res. induction depth as [|depth IH]; intros path res; [done|].
  cbn [recursiveGetDirs_upto]. unfold os_ReadDir.
  destruct (stat fs path) as [[data|[] entries]|] eqn:Hstat;
    try by (intros [= <-]; constructor).
  apply recursiveGetDirs_loop_rel_paths; [by eauto| |constructor].
  by eapply Forall_valid_entries.
Qed.

Lemma recursiveGetDirs_loop_more recurse1 recurse2 path (dentries : list DirEntry) dirs res :
  (∀ p r, recurse1 p = Some r → recurse2 p = Some r) →
  recursiveGetDirs_loop recurse1 path dentries dirs = Some res →
  recursiveGetDirs_loop recurse2 path dentries dirs = Some res.
Proof.
  intros Hrec. revert dirs. induction dentries as [|entry dentries IH]; intros dirs; cbn; [done|].
  destruct (entry_IsDir entry); cbn; [|by apply IH].
  destruct (recurse1 _) as [[subdirs [e|]]|] eqn:Hsub; [| |done];
    rewrite (Hrec _ _ Hsub); [done|apply IH].
Qed.

(** A larger bound gives the same result. *)
Lemma recursiveGetDirs_upto_more depth depth' fs path res :
  depth ≤ depth' →
  recursiveGetDirs_upto depth fs path = Some res →
  recursiveGetDirs_upto depth' fs path = Some res.
Proof.
  revert depth' path res. induction depth as [|depth IH]; intros depth' path res Hle; [done|].
  destruct depth' as [|depth']; [lia|]. cbn [recursiveGetDirs_upto].
  destruct (os_ReadDir fs path) as [entries [e|]]; [done|].
  apply recursiveGetDirs_loop_more. intros p r. apply IH. lia.
Qed.

Lemma recursiveGetDirs_loop_same recurse1 recurse2 path (dentries : list DirEntry) dirs :
  Forall (λ e, entry_IsDir e →
            recurse1 (filepath_Join [path; Name e]) = recurse2 (filepath_Join [path; Name e]))
         dentries →
  recursiveGetDirs_loop recurse1 path dentries dirs =
  recursiveGetDirs_loop recurse2 path dentries dirs.
Proof.
  intros Hall. revert dirs. induction Hall as [|entry dentries Hrec _ IH]; intros dirs;
    cbn [recursiveGetDirs_loop]; [done|].
  destruct (entry_IsDir entry); cbn [negb]; [|by apply IH].
  rewrite Hrec by done. destruct (recurse2 _) as [[subdirs [e|]]|]; [done|apply IH|done].
Qed.

(** The listing of [path] depends on the tree at [path] only. *)
Lemma recursiveGetDirs_upto_same depth fs1 fs2 path :
  wf_node fs1 → stat fs1 path = stat fs2 path →
  recursiveGetDirs_upto depth fs1 path = recursiveGetDirs_upto depth fs2 path.
Proof.
  intros Hwf. revert path. induction depth as [|depth IH]; intros path Hstat; [done|].
  cbn [recursiveGetDirs_upto]. unfold os_ReadDir. rewrite <-Hstat.
  destruct (stat fs1 path) as [[data|[] entries]|] eqn:Hstat1; try done.
  apply recursiveGetDirs_loop_same, Forall_fmap, Forall_forall.
  intros [name child] Hin _. cbn [Name to_DirEntry fst]. apply IH.
  destruct (stat_Some _ _ _ Hstat1) as [_ Hlook].
  pose proof (wf_lookup _ _ _ Hwf Hlook) as Hwft.
  inversion_clear Hwft as [|? ? Hnd Hnames _].
  assert (valid_name name) as Hname.
  { apply (proj1 (Forall_forall _ _) Hnames). apply list_elem_of_fmap. by exists (name, child). }
  rewrite (lookup_child _ _ _ _ _ _ Hstat1 Hnd Hname Hin).
  symmetry in Hstat. by rewrite (lookup_child _ _ _ _ _ _ Hstat Hnd Hname Hin).
Qed.

Lemma recursiveGetDirs_same fs1 fs2 path :
  wf_node fs1 → wf_node fs2 → stat fs1 path = stat fs2 path →
  recursiveGetDirs fs1 path = recursiveGetDirs fs2 path.
Proof.
  intros Hwf1 Hwf2 Hstat.
  pose proof (recursiveGetDirs_total fs1 path Hwf1) as H1.
  pose proof (recursiveGetDirs_total fs2 path Hwf2) as H2.
  apply (recursiveGetDirs_upto_more _ (S (height fs1 `max` height fs2))) in H1; [|lia].
  apply (recursiveGetDirs_upto_more _ (S (height fs1 `max` height fs2))) in H2; [|lia].
  rewrite (recursiveGetDirs_upto_same _ fs1 fs2) in H1 by done.
  rewrite H1 in H2. by injection H2.
Qed.

Lemma apart_below src rmt key :
  apart src rmt → ¬ path_key src `prefix_of` path_key rmt ++ key.
Proof.
  intros [H1 H2] Hpre.
  destruct (prefix_weak_total (path_key src) (path_key rmt) (path_key rmt ++ key));
    [done|by apply prefix_app_r|done..].
Qed.

Lemma safeMkdir_each_keeps src rmt dirs fs :
  apart src rmt → rel_paths dirs → wf_node fs →
  wf_node (safeMkdir_each rmt dirs fs).2 ∧
  stat (safeMkdir_each rmt dirs fs).2 src = stat fs src.
Proof.
  intros Hapart Hdirs. revert fs.
  induction Hdirs as [|dir dirs (key & Hne & Hkey & ->) _ IH]; intros fs Hwf; [done|].
  cbn [safeMkdir_each].
  pose proof (wf_safeMkdir (filepath_Join [rmt; rel_path key]) fs Hwf) as Hwf1.
  pose proof (safeMkdir_lookup_other (filepath_Join [rmt; rel_path key]) fs (path_key src))
    as Hsrc.
  rewrite path_key_filepath_Join in Hsrc by done.
  specialize (Hsrc (apart_below _ _ _ Hapart)).
  destruct (safeMkdir _ fs) as [[e|] fs1]; cbn in *.
  - split; [done|]. unfold stat. by rewrite Hsrc.
  - destruct (IH fs1 Hwf1) as [Hwf2 Hstat]. split; [done|].
    rewrite Hstat. unfold stat. by rewrite Hsrc.
Qed.

(** C8: [safeMkdir] on a path that exists returns no error and leaves the
    file system as it is; [recursiveCopyDir] on a destination where the
    root and every directory to mirror exist returns no error and leaves
    the file system as it is; after a run of [recursiveCopyDir] without
    error the destination is in that state: its root and every directory
    the run listed exist; and, on a well-formed tree where neither of
    source and destination is inside the other, running
    [recursiveCopyDir] again after a run without error returns no error
    and changes nothing. *)
Theorem recursiveCopyDir_idempotent src rmt fs :
  (∀ path, exists_at fs path → safeMkdir path fs = (None, fs)) ∧
  (∀ dirs,
     exists_at fs rmt →
     recursiveGetDirs fs src = (dirs, None) →
     Forall (λ dir, exists_at fs (filepath_Join [rmt; dir])) dirs →
     recursiveCopyDir src rmt fs = (None, fs)) ∧
  (∀ fs',
     recursiveCopyDir src rmt fs = (None, fs') →
     exists_at fs' rmt ∧
     ∃ fs1 dirs,
       safeMkdir rmt fs = (None, fs1) ∧
       recursiveGetDirs fs1 src = (dirs, None) ∧
       Forall (λ dir, exists_at fs' (filepath_Join [rmt; dir])) dirs) ∧
  (∀ fs',
     wf_node fs → apart src rmt →
     recursiveCopyDir src rmt fs = (None, fs') →
     recursiveCopyDir src rmt fs' = (None, fs')).
Proof.
  assert (∀ fs0 dirs,
     exists_at fs0 rmt →
     recursiveGetDirs fs0 src = (dirs, None) →
     Forall (λ dir, exists_at fs0 (filepath_Join [rmt; dir])) dirs →
     recursiveCopyDir src rmt fs0 = (None, fs0)) as Hpopulated.
  { intros fs0 dirs Hrmt Hdirs Hall. unfold recursiveCopyDir.
    rewrite safeMkdir_exists, Hdirs by done. by apply safeMkdir_each_populated. }
  split_and!.
  - intros path. apply safeMkdir_exists.
  - apply Hpopulated.
  - intros fs'. unfold recursiveCopyDir.
    destruct (safeMkdir rmt fs) as [[e|] fs1] eqn:Hmk; [done|].
    destruct (recursiveGetDirs fs1 src) as [dirs [e|]] eqn:Hdirs; [done|].
    intros [Hall Hkeep]%safeMkdir_each_ok.
    destruct (safeMkdir_ok _ _ _ Hmk) as [Hrmt _].
    split; [by auto|]. by exists fs1, dirs.
  - intros fs' Hwf Hapart. unfold recursiveCopyDir.
    pose proof (wf_safeMkdir rmt fs Hwf) as Hwf1.
    destruct (safeMkdir rmt fs) as [[e|] fs1] eqn:Hmk; [done|]. cbn in Hwf1.
    destruct (recursiveGetDirs fs1 src) as [dirs [e|]] eqn:Hdirs; [done|].
    intros Heach. fold (recursiveCopyDir src rmt fs').
    assert (rel_paths dirs) as Hrel.
    { pose proof (recursiveGetDirs_total fs1 src Hwf1) as Htotal.
      apply recursiveGetDirs_upto_rel_paths in Htotal; [|done]. by rewrite Hdirs in Htotal. }
    destruct (safeMkdir_each_keeps src rmt dirs fs1 Hapart Hrel Hwf1) as [Hwf' Hstat].
    rewrite Heach in Hwf', Hstat. cbn in Hwf', Hstat.
    destruct (safeMkdir_each_ok _ _ _ _ Heach) as [Hall Hkeep].
    destruct (safeMkdir_ok _ _ _ Hmk) as [Hrmt _].
    apply (Hpopulated fs' dirs); [by auto| |done].
    by rewrite (recursiveGetDirs_same fs' fs1).
Qed.

End mirror_facts.

(** ** The loops of [Run] *)

Section loop_facts.
Variable step : TemplateFile → World → result TemplateFile * World.
Variable ev : TemplateFile → event.
Hypothesis step_logs : logs step ev.

Lemma completed_le tfs w : completed step tfs w ≤ length tfs.
Proof.
  revert w. induction tfs as [|tf tfs IH]; intros w; cbn; [done|].
  destruct (step tf w) as [[tf'|e|p] w1]; [|lia..]. specialize (IH w1). lia.
Qed.

Lemma for_each_completed tfs w :
  events (for_each step tfs w).2 = events w ++ (ev <$> take (completed step tfs w) tfs) ∧
  match (for_each step tfs w).1 with
  | Ok tfs' => completed step tfs w = length tfs ∧ same_paths tfs tfs'
  | _ => completed step tfs w < length tfs
  end ∧
  (completed step tfs w = 0 → (for_each step tfs w).2 = w).
Proof.
  revert w. induction tfs as [|tf tfs IH]; intros w; cbn.
  - rewrite app_nil_r. split; [done|]. split; [|done]. split; [done|constructor].
  - pose proof (step_logs tf w) as Hstep.
    destruct (step tf w) as [[tf'|e|p] w1]; cbn; subst;
      [|rewrite app_nil_r; (split; [done|]); (split; [lia|done])..].
    destruct Hstep as (Hev & Hin & Hout). destruct (IH w1) as (IHev & IHres & _).
    destruct (for_each step tfs w1) as [[tfs'|e|p] w2]; cbn in *;
      rewrite IHev, Hev, <-(assoc_L (++)); (split; [done|]); (split; [|lia]); [|lia..].
    destruct IHres as [-> ?]. split; [done|]. by constructor.
Qed.

(** The loop stops at the first template file whose step fails. *)
Lemma for_each_first_failure before tf after w e :
  (∀ tf w w', (step tf w).1 = (step tf w').1) →
  Forall (λ tf', is_Ok (step tf' w).1) before →
  (step tf w).1 = Err e →
  (for_each step (before ++ tf :: after) w).1 = Err e ∧
  completed step (before ++ tf :: after) w = length before.
Proof.
  intros Hpure Hbefore Htf. revert w Hbefore Htf.
  induction before as [|tf0 before IH]; intros w Hbefore Htf; cbn.
  - destruct (step tf w) as [[tf'|e'|p] w1]; cbn in Htf; by simplify_eq.
  - apply Forall_cons in Hbefore as [Hok Hbefore].
    destruct (step tf0 w) as [[tf0'|e'|p] w1] eqn:Hstep; cbn in Hok; [|done..].
    destruct (IH w1) as [Hres Hk].
    + eapply Forall_impl; [exact Hbefore|]. intros tf' Htf'. cbn in Htf'.
      by rewrite (Hpure tf' w1 w).
    + by rewrite (Hpure tf w1 w).
    + rewrite Hk. split; [|done].
      destruct (for_each step (before ++ tf :: after) w1) as [[?|?|?] ?]; cbn in *;
        by simplify_eq.
Qed.
End loop_facts.

(** ** [Run] *)

Section run_facts.
Variable template_Template : Type.
Variable template_Parse : string → string → result template_Template.
Variable template_Execute : template_Template → TemplateContext → result string.

Local Abbreviation Template' := (Template template_Template template_Parse template_Execute).
Local Abbreviation Run' := (Run template_Template template_Parse template_Execute).
Local Abbreviation Run_phases' :=
  (Run_phases template_Template template_Parse template_Execute).

Lemma set_fs_same w : set_fs (fs w) w = w.
Proof. by destruct w. Qed.

Lemma LoadInput_logs : logs LoadInput (λ tf, Loaded (InputPath tf)).
Proof. intros tf w. unfold LoadInput. by destruct (os_ReadFile _ _). Qed.

Lemma Template_logs : logs Template' (λ tf, Rendered (InputPath tf)).
Proof.
  intros tf w. unfold Template. destruct (template_Parse _ _); [|done..].
  by destruct (template_Execute _ _).
Qed.

Lemma os_WriteFile_error name data fs e fs' :
  os_WriteFile name data fs = (Some e, fs') → fs' = fs.
Proof.
  unfold os_WriteFile, create_at.
  destruct (stat fs name) as [[?|? ?]|]; try by intros [= <-].
  case_decide; [by intros [= <-]|].
  destruct (lookup_node (removelast _) fs) as [[?|? ?]|]; by intros [= <-].
Qed.

Lemma SaveOutput_logs : logs SaveOutput (λ tf, Saved (OutputPath tf)).
Proof.
  intros tf w. unfold SaveOutput.
  destruct (os_WriteFile _ _ _) as [[e|] fs'] eqn:Hw; [|done].
  apply os_WriteFile_error in Hw as ->. apply set_fs_same.
Qed.

Lemma for_each_keeps_fs step tfs w :
  (∀ tf w, fs (step tf w).2 = fs w) → fs (for_each step tfs w).2 = fs w.
Proof.
  intros Hstep. revert w. induction tfs as [|tf tfs IH]; intros w; cbn; [done|].
  specialize (Hstep tf w). destruct (step tf w) as [[tf'|e|p] w1]; [|done..].
  specialize (IH w1). cbn in Hstep. rewrite <-Hstep, <-IH.
  by destruct (for_each step tfs w1) as [[?|?|?] ?].
Qed.

Lemma LoadInput_keeps_fs tf w : fs (LoadInput tf w).2 = fs w.
Proof. unfold LoadInput. by destruct (os_ReadFile _ _). Qed.

Lemma Template_keeps_fs tf w : fs (Template' tf w).2 = fs w.
Proof.
  unfold Template. destruct (template_Parse _ _); [|done..].
  by destruct (template_Execute _ _).
Qed.

(** Whether a template file renders does not depend on the state. *)
Lemma Template_result tf w w' : (Template' tf w).1 = (Template' tf w').1.
Proof.
  unfold Template. destruct (template_Parse _ _); [|done..].
  by destruct (template_Execute _ _).
Qed.

Lemma same_paths_InputPath tfs1 tfs2 k (f : string → event) :
  same_paths tfs1 tfs2 →
  (λ tf, f (InputPath tf)) <$> take k tfs2 = (λ tf, f (InputPath tf)) <$> take k tfs1.
Proof.
  intros H. revert k. induction H as [|tf1 tf2 tfs1 tfs2 [Hin _] _ IH]; intros [|k]; cbn;
    try done. by rewrite Hin, IH.
Qed.

Lemma same_paths_OutputPath tfs1 tfs2 k (f : string → event) :
  same_paths tfs1 tfs2 →
  (λ tf, f (OutputPath tf)) <$> take k tfs2 = (λ tf, f (OutputPath tf)) <$> take k tfs1.
Proof.
  intros H. revert k. induction H as [|tf1 tf2 tfs1 tfs2 [_ Hout] _ IH]; intros [|k]; cbn;
    try done. by rewrite Hout, IH.
Qed.

Lemma same_paths_length tfs1 tfs2 : same_paths tfs1 tfs2 → length tfs1 = length tfs2.
Proof. apply Forall2_length. Qed.

Lemma same_paths_trans tfs1 tfs2 tfs3 :
  same_paths tfs1 tfs2 → same_paths tfs2 tfs3 → same_paths tfs1 tfs3.
Proof.
  apply Forall2_trans. intros ? ? ? [? ?] [? ?]. split; congruence.
Qed.

(** The three loops, one after the other. *)
Lemma Run_phases_spec tfs w0 :
  ∃ a b c r w',
    Run_phases' tfs w0 = (r, w') ∧
    events w' = events w0 ++
      ((λ tf, Loaded (InputPath tf)) <$> take a tfs) ++
      ((λ tf, Rendered (InputPath tf)) <$> take b tfs) ++
      ((λ tf, Saved (OutputPath tf)) <$> take c tfs) ∧
    a ≤ length tfs ∧ b ≤ length tfs ∧ c ≤ length tfs ∧
    (a < length tfs → b = 0) ∧
    (b < length tfs → c = 0) ∧
    (r = Ok () ↔ a = length tfs ∧ b = length tfs ∧ c = length tfs) ∧
    (c = 0 → fs w' = fs w0) ∧
    (∀ loaded w1 before tf after e,
       for_each LoadInput tfs w0 = (Ok loaded, w1) →
       loaded = before ++ tf :: after →
       Forall (λ tf', is_Ok (Template' tf' w1).1) before →
       (Template' tf w1).1 = Err e →
       r = Err e ∧ b = length before ∧ c = 0 ∧ fs w' = fs w0).
Proof.
  unfold Run_phases.
  destruct (for_each_completed _ _ LoadInput_logs tfs w0) as (Hev1 & Hres1 & _).
  pose proof (completed_le LoadInput tfs w0) as Hle1.
  pose proof (for_each_keeps_fs LoadInput tfs w0 LoadInput_keeps_fs) as Hfs1.
  destruct (for_each LoadInput tfs w0) as [[loaded|e1|p1] w1] eqn:Hload; cbn in *;
    [|exists (completed LoadInput tfs w0), 0, 0; eexists _, _;
      rewrite take_0, !app_nil_r;
      split_and!; try done; try lia; split; [done|lia]..].
  destruct Hres1 as [Ha Hsame1]. rewrite Ha, firstn_all in Hev1.
  destruct (for_each_completed _ _ Template_logs loaded w1) as (Hev2 & Hres2 & _).
  pose proof (completed_le Template' loaded w1) as Hle2.
  pose proof (for_each_keeps_fs Template' loaded w1 Template_keeps_fs) as Hfs2.
  rewrite (same_paths_InputPath tfs loaded _ Rendered Hsame1) in Hev2.
  rewrite <-(same_paths_length _ _ Hsame1) in Hle2, Hres2.
  assert (∀ b r w',
    events w' = events w1 ++ ((λ tf, Rendered (InputPath tf)) <$> take b tfs) →
    b < length tfs → r ≠ Ok () → fs w' = fs w0 →
    (∀ before tf after e, loaded = before ++ tf :: after →
       Forall (λ tf', is_Ok (Template' tf' w1).1) before →
       (Template' tf w1).1 = Err e → r = Err e ∧ b = length before) →
    ∃ a b c r0 w'0,
      (r, w') = (r0, w'0) ∧
      events w'0 = events w0 ++
        ((λ tf, Loaded (InputPath tf)) <$> take a tfs) ++
        ((λ tf, Rendered (InputPath tf)) <$> take b tfs) ++
        ((λ tf, Saved (OutputPath tf)) <$> take c tfs) ∧
      a ≤ length tfs ∧ b ≤ length tfs ∧ c ≤ length tfs ∧
      (a < length tfs → b = 0) ∧ (b < length tfs → c = 0) ∧
      (r0 = Ok () ↔ a = length tfs ∧ b = length tfs ∧ c = length tfs) ∧
      (c = 0 → fs w'0 = fs w0) ∧
      (∀ loaded0 w2 before tf after e,
         (Ok loaded, w1) = (Ok loaded0, w2) → loaded0 = before ++ tf :: after →
         Forall (λ tf', is_Ok (Template' tf' w2).1) before →
         (Template' tf w2).1 = Err e →
         r0 = Err e ∧ b = length before ∧ c = 0 ∧ fs w'0 = fs w0)) as Hfail.
  { intros b r w' Hev Hb Hr Hfs Hfirst. exists (length tfs), b, 0, r, w'.
    rewrite firstn_all, take_0, app_nil_r, Hev, Hev1, <-(assoc_L (++)).
    split_and!; try done; try lia.
    - split; [done|lia].
    - intros ? ? before tf after e [= <- <-] Hl Hbefore Htf.
      destruct (Hfirst _ _ _ _ Hl Hbefore Htf) as [-> ->]. done. }
  assert (∀ before tf after e, loaded = before ++ tf :: after →
       Forall (λ tf', is_Ok (Template' tf' w1).1) before →
       (Template' tf w1).1 = Err e →
       (for_each Template' loaded w1).1 = Err e ∧
       completed Template' loaded w1 = length before) as Hfirst.
  { intros before tf after e -> Hbefore Htf.
    by apply for_each_first_failure; [apply Template_result|..]. }
  destruct (for_each Template' loaded w1) as [[rendered|e2|p2] w2] eqn:Hrender; cbn in *;
    [|apply (Hfail (completed Template' loaded w1)); try done; try congruence;
      intros before tf after e Hl Hbefore Htf;
      destruct (Hfirst _ _ _ _ Hl Hbefore Htf) as [[=] ?]; by subst..].
  clear Hfail.
  destruct Hres2 as [Hb Hsame2]. rewrite Hb, firstn_all in Hev2.
  destruct (for_each_completed _ _ SaveOutput_logs rendered w2) as (Hev3 & Hres3 & Hzero).
  pose proof (completed_le SaveOutput rendered w2) as Hle3.
  pose proof (same_paths_trans _ _ _ Hsame1 Hsame2) as Hsame.
  rewrite (same_paths_OutputPath tfs rendered _ Saved Hsame) in Hev3.
  rewrite <-(same_paths_length _ _ Hsame) in Hle3, Hres3.
  exists (length tfs), (length tfs), (completed SaveOutput rendered w2).
  assert (∀ before tf after e, loaded = before ++ tf :: after →
       Forall (λ tf', is_Ok (Template' tf' w1).1) before →
       (Template' tf w1).1 = Err e → False) as Hno.
  { intros before tf after e Hl Hbefore Htf.
    by destruct (Hfirst _ _ _ _ Hl Hbefore Htf) as [[=] _]. }
  destruct (for_each SaveOutput rendered w2) as [[saved|e3|p3] w3] eqn:Hsave; cbn in *;
    eexists _, _; rewrite !firstn_all, Hev3, Hev2, Hev1, <-!(assoc_L (++));
    (split_and!; try done; try lia);
    try (split; [done|lia]);
    try (intros Hc; rewrite (Hzero Hc); congruence);
    try (intros ? ? before tf after e [= <- <-] Hl Hbefore Htf;
         destruct (Hno _ _ _ _ Hl Hbefore Htf)).
  destruct Hres3 as [-> _]. done.
Qed.
(** *** The setup creates directories only *)

Lemma file_at_put_node_dir key n :
  lookup_node key n = None →
  dir_at n (removelast key) →
  ∀ key', file_at (put_node key (Dir true []) n) key' = file_at n key'.
Proof.
  unfold dir_at, file_at.
  revert n. induction key as [|name rest IH]; intros n Hnone (rp & ep & Hparent); [done|].
  destruct n as [data|r entries]; [by destruct rest|].
  destruct rest as [|name2 rest].
  - cbn in Hnone. intros [|name' key']; [done|]. cbn.
    destruct (decide (name = name')) as [<-|Hne].
    + rewrite find_set_entry_eq. destruct (find_entry name entries); [done|].
      cbn. by destruct key'.
    + by rewrite find_set_entry_ne.
  - cbn [removelast] in Hparent. cbn [lookup_node] in Hnone, Hparent.
    change (put_node (name :: name2 :: rest) (Dir true []) (Dir r entries))
      with (Dir r (alter_entry name (put_node (name2 :: rest) (Dir true [])) entries)).
    destruct (find_entry name entries) as [child|] eqn:Hfind; [|done].
    cbn in Hnone, Hparent. intros [|name' key']; [done|]. cbn [lookup_node].
    destruct (decide (name = name')) as [<-|Hne].
    + rewrite find_alter_entry_eq, Hfind. cbn. apply IH; [done|by eauto].
    + by rewrite find_alter_entry_ne.
Qed.

Lemma os_Mkdir_files path fs key :
  file_at (os_Mkdir path fs).2 key = file_at fs key.
Proof.
  unfold os_Mkdir, create_at.
  destruct (stat fs path) as [t|] eqn:Hstat; [done|].
  case_decide as Hpath; [done|]. rewrite stat_nonempty in Hstat by done.
  destruct (lookup_node (removelast (path_key path)) fs) as [[data|r entries]|] eqn:Hparent;
    [done| |done].
  apply file_at_put_node_dir; [done|by eexists _, _].
Qed.

Lemma safeMkdir_files path fs key :
  file_at (safeMkdir path fs).2 key = file_at fs key.
Proof.
  unfold safeMkdir. pose proof (os_Mkdir_files path fs key) as H.
  destruct (os_Mkdir path fs) as [err fs']. by destruct (IsExist err).
Qed.

Lemma safeMkdir_each_files rmt dirs fs key :
  file_at (safeMkdir_each rmt dirs fs).2 key = file_at fs key.
Proof.
  revert fs. induction dirs as [|dir dirs IH]; intros fs; cbn [safeMkdir_each]; [done|].
  pose proof (safeMkdir_files (filepath_Join [rmt; dir]) fs key) as H.
  destruct (safeMkdir _ fs) as [[e|] fs1]; [done|]. by rewrite IH.
Qed.

Lemma recursiveCopyDir_files src rmt fs key :
  file_at (recursiveCopyDir src rmt fs).2 key = file_at fs key.
Proof.
  unfold recursiveCopyDir. pose proof (safeMkdir_files rmt fs key) as H.
  destruct (safeMkdir rmt fs) as [[e|] fs1]; [done|].
  destruct (recursiveGetDirs fs1 src) as [dirs [e|]]; [done|].
  by rewrite safeMkdir_each_files.
Qed.

Lemma Run_setup_spec flags w :
  events (Run_setup flags w).2 = events w ∧
  (∀ key, file_at (fs (Run_setup flags w).2) key = file_at (fs w) key) ∧
  (flag_ID flags = "" → (Run_setup flags w).2 = w).
Proof.
  unfold Run_setup. case_bool_decide as HID.
  - pose proof (recursiveCopyDir_files (flag_ID flags) (flag_OD flags) (fs w)) as Hfiles.
    destruct (recursiveCopyDir _ _ (fs w)) as [[e|] fs1]; [done|].
    destruct (NewTemplateContext _) as [tx|e|p]; [|done..].
    by destruct (recursiveGetFiles _ _) as [files [e|]].
  - by destruct (NewTemplateContext _) as [tx|e|p].
Qed.


(** When the setup fails, so does the run, with no operation on a
    template file and no file written. *)
Lemma Run_setup_fails flags w :
  ¬ is_Ok (Run_setup flags w).1 →
  ∃ r w', Run' flags w = (r, w') ∧ r ≠ Ok () ∧ events w' = events w ∧
          ∀ key, file_at (fs w') key = file_at (fs w) key.
Proof.
  intros Hfail. destruct (Run_setup_spec flags w) as (Hev0 & Hfiles0 & _). unfold Run.
  destruct (Run_setup flags w) as [[tfs|e|p] w0]; cbn in *; [done|..]; by eexists _, _.
Qed.
End run_facts.

(** ** The sample runs *)

Example Run_hello :
  ∃ w', sample_Run hello_flags hello_world = (Ok (), w') ∧
        file_at (fs w') ["out.txt"] = Some "Hello World" ∧
        events w' = [Loaded "in.txt"; Rendered "in.txt"; Saved "out.txt"].
Proof. eexists. split; [vm_compute; reflexivity|]. split; reflexivity. Qed.

Example Run_hello_unset :
  sample_Run hello_flags hello_unset =
    (Err (MissingVariable "NAME"),
     {| fs := hello_fs; environ := ["HOME=/root"]; events := [Loaded "in.txt"] |}).
Proof. vm_compute. reflexivity. Qed.


Example recursiveGetDirs_sample :
  recursiveGetDirs sample_fs "src" = (["sub"; "sub/empty"], None).
Proof. vm_compute. reflexivity. Qed.

Example recursiveGetFiles_sample :
  recursiveGetFiles sample_fs "src" = (["a.txt"; "sub/b.txt"], None).
Proof. vm_compute. reflexivity. Qed.

Lemma valid_name_by_Index name :
  name ≠ "" → name ≠ "." → name ≠ ".." → Index name "/" = None → valid_name name.
Proof. intros. split_and!; try done. by apply not_occurs_by_Index. Qed.

Lemma NoDup_by_decide (names : list string) : bool_decide (NoDup names) = true → NoDup names.
Proof. apply bool_decide_eq_true_1. Qed.

Ltac solve_wf_node :=
  repeat first
    [ apply wf_File
    | apply wf_Dir; cbn [fmap list_fmap fst snd]
    | apply Forall_nil_2
    | apply Forall_cons_2; cbn [fst snd]
    | apply valid_name_by_Index; [discriminate..|reflexivity]
    | apply NoDup_by_decide; vm_compute; reflexivity ].

Ltac solve_readable_tree :=
  repeat first
    [ apply readable_File
    | apply readable_Dir
    | apply Forall_nil_2
    | apply Forall_cons_2; cbn [fst snd] ].

Lemma wf_sample_fs : wf_node sample_fs.
Proof. unfold sample_fs. solve_wf_node. Qed.

Lemma recursiveGetDirs_lists_every_subdirectory_witness :
  wf_node sample_fs ∧
  ∃ keys, recursiveGetDirs sample_fs "src" = (rel_path <$> keys, None) ∧
          NoDup (rel_path <$> keys) ∧
          (["sub"; "empty"] ∈ keys ↔
             ["sub"; "empty"] ≠ [] ∧
             dir_at (Dir true [("a.txt", File "A");
                               ("sub", Dir true [("b.txt", File "B"); ("empty", Dir true [])])])
                    ["sub"; "empty"]).
Proof.
  split; [exact wf_sample_fs|].
  destruct (recursiveGetDirs_lists_every_subdirectory sample_fs "src"
              (Dir true [("a.txt", File "A");
                         ("sub", Dir true [("b.txt", File "B"); ("empty", Dir true [])])]))
    as (keys & Hdirs & Hkeys & Hnd & _).
  - exact wf_sample_fs.
  - vm_compute. reflexivity.
  - exact I.
  - solve_readable_tree.
  - exists keys. split; [exact Hdirs|]. split; [exact Hnd|]. apply Hkeys.
Defined.

(** Mirroring [src] twice: the second run changes nothing. *)
Example recursiveCopyDir_twice :
  ∃ fs', recursiveCopyDir "src" "dst" sample_fs = (None, fs') ∧
         dir_at fs' ["dst"; "sub"; "empty"] ∧
         file_at fs' ["dst"; "a.txt"] = None ∧
         recursiveCopyDir "src" "dst" fs' = (None, fs').
Proof.
  eexists. split; [vm_compute; reflexivity|]. split; [by eexists _, _|].
  split; [reflexivity|]. vm_compute. reflexivity.
Qed.

(** With the destination inside the source the second run finds the
    directories of the first one to mirror: the last part of
    [recursiveCopyDir_idempotent] needs source and destination apart. *)
Example recursiveCopyDir_inside :
  ∃ fs1 fs2, recursiveCopyDir "src" "src/out" sample_fs = (None, fs1) ∧
             recursiveCopyDir "src" "src/out" fs1 = (None, fs2) ∧
             dir_at fs2 ["src"; "out"; "out"; "sub"] ∧
             ¬ dir_at fs1 ["src"; "out"; "out"; "sub"].
Proof.
  eexists _, _. split; [vm_compute; reflexivity|]. split; [vm_compute; reflexivity|].
  split; [by eexists _, _|]. by intros (? & ? & ?).
Qed.

(** C5 as stated fails: with [-if], [-of], [-id] and [-od] all given,
    validation reports no error, and [main] runs the pipeline, in
    directory mode. *)
Lemma NewFlags_mixed_modes_counterexample :
  flag_IF mixed_flags ≠ "" ∧ flag_ID mixed_flags ≠ "" ∧
  NewFlags sample_Parse mixed_args = (mixed_flags, None) ∧
  ∃ w', main sample_Parse string sample_template_Parse sample_Execute mixed_args sample_world
          = (Exit0, w') ∧
        events w' =
          [Loaded "src/a.txt"; Loaded "src/sub/b.txt";
           Rendered "src/a.txt"; Rendered "src/sub/b.txt";
           Saved "dst/a.txt"; Saved "dst/sub/b.txt"] ∧
        file_at (fs w') ["dst"; "sub"; "b.txt"] = Some "B".
Proof.
  split; [discriminate|]. split; [discriminate|]. split; [reflexivity|].
  eexists. split; [vm_compute; reflexivity|]. split; reflexivity.
Qed.

(** * Further properties

    What the code shows beyond the statements above: its behaviour on
    edge cases and errors, what it leaves unchanged, and how its
    operations compose. *)

(** ** The template context: panics and errors *)

Section context_more.
Implicit Types (tx : TemplateContext) (N v d : string).

Lemma NewTemplateContext_loop_panics environ envs0 :
  Exists (λ str, ¬ occurs "=" str) environ →
  NewTemplateContext_loop environ envs0 = Panic (IndexOutOfRange 1 1).
Proof.
  intros Hex. revert envs0.
  induction Hex as [str environ Hno|str environ _ IH]; intros envs0;
    cbn [NewTemplateContext_loop]; rewrite SplitN_2 by done.
  - destruct (Index str "=") as [m|] eqn:Hi; [|done].
    destruct Hno. apply Index_Some in Hi as (a & b & ? & _). by exists a, b.
  - destruct (Index str "=") as [m|] eqn:Hi; [|done]. cbn. apply IH.
Qed.

(** X1: an entry of the environment without ["="] makes
    [NewTemplateContext] index the one-element result of [SplitN] at 1:
    it panics with an index out of range and returns no context. *)
Theorem NewTemplateContext_entry_without_equals environ :
  Exists (λ str, ¬ occurs "=" str) environ →
  NewTemplateContext environ = Panic (IndexOutOfRange 1 1).
Proof.
  intros Hex. unfold NewTemplateContext.
  by rewrite NewTemplateContext_loop_panics.
Qed.

Lemma NewTemplateContext_entry_without_equals_witness :
  Exists (λ str, ¬ occurs "=" str) ["A=1"; "B"; "C=3"] ∧
  NewTemplateContext ["A=1"; "B"; "C=3"] = Panic (IndexOutOfRange 1 1).
Proof.
  assert (Exists (λ str, ¬ occurs "=" str) ["A=1"; "B"; "C=3"]) as Hex.
  { apply Exists_cons_tl, Exists_cons_hd. by apply not_occurs_by_Index. }
  split; [exact Hex|]. exact (NewTemplateContext_entry_without_equals _ Hex).
Defined.

Lemma Dict_loop_no_error items kd dict e : Dict_loop items kd dict ≠ Err e.
Proof.
  revert dict. induction items as [|item items IH]; intros dict; cbn [Dict_loop]; [done|].
  unfold at_index.
  destruct (SplitN item kd 2 !! 0) as [k|]; [|done]. cbn.
  destruct (SplitN item kd 2 !! 1) as [x|]; [|done]. cbn. apply IH.
Qed.

(** X2: [Exist] tells whether [Env] succeeds and [NotExist] is its
    negation; [Env] and [List] never panic; and the only error that
    [Env], [List] and [Dict] return is the missing-variable error, for a
    name that is not set: a malformed item is never reported as an
    error. *)
Theorem accessors_fail_for_missing_variable_only tx N :
  (Exist tx N = true ↔ ∃ v, Env tx N = Ok v) ∧
  NotExist tx N = negb (Exist tx N) ∧
  (∀ p, Env tx N ≠ Panic p) ∧
  (∀ d p, List tx N d ≠ Panic p) ∧
  (∀ e, Env tx N = Err e → e = MissingVariable N ∧ Exist tx N = false) ∧
  (∀ d e, List tx N d = Err e → e = MissingVariable N ∧ Exist tx N = false) ∧
  (∀ id kd e, Dict tx N id kd = Err e → e = MissingVariable N ∧ Exist tx N = false).
Proof.
  unfold Exist, NotExist, Dict, List, Env.
  destruct (envs tx !! N) as [v|] eqn:Hv; cbn.
  - split_and!; try done.
    + split; [by exists v|done].
    + intros id kd e He. by apply Dict_loop_no_error in He.
  - split_and!; try done.
    + split; [done|by intros [? [=]]].
    + by intros e [= <-].
    + by intros _ e [= <-].
    + by intros _ _ e [= <-].
Qed.



End context_more.

(** ** The empty delimiter *)

Section explode_facts.

Lemma runeSize_ascii c s : nat_of_ascii c < 128 → runeSize (String c s) = 1.
Proof.
  intros Hc. unfold runeSize. cbn [String.get fmap option_fmap option_map].
  destruct (Nat.ltb_spec (nat_of_ascii c) 194); [done|lia].
Qed.

Lemma RuneCount_loop_ascii fuel s :
  ascii_only s → len s ≤ fuel → RuneCount_loop fuel s = len s.
Proof.
  revert s. induction fuel as [|fuel IH]; intros [|c s]; cbn [len String.length]; try done; try lia.
  intros [Hc Hs] Hlen. cbn [RuneCount_loop]. rewrite runeSize_ascii by done.
  cbn [slice_from]. rewrite IH; [done..|lia].
Qed.

Lemma explode_loop_ascii c s :
  ascii_only (String c s) → explode_loop (len s) (String c s) = characters (String c s).
Proof.
  revert c. induction s as [|c' s IH]; intros c [Hc Hs]; [done|].
  cbn [len String.length explode_loop]. rewrite runeSize_ascii by done.
  cbn [slice_to slice_from]. by rewrite IH.
Qed.

Lemma explode_ascii s : ascii_only s → explode s (-1) = characters s.
Proof.
  intros Hs. unfold explode, RuneCountInString.
  rewrite RuneCount_loop_ascii by done.
  rewrite (bool_decide_eq_true_2 (-1 < 0 ∨ _)%Z) by lia.
  destruct s as [|c s]; [done|].
  rewrite bool_decide_eq_true_2 by (cbn [len String.length]; lia).
  replace (Z.to_nat _) with (len s) by (cbn [len String.length]; lia).
  by apply explode_loop_ascii.
Qed.

(** X4: with the empty delimiter, [List] cuts a value of ASCII
    characters into its characters, one string each. *)
Theorem List_empty_delimiter_characters (tx : TemplateContext) (N v : string) :
  envs tx !! N = Some v →
  ascii_only v →
  List tx N "" = Ok (characters v).
Proof.
  intros Hv Hascii. unfold List. rewrite (Env_present _ _ _ Hv). cbn.
  by rewrite Split_empty_sep, explode_ascii.
Qed.

Lemma List_empty_delimiter_characters_witness :
  envs sample_context !! "L" = Some "a,b,c" ∧
  ascii_only "a,b,c" ∧
  List sample_context "L" "" = Ok ["a"; ","; "b"; ","; "c"].
Proof.
  assert (ascii_only "a,b,c") as Hascii by (repeat split; by apply Nat.ltb_lt).
  split; [reflexivity|]. split; [exact Hascii|].
  exact (List_empty_delimiter_characters sample_context "L" "a,b,c" eq_refl Hascii).
Defined.
End explode_facts.

(** ** Putting a node in the tree *)

Section put_facts.
Implicit Types (n t fs child new : node) (entries : list (string * node))
  (key k : list string) (name path : string).

(** What exists below a node is below a directory. *)
Lemma lookup_node_parent key n :
  key ≠ [] → is_Some (lookup_node key n) → dir_at n (removelast key).
Proof.
  unfold dir_at.
  revert n. induction key as [|name rest IH]; intros n Hne Hsome; [done|].
  destruct n as [data|r entries]; [by destruct Hsome|].
  destruct rest as [|name2 rest]; [by eexists _, _|].
  cbn [removelast]. cbn [lookup_node] in Hsome |- *.
  destruct (find_entry name entries) as [child|]; [|by destruct Hsome].
  cbn in Hsome |- *. by apply IH.
Qed.

Lemma dir_at_Dir n key name : dir_at n (removelast (name :: key)) → ∃ r entries, n = Dir r entries.
Proof.
  intros (r & es & Hl). destruct n as [data|r' entries]; [|by eauto].
  destruct key; [done|]. done.
Qed.

Lemma put_node_cons name name2 rest new r entries :
  put_node (name :: name2 :: rest) new (Dir r entries)
  = Dir r (alter_entry name (put_node (name2 :: rest) new) entries).
Proof. done. Qed.

(** The node put at [key] is the node found at [key]. *)
Lemma lookup_put_node_eq key new n :
  key = [] ∨ dir_at n (removelast key) →
  lookup_node key (put_node key new n) = Some new.
Proof.
  revert n. induction key as [|name rest IH]; intros n Hparent; [done|].
  destruct Hparent as [|Hparent]; [done|].
  destruct (dir_at_Dir _ _ _ Hparent) as (r & entries & ->).
  destruct rest as [|name2 rest].
  - cbn. by rewrite find_set_entry_eq.
  - rewrite put_node_cons. destruct Hparent as (rp & ep & Hparent).
    cbn [removelast] in Hparent. cbn [lookup_node] in Hparent |- *.
    rewrite find_alter_entry_eq.
    destruct (find_entry name entries) as [child|] eqn:Hfind; [|done].
    cbn in Hparent |- *. apply IH. right. by exists rp, ep.
Qed.

Lemma file_at_cons r entries name k :
  file_at (Dir r entries) (name :: k) =
    match find_entry name entries with Some child => file_at child k | None => None end.
Proof. unfold file_at. cbn. by destruct (find_entry name entries). Qed.

Lemma file_at_File data k : k ≠ [] → file_at (File data) k = None.
Proof. by destruct k. Qed.

Lemma put_node_Dir key new r entries :
  key ≠ [] → ∃ entries', put_node key new (Dir r entries) = Dir r entries'.
Proof. destruct key as [|name [|name2 rest]]; [done|by eexists..]. Qed.

(** Writing a file at [key], where no directory is, changes no other file. *)
Lemma file_at_put_node_File key data n k :
  key = [] ∨ dir_at n (removelast key) →
  ¬ dir_at n key →
  k ≠ key →
  file_at (put_node key (File data) n) k = file_at n k.
Proof.
  revert n k. induction key as [|name rest IH]; intros n k Hparent Hnodir Hk.
  { cbn. destruct n as [data0|r entries]; [|destruct Hnodir; by exists r, entries].
    by rewrite !file_at_File. }
  destruct Hparent as [|Hparent]; [done|].
  destruct (dir_at_Dir _ _ _ Hparent) as (r & entries & ->).
  destruct k as [|name' k'].
  { destruct (put_node_Dir (name :: rest) (File data) r entries) as [es' ->]; done. }
  destruct rest as [|name2 rest].
  - cbn [put_node]. rewrite !file_at_cons.
    destruct (decide (name = name')) as [<-|Hne]; [|by rewrite find_set_entry_ne].
    rewrite find_set_entry_eq. assert (k' ≠ []) as Hk' by congruence.
    rewrite file_at_File by done.
    destruct (find_entry name entries) as [[data0|r0 es0]|] eqn:Hfind; [|exfalso|done].
    + by rewrite file_at_File.
    + apply Hnodir. exists r0, es0. cbn. by rewrite Hfind.
  - rewrite put_node_cons, !file_at_cons. destruct Hparent as (rp & ep & Hparent).
    cbn [removelast] in Hparent. cbn [lookup_node] in Hparent.
    destruct (decide (name = name')) as [<-|Hne]; [|by rewrite find_alter_entry_ne].
    rewrite find_alter_entry_eq.
    destruct (find_entry name entries) as [child|] eqn:Hfind; [|done].
    cbn in Hparent |- *. apply IH; [right; by exists rp, ep| |congruence].
    intros (r0 & es0 & Hl). apply Hnodir. exists r0, es0. cbn. by rewrite Hfind.
Qed.

(** Writing a file creates no directory and removes none. *)
Lemma dir_at_put_node_File key data n k :
  key = [] ∨ dir_at n (removelast key) →
  ¬ dir_at n key →
  dir_at (put_node key (File data) n) k ↔ dir_at n k.
Proof.
  unfold dir_at.
  revert n k. induction key as [|name rest IH]; intros n k Hparent Hnodir.
  { cbn. destruct n as [data0|r entries]; [|destruct Hnodir; by exists r, entries].
    destruct k; cbn; split; by intros (? & ? & [=]). }
  destruct Hparent as [|Hparent]; [done|].
  destruct (dir_at_Dir _ _ _ Hparent) as (r & entries & ->).
  destruct k as [|name' k'].
  { destruct (put_node_Dir (name :: rest) (File data) r entries) as [es' ->]; [done|].
    cbn. split; intros _; by eexists _, _. }
  destruct rest as [|name2 rest].
  - cbn [put_node lookup_node].
    destruct (decide (name = name')) as [<-|Hne]; [|by rewrite find_set_entry_ne].
    rewrite find_set_entry_eq. cbn.
    destruct (find_entry name entries) as [[data0|r0 es0]|] eqn:Hfind; cbn.
    + destruct k'; cbn; split; by intros (? & ? & [=]).
    + destruct Hnodir. exists r0, es0. cbn. by rewrite Hfind.
    + destruct k'; cbn; split; by intros (? & ? & [=]).
  - rewrite put_node_cons. cbn [lookup_node]. destruct Hparent as (rp & ep & Hparent).
    cbn [removelast] in Hparent. cbn [lookup_node] in Hparent.
    destruct (decide (name = name')) as [<-|Hne]; [|by rewrite find_alter_entry_ne].
    rewrite find_alter_entry_eq.
    destruct (find_entry name entries) as [child|] eqn:Hfind; [|done].
    cbn in Hparent |- *. apply IH; [right; by exists rp, ep|].
    intros (r0 & es0 & Hl). apply Hnodir. exists r0, es0. cbn. by rewrite Hfind.
Qed.

End put_facts.

(** ** Making directories *)

Section mkdir_facts.
Implicit Types (n t fs child new : node) (entries : list (string * node))
  (key k : list string) (name path : string).

Lemma safeMkdir_error_iff path fs :
  (is_Some (safeMkdir path fs).1 ↔
     ¬ exists_at fs path ∧ (path = "" ∨ ¬ dir_at fs (removelast (path_key path)))) ∧
  (∀ e, (safeMkdir path fs).1 = Some e →
     (safeMkdir path fs).2 = fs ∧
     ∃ errno, e = PathError "mkdir" path errno ∧ errno ≠ EEXIST).
Proof.
  unfold safeMkdir, os_Mkdir, create_at, exists_at, dir_at.
  destruct (stat fs path) as [t|] eqn:Hstat; cbn.
  { split; [|done]. split; [by intros [? [=]]|]. intros [Hno _]. destruct Hno. by eexists. }
  case_decide as Hpath; cbn.
  { split; [|intros e [= <-]; split; [done|by exists ENOENT]].
    split; [intros _; split; [by intros [? [=]]|by left]|by eexists]. }
  destruct (lookup_node (removelast (path_key path)) fs) as [[data|r entries]|] eqn:Hparent; cbn.
  - split; [|intros e [= <-]; split; [done|by exists ENOTDIR]].
    split; [intros _; split; [by intros [? [=]]|right; by intros (? & ? & [=])]|by eexists].
  - split; [|done]. split; [by intros [? [=]]|].
    intros [_ [?|Hno]]; [done|]. destruct Hno. by eexists _, _.
  - split; [|intros e [= <-]; split; [done|by exists ENOENT]].
    split; [intros _; split; [by intros [? [=]]|right; by intros (? & ? & [=])]|by eexists].
Qed.

(** X5: [safeMkdir] never returns the already-exists error; when it
    returns an error the file system is as before; and it returns one
    when nothing exists at the path and the parent of the path is not a
    directory, or the path is empty. *)
Theorem safeMkdir_fails_without_parent path fs :
  (∀ e, (safeMkdir path fs).1 = Some e →
     (safeMkdir path fs).2 = fs ∧
     ∃ errno, e = PathError "mkdir" path errno ∧ errno ≠ EEXIST) ∧
  (¬ exists_at fs path →
   path = "" ∨ ¬ dir_at fs (removelast (path_key path)) →
   ∃ e, safeMkdir path fs = (Some e, fs)).
Proof.
  destruct (safeMkdir_error_iff path fs) as [Hiff Herr]. split; [done|].
  intros Hno Hparent. destruct (proj2 Hiff (conj Hno Hparent)) as [e He].
  destruct (Herr e He) as [Hfs _]. exists e.
  destruct (safeMkdir path fs) as [err fs']. cbn in He, Hfs. by subst.
Qed.

Lemma os_Mkdir_new path fs fs' :
  ¬ exists_at fs path → os_Mkdir path fs = (None, fs') →
  path ≠ "" ∧ lookup_node (path_key path) fs = None ∧
  dir_at fs (removelast (path_key path)) ∧
  fs' = put_node (path_key path) (Dir true []) fs.
Proof.
  unfold os_Mkdir, create_at, exists_at. intros Hno.
  destruct (stat fs path) as [t|] eqn:Hstat; [by destruct Hno|].
  case_decide as Hpath; [done|]. rewrite stat_nonempty in Hstat by done.
  destruct (lookup_node (removelast (path_key path)) fs) as [[data|r entries]|] eqn:Hparent;
    [done| |done].
  intros [= <-]. split_and!; [done..| |done]. by exists r, entries.
Qed.

Lemma safeMkdir_new path fs fs' :
  ¬ exists_at fs path → safeMkdir path fs = (None, fs') →
  path ≠ "" ∧ lookup_node (path_key path) fs = None ∧
  dir_at fs (removelast (path_key path)) ∧
  fs' = put_node (path_key path) (Dir true []) fs.
Proof.
  intros Hno. unfold safeMkdir. destruct (os_Mkdir path fs) as [err fs1] eqn:Hmk.
  destruct (IsExist err) eqn:Hie.
  - destruct (os_Mkdir_spec _ _ _ _ Hmk) as (Hexist & _).
    destruct Hexist as [_ ?]; [by rewrite Hie|done].
  - intros [= -> <-]. by apply os_Mkdir_new.
Qed.

Lemma safeMkdir_error path fs e fs' : safeMkdir path fs = (Some e, fs') → fs' = fs.
Proof.
  unfold safeMkdir. destruct (os_Mkdir path fs) as [err fs1] eqn:Hmk.
  destruct (os_Mkdir_spec _ _ _ _ Hmk) as (_ & _ & Herr).
  destruct (IsExist err); [done|]. intros [= -> <-]. by apply Herr.
Qed.

Lemma safeMkdir_dirs path fs k : dir_at fs k → dir_at (safeMkdir path fs).2 k.
Proof.
  intros (r & es & Hdir).
  destruct (safeMkdir path fs) as [err fs'] eqn:Hmk. cbn.
  destruct (decide (exists_at fs path)) as [Hex|Hno].
  { rewrite safeMkdir_exists in Hmk by done. injection Hmk as <- <-. by exists r, es. }
  destruct err as [e|].
  { apply safeMkdir_error in Hmk as ->. by exists r, es. }
  destruct (safeMkdir_new _ _ _ Hno Hmk) as (_ & Hnone & Hparent & ->).
  destruct (lookup_put_node_new _ (Dir true []) _ Hnone Hparent) as [_ Hold].
  destruct (Hold k) as [t Ht]; [by eexists|].
  pose proof (file_at_put_node_dir _ _ Hnone Hparent k) as Hfile.
  unfold file_at in Hfile. rewrite Ht, Hdir in Hfile.
  destruct t as [data|r' es']; [done|]. by exists r', es'.
Qed.

(** X6: when nothing exists at [path] and [safeMkdir] returns no
    error, an empty directory is at [path] afterwards, in what was a
    directory before; nothing changes but on the way to the new
    directory, every directory is still a directory and every file keeps
    its content. *)
Theorem safeMkdir_creates_one_directory path fs fs' :
  ¬ exists_at fs path →
  safeMkdir path fs = (None, fs') →
  lookup_node (path_key path) fs' = Some (Dir true []) ∧
  dir_at fs (removelast (path_key path)) ∧
  (∀ k, ¬ k `prefix_of` path_key path → lookup_node k fs' = lookup_node k fs) ∧
  (∀ k, dir_at fs k → dir_at fs' k) ∧
  (∀ k, file_at fs' k = file_at fs k).
Proof.
  intros Hno Hmk. destruct (safeMkdir_new _ _ _ Hno Hmk) as (Hpath & Hnone & Hparent & ->).
  split_and!.
  - apply lookup_put_node_eq. by right.
  - done.
  - intros k Hk. by apply lookup_put_node_other.
  - intros k Hk. pose proof (safeMkdir_dirs path fs k Hk) as H. by rewrite Hmk in H.
  - by apply file_at_put_node_dir.
Qed.

Lemma safeMkdir_creates_one_directory_witness :
  ¬ exists_at sample_fs "dst" ∧
  ∃ fs', safeMkdir "dst" sample_fs = (None, fs') ∧
         lookup_node ["dst"] fs' = Some (Dir true []) ∧
         file_at fs' ["src"; "a.txt"] = Some "A".
Proof.
  assert (¬ exists_at sample_fs "dst") as Hno by (by intros [? [=]]).
  split; [exact Hno|]. eexists. split; [reflexivity|].
  destruct (safeMkdir_creates_one_directory "dst" sample_fs _ Hno eq_refl) as (Hnew & _ & _ & _ & Hfiles).
  split; [exact Hnew|]. exact (Hfiles ["src"; "a.txt"]).
Defined.

Lemma safeMkdir_each_dirs rmt dirs fs k :
  dir_at fs k → dir_at (safeMkdir_each rmt dirs fs).2 k.
Proof.
  revert fs. induction dirs as [|dir dirs IH]; intros fs Hdir; cbn [safeMkdir_each]; [done|].
  pose proof (safeMkdir_dirs (filepath_Join [rmt; dir]) fs k Hdir) as Hk.
  destruct (safeMkdir _ fs) as [[e|] fs1]; [done|]. by apply IH.
Qed.

Lemma wf_safeMkdir_each rmt dirs fs : wf_node fs → wf_node (safeMkdir_each rmt dirs fs).2.
Proof.
  revert fs. induction dirs as [|dir dirs IH]; intros fs Hwf; cbn [safeMkdir_each]; [done|].
  pose proof (wf_safeMkdir (filepath_Join [rmt; dir]) fs Hwf) as Hwf1.
  destruct (safeMkdir _ fs) as [[e|] fs1]; [done|]. by apply IH.
Qed.

Lemma recursiveCopyDir_dirs src rmt fs key :
  dir_at fs key → dir_at (recursiveCopyDir src rmt fs).2 key.
Proof.
  intros Hkey. unfold recursiveCopyDir.
  pose proof (safeMkdir_dirs rmt fs key Hkey) as Hdirs.
  destruct (safeMkdir rmt fs) as [[e|] fs1]; [done|].
  destruct (recursiveGetDirs fs1 src) as [dirs [e|]]; [done|].
  by apply safeMkdir_each_dirs.
Qed.

Lemma wf_recursiveCopyDir src rmt fs :
  wf_node fs → wf_node (recursiveCopyDir src rmt fs).2.
Proof.
  intros Hfs. unfold recursiveCopyDir.
  pose proof (wf_safeMkdir rmt fs Hfs) as Hwf.
  destruct (safeMkdir rmt fs) as [[e|] fs1]; [done|].
  destruct (recursiveGetDirs fs1 src) as [dirs [e|]]; [done|].
  by apply wf_safeMkdir_each.
Qed.

(** X7: [recursiveCopyDir], whether it fails or not, writes and
    removes no file (the file at every key is as before), keeps every
    directory, and keeps the tree well formed. *)
Theorem recursiveCopyDir_only_adds_directories src rmt fs :
  (∀ key, file_at (recursiveCopyDir src rmt fs).2 key = file_at fs key) ∧
  (∀ key, dir_at fs key → dir_at (recursiveCopyDir src rmt fs).2 key) ∧
  (wf_node fs → wf_node (recursiveCopyDir src rmt fs).2).
Proof.
  split; [apply recursiveCopyDir_files|].
  split; [apply recursiveCopyDir_dirs|apply wf_recursiveCopyDir].
Qed.

Lemma prefix_app_comparable k key1 key2 :
  k `prefix_of` key1 ++ key2 → k `prefix_of` key1 ∨ key1 `prefix_of` k.
Proof.
  intros Hk. apply (prefix_weak_total _ _ (key1 ++ key2)); [done|]. by apply prefix_app_r.
Qed.

Lemma safeMkdir_each_beside rmt dirs fs k :
  rel_paths dirs →
  ¬ k `prefix_of` path_key rmt → ¬ path_key rmt `prefix_of` k →
  lookup_node k (safeMkdir_each rmt dirs fs).2 = lookup_node k fs.
Proof.
  intros Hrel Hk Hrmt. revert fs.
  induction Hrel as [|dir dirs (key & Hne & Hvalid & ->) _ IH]; intros fs;
    cbn [safeMkdir_each]; [done|].
  pose proof (safeMkdir_lookup_other (filepath_Join [rmt; rel_path key]) fs k) as Hsame.
  rewrite path_key_filepath_Join in Hsame by done.
  destruct (safeMkdir _ fs) as [[e|] fs1]; cbn in Hsame.
  - apply Hsame. by intros [?|?]%prefix_app_comparable.
  - rewrite IH. apply Hsame. by intros [?|?]%prefix_app_comparable.
Qed.

(** X8: [recursiveCopyDir] changes nothing outside the destination:
    a node that is neither above nor inside [rmt] is as before. *)
Theorem recursiveCopyDir_stays_inside_destination src rmt fs k :
  wf_node fs →
  ¬ k `prefix_of` path_key rmt →
  ¬ path_key rmt `prefix_of` k →
  lookup_node k (recursiveCopyDir src rmt fs).2 = lookup_node k fs.
Proof.
  intros Hwf Hk Hrmt. unfold recursiveCopyDir.
  pose proof (safeMkdir_lookup_other rmt fs k Hk) as Hsame.
  pose proof (wf_safeMkdir rmt fs Hwf) as Hwf1.
  destruct (safeMkdir rmt fs) as [[e|] fs1]; [done|]. cbn in Hsame, Hwf1.
  pose proof (recursiveGetDirs_total fs1 src Hwf1) as Htotal.
  apply recursiveGetDirs_upto_rel_paths in Htotal; [|done].
  destruct (recursiveGetDirs fs1 src) as [dirs [e|]]; [done|].
  by rewrite safeMkdir_each_beside.
Qed.

Lemma recursiveCopyDir_stays_inside_destination_witness :
  wf_node sample_fs ∧
  ¬ ["src"; "sub"] `prefix_of` path_key "dst" ∧
  ¬ path_key "dst" `prefix_of` ["src"; "sub"] ∧
  lookup_node ["src"; "sub"] (recursiveCopyDir "src" "dst" sample_fs).2
    = lookup_node ["src"; "sub"] sample_fs.
Proof.
  assert (¬ ["src"; "sub"] `prefix_of` path_key "dst") as H1.
  { intros [k [=]]. }
  assert (¬ path_key "dst" `prefix_of` ["src"; "sub"]) as H2.
  { intros [k [=]]. }
  split; [exact wf_sample_fs|]. split; [exact H1|]. split; [exact H2|].
  exact (recursiveCopyDir_stays_inside_destination "src" "dst" sample_fs _ wf_sample_fs H1 H2).
Defined.


End mkdir_facts.

(** ** Walking the tree for files *)

Section walk_facts.
Implicit Types (n t fs child : node) (entries : list (string * node))
  (key : list string) (name path : string).

Lemma file_keys_Dir r entries :
  file_keys (Dir r entries) = flat_map entry_file_keys entries.
Proof. done. Qed.

Lemma elem_of_entry_file_keys key e :
  key ∈ entry_file_keys e ↔
  if is_dir e.2 then ∃ key', key = e.1 :: key' ∧ key' ∈ file_keys e.2 else key = [e.1].
Proof.
  unfold entry_file_keys. destruct (is_dir e.2).
  - by rewrite list_elem_of_fmap.
  - by rewrite list_elem_of_singleton.
Qed.

Lemma entry_name_valid r entries name child :
  wf_node (Dir r entries) → (name, child) ∈ entries → valid_name name ∧ wf_node child.
Proof.
  intros Hwf Hin. inversion_clear Hwf as [|? ? _ Hnames Hchildren]. split.
  - apply (proj1 (Forall_forall _ _) Hnames). apply list_elem_of_fmap. by exists (name, child).
  - apply (proj1 (Forall_forall _ _) Hchildren _ Hin).
Qed.

Lemma file_keys_valid t key :
  wf_node t → key ∈ file_keys t → key ≠ [] ∧ Forall valid_name key.
Proof.
  revert key. induction t as [|r entries IH] using node_ind; intros key Hwf;
    [by intros ?%elem_of_nil|].
  rewrite file_keys_Dir, elem_of_flat_map. intros ([name child] & Hin & Hkey).
  destruct (entry_name_valid _ _ _ _ Hwf Hin) as [Hname Hwfc].
  apply elem_of_entry_file_keys in Hkey. cbn [fst snd] in Hkey.
  destruct (is_dir child).
  - destruct Hkey as (key' & -> & Hkey'). split; [done|]. constructor; [done|].
    by eapply (proj1 (Forall_forall _ _) IH (name, child)).
  - subst key. split; [done|]. by constructor.
Qed.

(** [file_keys] lists the files below a node, and only them. *)
Lemma elem_of_file_keys t key :
  wf_node t → key ∈ file_keys t ↔ key ≠ [] ∧ is_Some (file_at t key).
Proof.
  revert key. induction t as [data|r entries IH] using node_ind; intros key Hwf.
  - cbn. rewrite elem_of_nil. split; [done|]. intros [Hne Hsome].
    rewrite file_at_File in Hsome by done. by destruct Hsome.
  - pose proof Hwf as Hwf'. inversion_clear Hwf' as [|? ? Hnd _ _].
    rewrite file_keys_Dir, elem_of_flat_map. split.
    + intros ([name child] & Hin & Hkey).
      destruct (entry_name_valid _ _ _ _ Hwf Hin) as [Hname Hwfc].
      apply elem_of_entry_file_keys in Hkey. cbn [fst snd] in Hkey.
      destruct (is_dir child) eqn:Hdir.
      * destruct Hkey as (key' & -> & Hkey'). split; [done|].
        rewrite file_at_cons, (find_entry_elem_of _ _ child) by done.
        by apply (proj1 (Forall_forall _ _) IH (name, child)).
      * subst key. split; [done|].
        rewrite file_at_cons, (find_entry_elem_of _ _ child) by done.
        destruct child; [by eexists|done].
    + intros [Hne Hsome]. destruct key as [|name key']; [done|].
      rewrite file_at_cons in Hsome.
      destruct (find_entry name entries) as [child|] eqn:Hfind; [|by destruct Hsome].
      apply find_entry_Some in Hfind. exists (name, child). split; [done|].
      destruct (entry_name_valid _ _ _ _ Hwf Hfind) as [Hname Hwfc].
      apply elem_of_entry_file_keys. cbn [fst snd].
      destruct child as [data|r' es'] eqn:Hchild; cbn [is_dir].
      * destruct key'; [done|]. by destruct Hsome.
      * exists key'. split; [done|]. rewrite <-Hchild in *.
        apply (proj1 (Forall_forall _ _) IH _ Hfind); [done|]. split; [|done].
        intros ->. subst child. by destruct Hsome.
Qed.

Lemma entry_file_keys_head key entries :
  key ∈ flat_map entry_file_keys entries →
  ∃ name key', key = name :: key' ∧ name ∈ entries.*1.
Proof.
  rewrite elem_of_flat_map. intros (e & He & Hkey).
  apply elem_of_entry_file_keys in Hkey.
  assert (e.1 ∈ entries.*1) by (apply list_elem_of_fmap; by exists e).
  destruct (is_dir e.2); [destruct Hkey as (key' & -> & _)|subst key]; by eexists _, _.
Qed.

Lemma NoDup_file_keys t : wf_node t → NoDup (file_keys t).
Proof.
  induction t as [data|r entries IH] using node_ind; intros Hwf; [constructor|].
  inversion_clear Hwf as [|? ? Hnd Hnames Hchildren]. rewrite file_keys_Dir.
  clear Hnames. induction entries as [|[name child] entries IHe]; [constructor|].
  apply Forall_cons in IH as [IHc IH]. apply Forall_cons in Hchildren as [Hc Hchildren].
  cbn in Hnd. apply NoDup_cons in Hnd as [Hname Hnd].
  cbn [flat_map]. apply NoDup_app. split_and!.
  - unfold entry_file_keys. cbn [fst snd]. destruct (is_dir child).
    + apply NoDup_fmap_2; [by intros ? ? [=]|by auto].
    + apply NoDup_singleton.
  - intros key Hkey%elem_of_entry_file_keys (name' & key' & -> & Hin)%entry_file_keys_head.
    cbn [fst snd] in Hkey.
    destruct (is_dir child); [by destruct Hkey as (? & [= <- _] & _)|by injection Hkey as <- _].
  - by apply IHe.
Qed.

Lemma recursiveGetFiles_loop_tree recurse path entries files :
  Forall (λ e, valid_name e.1 ∧ wf_node e.2 ∧
            (is_dir e.2 →
             recurse (filepath_Join [path; e.1]) = Some (rel_path <$> file_keys e.2, None)))
         entries →
  recursiveGetFiles_loop recurse path (to_DirEntry <$> entries) files =
    Some (files ++ (rel_path <$> file_keys (Dir true entries)), None).
Proof.
  intros Hall. revert files.
  induction Hall as [|[name child] entries (Hname & Hwf & Hrec) _ IH]; intros files.
  - cbn. by rewrite app_nil_r.
  - cbn [fmap list_fmap recursiveGetFiles_loop to_DirEntry Name entry_IsDir fst snd].
    cbn [file_keys flat_map fst snd] in *.
    destruct (is_dir child) eqn:Hdir; cbn [negb].
    + rewrite Hrec by done. rewrite IH.
      do 2 f_equal. rewrite fmap_app, <-!(assoc_L (++)). do 2 f_equal.
      rewrite <-!list_fmap_compose. apply Forall_fmap_ext_1, Forall_forall.
      intros key Hkey. cbn.
      destruct (file_keys_valid child key Hwf Hkey). by apply filepath_Join_rel_path.
    + rewrite IH. by rewrite <-(assoc_L (++)).
Qed.

Lemma recursiveGetFiles_upto_tree depth fs path t :
  wf_node t → readable_tree t → is_dir t →
  stat fs path = Some t →
  height t ≤ depth →
  recursiveGetFiles_upto depth fs path = Some (rel_path <$> file_keys t, None).
Proof.
  revert depth path. induction t as [|r entries IH] using node_ind;
    intros depth path Hwf Hread Hdir Hlook Hdepth; [done|].
  inversion Hread as [|? Hreads]; subst.
  pose proof Hwf as Hwf'. inversion_clear Hwf' as [|? ? Hnd _ _].
  destruct depth as [|depth]; [rewrite height_Dir in Hdepth; lia|].
  cbn [recursiveGetFiles_upto]. rewrite (os_ReadDir_readable _ _ _ Hlook).
  apply recursiveGetFiles_loop_tree. apply Forall_forall. intros [name child] Hin.
  destruct (entry_name_valid _ _ _ _ Hwf Hin) as [Hname Hwfc].
  split_and!; [done..|]. intros Hd.
  apply (proj1 (Forall_forall _ _) IH _ Hin); [done| |done| |].
  - apply (proj1 (Forall_forall _ _) Hreads _ Hin).
  - by eapply lookup_child.
  - pose proof (height_child true _ _ _ Hin). cbn [snd]. lia.
Qed.

(** *** A walk that reports no error has listed every directory *)

Lemma recursiveGetDirs_loop_ok recurse path entries dirs res :
  recursiveGetDirs_loop recurse path (to_DirEntry <$> entries) dirs = Some (res, None) →
  Forall (λ e, is_dir e.2 → ∃ sub, recurse (filepath_Join [path; e.1]) = Some (sub, None))
         entries.
Proof.
  revert dirs. induction entries as [|[name child] entries IH]; intros dirs; [by constructor|].
  cbn [fmap list_fmap recursiveGetDirs_loop to_DirEntry Name entry_IsDir fst snd].
  destruct (is_dir child) eqn:Hdir; cbn [negb].
  - destruct (recurse _) as [[sub [e|]]|] eqn:Hrec; [done| |done].
    intros Hrest%IH. constructor; [|done]. intros _. by exists sub.
  - intros Hrest%IH. constructor; [|done]. cbn. by rewrite Hdir.
Qed.

Lemma recursiveGetFiles_loop_ok recurse path entries files res :
  recursiveGetFiles_loop recurse path (to_DirEntry <$> entries) files = Some (res, None) →
  Forall (λ e, is_dir e.2 → ∃ sub, recurse (filepath_Join [path; e.1]) = Some (sub, None))
         entries.
Proof.
  revert files. induction entries as [|[name child] entries IH]; intros files; [by constructor|].
  cbn [fmap list_fmap recursiveGetFiles_loop to_DirEntry Name entry_IsDir fst snd].
  destruct (is_dir child) eqn:Hdir; cbn [negb].
  - destruct (recurse _) as [[sub [e|]]|] eqn:Hrec; [done| |done].
    intros Hrest%IH. constructor; [|done]. intros _. by exists sub.
  - intros Hrest%IH. constructor; [|done]. cbn. by rewrite Hdir.
Qed.

Lemma readable_entries fs path entries
    (walk : string → option (list string * option error)) :
  wf_node (Dir true entries) →
  stat fs path = Some (Dir true entries) →
  (∀ path' t res, wf_node t → stat fs path' = Some t → walk path' = Some (res, None) →
                  readable_tree t) →
  Forall (λ e, is_dir e.2 → ∃ sub, walk (filepath_Join [path; e.1]) = Some (sub, None))
         entries →
  readable_tree (Dir true entries).
Proof.
  intros Hwf Hstat Hwalk Hall. constructor. apply Forall_forall. intros [name child] Hin.
  destruct (entry_name_valid _ _ _ _ Hwf Hin) as [Hname Hwfc].
  inversion_clear Hwf as [|? ? Hnd _ _]. cbn [snd].
  destruct child as [data|r es] eqn:Hchild; [constructor|]. rewrite <-Hchild in *.
  destruct (proj1 (Forall_forall _ _) Hall _ Hin) as [sub Hsub]; [by subst|].
  eapply Hwalk; [done| |done]. by eapply lookup_child.
Qed.

Lemma recursiveGetDirs_upto_ok depth fs path t res :
  wf_node t → stat fs path = Some t →
  recursiveGetDirs_upto depth fs path = Some (res, None) →
  readable_tree t.
Proof.
  revert path t res. induction depth as [|depth IH]; intros path t res Hwf Hstat; [done|].
  cbn [recursiveGetDirs_upto]. unfold os_ReadDir. rewrite Hstat.
  destruct t as [data|[] entries]; [done| |done].
  intros Hloop%recursiveGetDirs_loop_ok. eapply readable_entries; [done..| |done].
  intros path' t' res'. apply IH.
Qed.

Lemma recursiveGetFiles_upto_ok depth fs path t res :
  wf_node t → stat fs path = Some t →
  recursiveGetFiles_upto depth fs path = Some (res, None) →
  readable_tree t.
Proof.
  revert path t res. induction depth as [|depth IH]; intros path t res Hwf Hstat; [done|].
  cbn [recursiveGetFiles_upto]. unfold os_ReadDir. rewrite Hstat.
  destruct t as [data|[] entries]; [done| |done].
  intros Hloop%recursiveGetFiles_loop_ok. eapply readable_entries; [done..| |done].
  intros path' t' res'. apply IH.
Qed.

Lemma recursiveGetDirs_ok fs root dirs :
  wf_node fs → recursiveGetDirs fs root = (dirs, None) →
  ∃ t, stat fs root = Some t ∧ is_dir t ∧ readable_tree t.
Proof.
  intros Hwf Hres. pose proof (recursiveGetDirs_total fs root Hwf) as Htotal.
  rewrite Hres in Htotal.
  destruct (stat fs root) as [t|] eqn:Hstat.
  - exists t. split; [done|].
    pose proof (wf_lookup _ _ _ Hwf (proj2 (stat_Some _ _ _ Hstat))) as Hwft.
    split; [|by eapply recursiveGetDirs_upto_ok].
    cbn [recursiveGetDirs_upto] in Htotal. unfold os_ReadDir in Htotal. rewrite Hstat in Htotal.
    by destruct t.
  - cbn [recursiveGetDirs_upto] in Htotal. unfold os_ReadDir in Htotal.
    by rewrite Hstat in Htotal.
Qed.

Lemma recursiveGetFiles_ok fs root files :
  wf_node fs → recursiveGetFiles fs root = (files, None) →
  ∃ t, stat fs root = Some t ∧ is_dir t ∧ readable_tree t.
Proof.
  intros Hwf Hres. pose proof (recursiveGetFiles_total fs root Hwf) as Htotal.
  rewrite Hres in Htotal.
  destruct (stat fs root) as [t|] eqn:Hstat.
  - exists t. split; [done|].
    pose proof (wf_lookup _ _ _ Hwf (proj2 (stat_Some _ _ _ Hstat))) as Hwft.
    split; [|by eapply recursiveGetFiles_upto_ok].
    cbn [recursiveGetFiles_upto] in Htotal. unfold os_ReadDir in Htotal. rewrite Hstat in Htotal.
    by destruct t.
  - cbn [recursiveGetFiles_upto] in Htotal. unfold os_ReadDir in Htotal.
    by rewrite Hstat in Htotal.
Qed.

Lemma recursiveGetFiles_file_keys fs root t :
  wf_node fs → stat fs root = Some t → is_dir t → readable_tree t →
  recursiveGetFiles fs root = (rel_path <$> file_keys t, None).
Proof.
  intros Hwf Hstat Hdir Hread. destruct (stat_Some _ _ _ Hstat) as [Hroot Hlook].
  apply (inj Some). rewrite <-recursiveGetFiles_total by done.
  apply recursiveGetFiles_upto_tree; try done.
  - by eapply wf_lookup.
  - apply height_lookup in Hlook. lia.
Qed.

Lemma recursiveGetDirs_subdir_keys fs root t :
  wf_node fs → stat fs root = Some t → is_dir t → readable_tree t →
  recursiveGetDirs fs root = (rel_path <$> subdir_keys t, None).
Proof.
  intros Hwf Hstat Hdir Hread. destruct (stat_Some _ _ _ Hstat) as [Hroot Hlook].
  apply (inj Some). rewrite <-recursiveGetDirs_total by done.
  apply recursiveGetDirs_upto_tree; try done.
  - by eapply wf_lookup.
  - apply height_lookup in Hlook. lia.
Qed.

(** X10: on a well-formed tree, when [root] names a directory whose
    whole tree can be listed, [recursiveGetFiles] returns, without error,
    the relative path of every file below [root] and of nothing else,
    each once; and [os.ReadFile] on [root] joined with the path of a
    file reads that file. *)
Theorem recursiveGetFiles_lists_every_file fs root t :
  wf_node fs →
  stat fs root = Some t →
  is_dir t →
  readable_tree t →
  ∃ keys,
    recursiveGetFiles fs root = (rel_path <$> keys, None) ∧
    (∀ key, key ∈ keys ↔ ∃ data, lookup_node key t = Some (File data)) ∧
    NoDup (rel_path <$> keys) ∧
    (∀ key data, lookup_node key t = Some (File data) →
       os_ReadFile fs (filepath_Join [root; rel_path key]) = Ok data).
Proof.
  intros Hwf Hstat Hdir Hread. destruct (stat_Some _ _ _ Hstat) as [Hroot Hlook].
  pose proof (wf_lookup _ _ _ Hwf Hlook) as Hwft.
  assert (∀ key, key ∈ file_keys t ↔ ∃ data, lookup_node key t = Some (File data)) as Hkeys.
  { intros key. rewrite elem_of_file_keys by done. unfold file_at. split.
    - intros [_ [data Hdata]]. destruct (lookup_node key t) as [[data'|]|]; [by eexists|done..].
    - intros [data Hdata]. rewrite Hdata. split; [|by eexists].
      intros ->. injection Hdata as ->. done. }
  exists (file_keys t). split_and!.
  - by apply recursiveGetFiles_file_keys.
  - done.
  - apply NoDup_fmap_2_strong; [|by apply NoDup_file_keys].
    intros key1 key2 [? ?]%file_keys_valid [? ?]%file_keys_valid; try done.
    by apply rel_path_inj.
  - intros key data Hdata.
    destruct (file_keys_valid t key Hwft) as [Hne Hvalid]; [apply Hkeys; by eexists|].
    unfold os_ReadFile. by rewrite (stat_filepath_Join _ _ t), Hdata.
Qed.

(** X11: on a well-formed tree, [recursiveGetDirs] and
    [recursiveGetFiles] return no error exactly when the root is a
    directory and every directory below it can be listed: the two fail on
    the same trees, and a directory that cannot be listed is never
    skipped silently. *)
Theorem walks_fail_on_unreadable_directories fs root :
  wf_node fs →
  ((recursiveGetDirs fs root).2 = None ↔
     ∃ t, stat fs root = Some t ∧ is_dir t ∧ readable_tree t) ∧
  ((recursiveGetFiles fs root).2 = None ↔
     ∃ t, stat fs root = Some t ∧ is_dir t ∧ readable_tree t).
Proof.
  intros Hwf. split; split.
  - destruct (recursiveGetDirs fs root) as [dirs err] eqn:Hres. cbn. intros ->.
    by eapply recursiveGetDirs_ok.
  - intros (t & Hstat & Hdir & Hread). by rewrite (recursiveGetDirs_subdir_keys _ _ t).
  - destruct (recursiveGetFiles fs root) as [files err] eqn:Hres. cbn. intros ->.
    by eapply recursiveGetFiles_ok.
  - intros (t & Hstat & Hdir & Hread). by rewrite (recursiveGetFiles_file_keys _ _ t).
Qed.

End walk_facts.

(** ** Writing a file and reading it back *)

Section write_facts.
Implicit Types (n t fs child new : node) (entries : list (string * node))
  (key k : list string) (name path : string).

Lemma os_WriteFile_put name data fs fs' :
  os_WriteFile name data fs = (None, fs') →
  name ≠ "" ∧
  (path_key name = [] ∨ dir_at fs (removelast (path_key name))) ∧
  ¬ dir_at fs (path_key name) ∧
  fs' = put_node (path_key name) (File data) fs.
Proof.
  unfold os_WriteFile, create_at.
  destruct (stat fs name) as [[data0|r entries]|] eqn:Hstat; [| done |].
  - intros [= <-]. destruct (stat_Some _ _ _ Hstat) as [Hname Hlook]. split_and!; [done| | |done].
    + destruct (decide (path_key name = [])) as [|Hne]; [by left|right].
      apply lookup_node_parent; [done|by eexists].
    + intros (r & es & Hl). congruence.
  - case_decide as Hname; [done|]. rewrite stat_nonempty in Hstat by done.
    destruct (lookup_node (removelast (path_key name)) fs) as [[data0|r entries]|] eqn:Hparent;
      [done| |done].
    intros [= <-]. split_and!; [done|right; by eexists _, _| |done].
    intros (r' & es & Hl). congruence.
Qed.

(** A successful [os.WriteFile] sets the content of one file and changes
    nothing else: no other file, and no directory. *)
Lemma os_WriteFile_ok name data fs fs' :
  os_WriteFile name data fs = (None, fs') →
  file_at fs' (path_key name) = Some data ∧
  (∀ k, k ≠ path_key name → file_at fs' k = file_at fs k) ∧
  (∀ k, dir_at fs' k ↔ dir_at fs k).
Proof.
  intros (Hname & Hparent & Hnodir & ->)%os_WriteFile_put. split_and!.
  - unfold file_at. by rewrite lookup_put_node_eq.
  - intros k Hk. by apply file_at_put_node_File.
  - intros k. by apply dir_at_put_node_File.
Qed.

Lemma os_WriteFile_succeeds name data fs :
  name ≠ "" → dir_at fs (removelast (path_key name)) → ¬ dir_at fs (path_key name) →
  ∃ fs', os_WriteFile name data fs = (None, fs').
Proof.
  intros Hname (r & es & Hparent) Hnodir. unfold os_WriteFile, create_at.
  rewrite stat_nonempty by done.
  destruct (lookup_node (path_key name) fs) as [[data0|r0 es0]|] eqn:Hl; [by eexists| |].
  - destruct Hnodir. by exists r0, es0.
  - rewrite decide_False by done. rewrite Hparent. by eexists.
Qed.

Lemma os_WriteFile_fails name data fs :
  is_dir fs → ¬ dir_at fs (removelast (path_key name)) →
  ∃ e, os_WriteFile name data fs = (Some e, fs).
Proof.
  intros Hroot Hparent. unfold os_WriteFile, create_at.
  destruct (stat fs name) as [t|] eqn:Hstat.
  - destruct (stat_Some _ _ _ Hstat) as [Hname Hlook].
    destruct (decide (path_key name = [])) as [Hnil|Hne].
    + rewrite Hnil in Hparent. destruct Hparent. destruct fs; [done|]. by eexists _, _.
    + destruct Hparent. apply lookup_node_parent; [done|by eexists].
  - case_decide; [by eexists|].
    destruct (lookup_node (removelast (path_key name)) fs) as [[data0|r es]|] eqn:Hl;
      [by eexists| |by eexists].
    destruct Hparent. by exists r, es.
Qed.

(** X12: after [SaveOutput] has succeeded, [LoadInput] on a template
    file whose input path is that output path succeeds and loads the
    output that was saved, without changing the file system. *)
Theorem SaveOutput_then_LoadInput tf w tf' w' tf2 :
  SaveOutput tf w = (Ok tf', w') →
  InputPath tf2 = OutputPath tf →
  ∃ tf2' w'',
    LoadInput tf2 w' = (Ok tf2', w'') ∧
    Input tf2' = Output tf ∧
    fs w'' = fs w'.
Proof.
  unfold SaveOutput, LoadInput. intros Hsave Hpath.
  destruct (os_WriteFile _ _ (fs w)) as [[e|] fs'] eqn:Hwrite; [done|].
  injection Hsave as <- <-. cbn [fs log set_fs].
  destruct (os_WriteFile_put _ _ _ _ Hwrite) as (Hname & _).
  destruct (os_WriteFile_ok _ _ _ _ Hwrite) as (Hfile & _).
  unfold os_ReadFile. rewrite Hpath, stat_nonempty by done.
  unfold file_at in Hfile. destruct (lookup_node _ fs') as [[data|]|]; [|done..].
  injection Hfile as ->. by eexists _, _.
Qed.

(** X13: [SaveOutput] changes at most the file at the output path:
    every other file keeps its content and the directories are those of
    before; when it fails, nothing changes at all. *)
Theorem SaveOutput_writes_one_file tf w :
  (∀ k, k ≠ path_key (OutputPath tf) →
        file_at (fs (SaveOutput tf w).2) k = file_at (fs w) k) ∧
  (∀ k, dir_at (fs (SaveOutput tf w).2) k ↔ dir_at (fs w) k) ∧
  (∀ e, (SaveOutput tf w).1 = Err e → (SaveOutput tf w).2 = w).
Proof.
  unfold SaveOutput.
  destruct (os_WriteFile _ _ (fs w)) as [[e|] fs'] eqn:Hwrite; cbn [fst snd fs log set_fs].
  - apply os_WriteFile_error in Hwrite as ->. rewrite set_fs_same. by split_and!.
  - destruct (os_WriteFile_ok _ _ _ _ Hwrite) as (_ & Hfiles & Hdirs). by split_and!.
Qed.

End write_facts.

(** ** The validation of the flags *)

Section flags_more.
Variable flagSet_Parse : list string → Flags → Flags * option error.

(** X14: when the command line parses, [NewFlags] accepts the flags
    exactly when an input is given and each given input has its output;
    otherwise it reports the first check of the [switch] that fails,
    with its message. *)
Theorem NewFlags_validation args flags :
  flagSet_Parse args {| flag_IF := ""; flag_OF := ""; flag_ID := ""; flag_OD := "" |}
    = (flags, None) →
  (NewFlags flagSet_Parse args = (flags, None) ↔
     (flag_IF flags ≠ "" ∨ flag_ID flags ≠ "") ∧
     (flag_IF flags ≠ "" → flag_OF flags ≠ "") ∧
     (flag_ID flags ≠ "" → flag_OD flags ≠ "")) ∧
  (flag_IF flags = "" → flag_ID flags = "" →
   NewFlags flagSet_Parse args =
     (flags, Some (errorString "Required input file or input dir"))) ∧
  (flag_IF flags ≠ "" → flag_OF flags = "" →
   NewFlags flagSet_Parse args =
     (flags, Some (errorString "Required output file when using input file"))) ∧
  (flag_IF flags = "" ∨ flag_OF flags ≠ "" → flag_ID flags ≠ "" → flag_OD flags = "" →
   NewFlags flagSet_Parse args =
     (flags, Some (errorString "Required output dir when using input dir"))).
Proof.
  intros Hparse. unfold NewFlags. rewrite Hparse.
  destruct (decide (flag_IF flags = "")) as [HIF|HIF];
    destruct (decide (flag_OF flags = "")) as [HOF|HOF];
    destruct (decide (flag_ID flags = "")) as [HID|HID];
    destruct (decide (flag_OD flags = "")) as [HOD|HOD];
    repeat (first [rewrite bool_decide_eq_true_2 by tauto
                  |rewrite bool_decide_eq_false_2 by tauto]);
    (split_and!; [split; [intros [=]; tauto|intros; first [done|tauto]]|intros; first [done|tauto]..]).
Qed.

End flags_more.

Lemma NewFlags_validation_witness :
  NewFlags sample_Parse ["-if"; "in.txt"] =
    ({| flag_IF := "in.txt"; flag_OF := ""; flag_ID := ""; flag_OD := "" |},
     Some (errorString "Required output file when using input file")).
Proof.
  refine (proj1 (proj2 (proj2 (NewFlags_validation sample_Parse ["-if"; "in.txt"] _ eq_refl))) _ _);
    [discriminate|reflexivity].
Defined.

(** ** File mode *)

Section run_more.
Variable template_Template : Type.
Variable template_Parse : string → string → result template_Template.
Variable template_Execute : template_Template → TemplateContext → result string.

Local Abbreviation Template' := (Template template_Template template_Parse template_Execute).
Local Abbreviation Run' := (Run template_Template template_Parse template_Execute).
Local Abbreviation Run_phases' :=
  (Run_phases template_Template template_Parse template_Execute).

(** X15: [Run] reads only the flags of its mode: in directory mode
    ([-id] given) [-if] and [-of] are ignored, in file mode [-od] is. *)
Theorem Run_uses_the_flags_of_its_mode flags flags' w :
  flag_ID flags' = flag_ID flags →
  (flag_ID flags ≠ "" → flag_OD flags' = flag_OD flags) →
  (flag_ID flags = "" →
   flag_IF flags' = flag_IF flags ∧ flag_OF flags' = flag_OF flags) →
  Run template_Template template_Parse template_Execute flags' w =
  Run template_Template template_Parse template_Execute flags w.
Proof.
  intros HID HOD HIF. unfold Run, Run_setup. rewrite HID.
  destruct (decide (flag_ID flags = "")) as [Hfile|Hdir].
  - rewrite !bool_decide_eq_false_2 by (by intros []).
    by destruct (HIF Hfile) as [-> ->].
  - rewrite !bool_decide_eq_true_2 by done. by rewrite HOD.
Qed.

Lemma Run_file_phases flags w tx data templater out :
  flag_ID flags = "" →
  NewTemplateContext (environ w) = Ok tx →
  os_ReadFile (fs w) (flag_IF flags) = Ok data →
  template_Parse (flag_IF flags) data = Ok templater →
  template_Execute templater tx = Ok out →
  Run' flags w =
    let w2 := log (Rendered (flag_IF flags)) (log (Loaded (flag_IF flags)) w) in
    match os_WriteFile (flag_OF flags) out (fs w) with
    | (None, fs') => (Ok (), log (Saved (flag_OF flags)) (set_fs fs' w2))
    | (Some e, fs') => (Err e, set_fs fs' w2)
    end.
Proof.
  intros HID Htx Hread Hparse Hexec. unfold Run, Run_setup.
  rewrite !bool_decide_eq_false_2 by (by rewrite HID; intros []).
  rewrite Htx. unfold Run_phases. cbn [for_each].
  unfold LoadInput at 1. cbn [NewTemplateFile InputPath]. rewrite Hread.
  cbn [for_each NewTemplateFile OutputPath Output Context].
  unfold Template at 1. cbn [InputPath Input Context]. rewrite Hparse, Hexec.
  cbn [for_each]. unfold SaveOutput at 1. cbn [OutputPath Output fs log].
  by destruct (os_WriteFile _ _ (fs w)) as [[e|] fs'].
Qed.


(** X17: file mode makes no directory.  When the directory of the
    output path does not exist, [Run] loads and renders the input and
    then fails, with the file system as before. *)
Theorem Run_file_mode_creates_no_directory flags w tx data templater out :
  is_dir (fs w) →
  flag_ID flags = "" →
  NewTemplateContext (environ w) = Ok tx →
  os_ReadFile (fs w) (flag_IF flags) = Ok data →
  template_Parse (flag_IF flags) data = Ok templater →
  template_Execute templater tx = Ok out →
  ¬ dir_at (fs w) (removelast (path_key (flag_OF flags))) →
  ∃ e w',
    Run' flags w = (Err e, w') ∧
    fs w' = fs w ∧
    events w' = events w ++ [Loaded (flag_IF flags); Rendered (flag_IF flags)].
Proof.
  intros Hroot HID Htx Hread Hparse Hexec Hparent.
  rewrite (Run_file_phases _ _ _ _ _ _ HID Htx Hread Hparse Hexec). cbv zeta.
  destruct (os_WriteFile_fails (flag_OF flags) out (fs w) Hroot Hparent) as [e Hwrite].
  rewrite Hwrite. eexists _, _. split; [done|]. cbn [fs events log set_fs]. split; [done|].
  by rewrite <-!(assoc_L (++)).
Qed.

End run_more.

(** ** Directory mode *)

Section dir_mode.
Variable template_Template : Type.
Variable template_Parse : string → string → result template_Template.
Variable template_Execute : template_Template → TemplateContext → result string.

Local Abbreviation Template' := (Template template_Template template_Parse template_Execute).
Local Abbreviation Run' := (Run template_Template template_Parse template_Execute).
Local Abbreviation Run_phases' :=
  (Run_phases template_Template template_Parse template_Execute).

(** A loop whose steps keep the file system relates the template files
    it returns to the ones it was given, one by one. *)
Lemma for_each_Forall2 step (R : node → TemplateFile → TemplateFile → Prop) :
  (∀ tf w tf' w', step tf w = (Ok tf', w') → fs w' = fs w ∧ R (fs w) tf tf') →
  ∀ tfs w tfs' w',
    for_each step tfs w = (Ok tfs', w') → fs w' = fs w ∧ Forall2 (R (fs w)) tfs tfs'.
Proof.
  intros Hstep. induction tfs as [|tf tfs IH]; intros w tfs' w'; cbn [for_each].
  - intros [= <- <-]. by split.
  - destruct (step tf w) as [[tf1|e|p] w1] eqn:Hs; [|done..].
    destruct (for_each step tfs w1) as [[rest|e|p] w2] eqn:Hrest; [|done..].
    intros [= <- <-]. destruct (Hstep _ _ _ _ Hs) as [Hfs HR].
    destruct (IH _ _ _ Hrest) as [Hfs' Hall]. rewrite Hfs in Hfs', Hall.
    split; [done|]. by constructor.
Qed.

Lemma for_each_LoadInput_ok tfs w loaded w1 :
  for_each LoadInput tfs w = (Ok loaded, w1) →
  fs w1 = fs w ∧
  Forall2 (λ tf tf', os_ReadFile (fs w) (InputPath tf) = Ok (Input tf') ∧
                     InputPath tf' = InputPath tf ∧ OutputPath tf' = OutputPath tf ∧
                     Context tf' = Context tf) tfs loaded.
Proof.
  apply (for_each_Forall2 LoadInput
           (λ fs0 tf tf', os_ReadFile fs0 (InputPath tf) = Ok (Input tf') ∧
                          InputPath tf' = InputPath tf ∧ OutputPath tf' = OutputPath tf ∧
                          Context tf' = Context tf)).
  intros tf w0 tf' w'. unfold LoadInput.
  destruct (os_ReadFile _ _) as [b|e|p]; [|done..]. by intros [= <- <-].
Qed.

Lemma for_each_Template_ok loaded w1 rendered w2 :
  for_each Template' loaded w1 = (Ok rendered, w2) →
  fs w2 = fs w1 ∧
  Forall2 (λ tf tf', ∃ templater,
             template_Parse (InputPath tf) (Input tf) = Ok templater ∧
             template_Execute templater (Context tf) = Ok (Output tf') ∧
             OutputPath tf' = OutputPath tf) loaded rendered.
Proof.
  apply (for_each_Forall2 Template'
           (λ _ tf tf', ∃ templater,
              template_Parse (InputPath tf) (Input tf) = Ok templater ∧
              template_Execute templater (Context tf) = Ok (Output tf') ∧
              OutputPath tf' = OutputPath tf)).
  intros tf w0 tf' w'. unfold Template.
  destruct (template_Parse _ _) as [templater|e|p]; [|done..].
  destruct (template_Execute _ _) as [buf|e|p] eqn:Hexec; [|done..].
  intros [= <- <-]. split; [done|]. by exists templater.
Qed.

(** When every file is saved, each output path holds its output, if no
    two template files have the same output path. *)
Lemma for_each_SaveOutput_ok rendered w2 saved w3 :
  for_each SaveOutput rendered w2 = (Ok saved, w3) →
  NoDup ((λ tf, path_key (OutputPath tf)) <$> rendered) →
  Forall (λ tf, file_at (fs w3) (path_key (OutputPath tf)) = Some (Output tf)) rendered ∧
  (∀ k, k ∉ (λ tf, path_key (OutputPath tf)) <$> rendered →
        file_at (fs w3) k = file_at (fs w2) k) ∧
  (∀ k, dir_at (fs w3) k ↔ dir_at (fs w2) k).
Proof.
  revert w2 saved. induction rendered as [|tf rendered IH]; intros w2 saved; cbn [for_each].
  - intros [= <- <-] _. by split_and!.
  - destruct (SaveOutput tf w2) as [[tf1|e|p] w2'] eqn:Hs; [|done..].
    destruct (for_each SaveOutput rendered w2') as [[rest|e|p] w3'] eqn:Hrest; [|done..].
    intros [= <- <-]. rewrite fmap_cons. intros [Hnotin Hnd]%NoDup_cons.
    destruct (IH _ _ Hrest Hnd) as (Hall & Hothers & Hdirs).
    unfold SaveOutput in Hs.
    destruct (os_WriteFile _ _ (fs w2)) as [[e|] fs'] eqn:Hwrite; [done|].
    injection Hs as <- <-. cbn [fs log set_fs] in *.
    destruct (os_WriteFile_ok _ _ _ _ Hwrite) as (Hfile & Hfiles & Hdirs').
    split_and!.
    + constructor; [|done]. by rewrite Hothers.
    + intros k [Hk Hin]%not_elem_of_cons. rewrite Hothers by done. by apply Hfiles.
    + intros k. by rewrite Hdirs.
Qed.

Lemma file_at_app fs key1 key2 t :
  lookup_node key1 fs = Some t → file_at fs (key1 ++ key2) = file_at t key2.
Proof. intros Hl. unfold file_at. by rewrite lookup_node_app, Hl. Qed.

Lemma Run_directory_setup flags w tfs w0 :
  wf_node (fs w) →
  flag_ID flags ≠ "" →
  Run_setup flags w = (Ok tfs, w0) →
  ∃ tx t,
    NewTemplateContext (environ w) = Ok tx ∧
    wf_node (fs w0) ∧
    fs w0 = (recursiveCopyDir (flag_ID flags) (flag_OD flags) (fs w)).2 ∧
    stat (fs w0) (flag_ID flags) = Some t ∧ is_dir t ∧ readable_tree t ∧
    tfs = (λ key, NewTemplateFile tx
                    (filepath_Join [flag_ID flags; rel_path key])
                    (filepath_Join [flag_OD flags; rel_path key])) <$> file_keys t.
Proof.
  intros Hwf HID. unfold Run_setup. rewrite !bool_decide_eq_true_2 by done.
  pose proof (wf_recursiveCopyDir (flag_ID flags) (flag_OD flags) (fs w) Hwf) as Hwf1.
  destruct (recursiveCopyDir _ _ (fs w)) as [[e|] fs1]; [done|]. cbn [snd] in Hwf1.
  cbn [environ set_fs fs].
  destruct (NewTemplateContext (environ w)) as [tx|e|p]; [|done..].
  destruct (recursiveGetFiles fs1 (flag_ID flags)) as [files [e|]] eqn:Hfiles; [done|].
  intros [= <- <-]. cbn [fs].
  destruct (recursiveGetFiles_ok _ _ _ Hwf1 Hfiles) as (t & Hstat & Hdir & Hread).
  rewrite (recursiveGetFiles_file_keys _ _ t) in Hfiles by done. injection Hfiles as <-.
  exists tx, t. split_and!; try done. by rewrite <-list_fmap_compose.
Qed.

Lemma Forall2_elem_of_l {A B} (P : A → B → Prop) (l : list A) (k : list B) :
  Forall2 P l k → Forall2 (λ x y, x ∈ l ∧ P x y) l k.
Proof.
  induction 1 as [|x y l k HP _ IH]; constructor; [by split; [left|]|].
  eapply Forall2_impl; [exact IH|]. intros x' y' [? ?]. by split; [right|].
Qed.

Lemma for_each_LoadInput_total tfs w :
  Forall (λ tf, is_Ok (os_ReadFile (fs w) (InputPath tf))) tfs →
  ∃ loaded w1, for_each LoadInput tfs w = (Ok loaded, w1).
Proof.
  intros Hall. revert w Hall. induction tfs as [|tf tfs IH]; intros w Hall; cbn [for_each].
  { by eexists _, _. }
  apply Forall_cons in Hall as [Hread Hall]. unfold LoadInput at 1.
  destruct (os_ReadFile (fs w) (InputPath tf)) as [b|e|p]; [|done..].
  destruct (IH (log (Loaded (InputPath tf)) w) Hall) as (loaded & w1 & ->). by eexists _, _.
Qed.

(** The files of the input directory, before and after the mirroring. *)
Lemma input_files flags w w0 t key :
  fs w0 = (recursiveCopyDir (flag_ID flags) (flag_OD flags) (fs w)).2 →
  stat (fs w0) (flag_ID flags) = Some t →
  file_at (fs w) (path_key (flag_ID flags) ++ key) = file_at t key.
Proof.
  intros Hfs0 [_ Hl]%stat_Some.
  by rewrite <-(recursiveCopyDir_files (flag_ID flags) (flag_OD flags)), <-Hfs0,
    (file_at_app _ _ _ t).
Qed.

Lemma os_ReadFile_file_at fs0 root t key data :
  stat fs0 root = Some t → key ≠ [] → Forall valid_name key →
  file_at t key = Some data →
  os_ReadFile fs0 (filepath_Join [root; rel_path key]) = Ok data.
Proof.
  intros Hstat Hne Hvalid Hfile. unfold os_ReadFile.
  rewrite (stat_filepath_Join _ _ t) by done. unfold file_at in Hfile.
  by destruct (lookup_node key t) as [[data'|]|]; simplify_eq.
Qed.

Lemma Run_directory_loads flags w tfs w0 :
  wf_node (fs w) →
  flag_ID flags ≠ "" →
  Run_setup flags w = (Ok tfs, w0) →
  ∃ loaded w1,
    for_each LoadInput tfs w0 = (Ok loaded, w1) ∧
    Forall2 (λ tf tf', file_at (fs w) (path_key (InputPath tf)) = Some (Input tf'))
            tfs loaded.
Proof.
  intros Hwf HID Hsetup.
  destruct (Run_directory_setup _ _ _ _ Hwf HID Hsetup)
    as (tx & t & Htx & Hwf0 & Hfs0 & Hstat & Hdir & Hread & ->).
  pose proof (wf_lookup _ _ _ Hwf0 (proj2 (stat_Some _ _ _ Hstat))) as Hwft.
  destruct (for_each_LoadInput_total
              ((λ key, NewTemplateFile tx (filepath_Join [flag_ID flags; rel_path key])
                         (filepath_Join [flag_OD flags; rel_path key])) <$> file_keys t) w0)
    as (loaded & w1 & Hload).
  { apply Forall_fmap, Forall_forall. intros key Hkey. cbn [InputPath NewTemplateFile compose].
    destruct (file_keys_valid _ _ Hwft Hkey) as [Hne Hvalid].
    apply elem_of_file_keys in Hkey as [_ [data Hdata]]; [|done].
    by rewrite (os_ReadFile_file_at _ _ t _ data). }
  exists loaded, w1. split; [done|].
  destruct (for_each_LoadInput_ok _ _ _ _ Hload) as [_ Hall].
  apply Forall2_fmap_l. apply Forall2_fmap_l, Forall2_elem_of_l in Hall.
  eapply Forall2_impl; [exact Hall|]. intros key tf' (Hkey & Hr & _).
  cbn [compose InputPath NewTemplateFile] in Hr |- *.
  destruct (file_keys_valid _ _ Hwft Hkey) as [Hne Hvalid].
  apply elem_of_file_keys in Hkey as [_ [data Hdata]]; [|done].
  rewrite (os_ReadFile_file_at _ _ t _ data) in Hr by done. injection Hr as <-.
  by rewrite path_key_filepath_Join, (input_files flags w w0 t).
Qed.


(** A successful run in directory mode, phase by phase. *)
Lemma Run_directory_phases flags w w' :
  wf_node (fs w) →
  flag_ID flags ≠ "" →
  Run' flags w = (Ok (), w') →
  ∃ tx t w0 rendered,
    NewTemplateContext (environ w) = Ok tx ∧
    wf_node t ∧ is_dir t ∧
    (∀ key, file_at (fs w) (path_key (flag_ID flags) ++ key) = file_at t key) ∧
    (∀ key, file_at (fs w0) key = file_at (fs w) key) ∧
    (∀ key, dir_at (fs w) key → dir_at (fs w0) key) ∧
    Forall2 (λ key tf, ∃ data templater,
               file_at t key = Some data ∧
               template_Parse (filepath_Join [flag_ID flags; rel_path key]) data
                 = Ok templater ∧
               template_Execute templater tx = Ok (Output tf) ∧
               OutputPath tf = filepath_Join [flag_OD flags; rel_path key])
            (file_keys t) rendered ∧
    ∃ saved w2, fs w2 = fs w0 ∧ for_each SaveOutput rendered w2 = (Ok saved, w').
Proof.
  intros Hwf HID. unfold Run.
  destruct (Run_setup flags w) as [[tfs|e|p] w0] eqn:Hsetup; [|done..].
  destruct (Run_directory_setup _ _ _ _ Hwf HID Hsetup)
    as (tx & t & Htx & Hwf0 & Hfs0 & Hstat & Hdir & Hread & ->).
  pose proof (wf_lookup _ _ _ Hwf0 (proj2 (stat_Some _ _ _ Hstat))) as Hwft.
  unfold Run_phases.
  destruct (for_each LoadInput _ w0) as [[loaded|e|p] w1] eqn:Hload; [|done..].
  destruct (for_each Template' loaded w1) as [[rendered|e|p] w2] eqn:Hrender; [|done..].
  destruct (for_each SaveOutput rendered w2) as [[saved|e|p] w3] eqn:Hsave; [|done..].
  intros [= <-].
  destruct (for_each_LoadInput_ok _ _ _ _ Hload) as [Hfs1 Hloaded].
  destruct (for_each_Template_ok _ _ _ _ Hrender) as [Hfs2 Hrendered].
  exists tx, t, w0, rendered. split_and!; [done..| | | | |].
  - intros key. by apply (input_files flags w w0).
  - intros key. rewrite Hfs0. apply recursiveCopyDir_files.
  - intros key. rewrite Hfs0. apply recursiveCopyDir_dirs.
  - apply Forall2_fmap_l, Forall2_elem_of_l in Hloaded.
    eapply Forall2_trans; [|exact Hloaded|exact Hrendered].
    intros key tf tf' (Hkey & Hr & HIn & HOut & Hctx) (templater & Hparse & Hexec & HOut').
    cbn [compose InputPath OutputPath Context NewTemplateFile] in Hr, HIn, HOut, Hctx.
    destruct (file_keys_valid _ _ Hwft Hkey) as [Hne Hvalid].
    apply elem_of_file_keys in Hkey as [_ [data Hdata]]; [|done].
    rewrite (os_ReadFile_file_at _ _ t _ data) in Hr by done. injection Hr as Hr.
    exists data, templater. rewrite HIn, <-Hr, Hctx in *. rewrite HOut', HOut. done.
  - exists saved, w2. split; [congruence|done].
Qed.

(** X19: directory mode, when [Run] returns nil on a well-formed
    tree.  For every file below [-id], the file at the same relative path
    below [-od] holds the rendering of the content the input file had
    before the run, parsed under the name of the input path and executed
    on the environment of the process; every file that is not such an
    output is as before, and every directory is still there. *)
Theorem Run_directory_mode flags w w' :
  wf_node (fs w) →
  flag_ID flags ≠ "" →
  Run' flags w = (Ok (), w') →
  ∃ tx,
    NewTemplateContext (environ w) = Ok tx ∧
    (∀ key data,
       file_at (fs w) (path_key (flag_ID flags) ++ key) = Some data →
       ∃ templater out,
         template_Parse (filepath_Join [flag_ID flags; rel_path key]) data = Ok templater ∧
         template_Execute templater tx = Ok out ∧
         file_at (fs w') (path_key (flag_OD flags) ++ key) = Some out) ∧
    (∀ k,
       (∀ key, is_Some (file_at (fs w) (path_key (flag_ID flags) ++ key)) →
               k ≠ path_key (flag_OD flags) ++ key) →
       file_at (fs w') k = file_at (fs w) k) ∧
    (∀ k, dir_at (fs w) k → dir_at (fs w') k).
Proof.
  intros Hwf HID Hrun.
  destruct (Run_directory_phases _ _ _ Hwf HID Hrun)
    as (tx & t & w0 & rendered & Htx & Hwft & Hdir & Hin & Hfiles0 & Hdirs0 & Hall &
        saved & w2 & Hfs2 & Hsave).
  assert ((λ tf, path_key (OutputPath tf)) <$> rendered
          = (λ key, path_key (flag_OD flags) ++ key) <$> file_keys t) as Hkeys.
  { symmetry. apply list_eq_Forall2, Forall2_fmap. apply Forall2_elem_of_l in Hall.
    eapply Forall2_impl; [exact Hall|]. intros key tf (Hkey & data & templater & _ & _ & _ & ->).
    destruct (file_keys_valid _ _ Hwft Hkey) as [Hne Hvalid].
    by rewrite path_key_filepath_Join. }
  destruct (for_each_SaveOutput_ok _ _ _ _ Hsave) as (Hsaved & Hothers & Hdirs).
  { rewrite Hkeys. apply NoDup_fmap_2; [|by apply NoDup_file_keys].
    intros key1 key2. apply app_inv_head. }
  exists tx. split_and!; [done| | |].
  - intros key data. rewrite Hin. intros Hdata.
    assert (key ∈ file_keys t) as Hkey.
    { apply elem_of_file_keys; [done|]. split; [|by eexists].
      intros ->. by destruct t. }
    destruct (list_elem_of_lookup_1 _ _ Hkey) as [i Hi].
    destruct (Forall2_lookup_l _ _ _ _ _ Hall Hi)
      as (tf & Htf & data' & templater & Hdata' & Hparse & Hexec & Hout).
    assert (data' = data) as -> by congruence.
    exists templater, (Output tf). split_and!; [done..|].
    destruct (file_keys_valid _ _ Hwft Hkey) as [Hne Hvalid].
    rewrite <-(path_key_filepath_Join (flag_OD flags) key), <-Hout by done.
    apply (proj1 (Forall_forall _ _) Hsaved). by eapply list_elem_of_lookup_2.
  - intros k Hk. rewrite Hothers, Hfs2; [done|]. rewrite Hkeys.
    intros (key & -> & Hkey)%list_elem_of_fmap. apply (Hk key); [|done].
    rewrite Hin. by apply elem_of_file_keys in Hkey as [_ ?].
  - intros k Hk. apply Hdirs. rewrite Hfs2. by apply Hdirs0.
Qed.

End dir_mode.

(** ** When the mirror succeeds *)

Section mirror_succeeds.
Implicit Types (n t fs child new : node) (entries : list (string * node))
  (key k : list string) (name path : string).

Lemma dir_at_prefix n key1 key2 : dir_at n (key1 ++ key2) → dir_at n key1.
Proof.
  intros (r & es & Hl). destruct key2 as [|name key2].
  - rewrite app_nil_r in Hl. by exists r, es.
  - rewrite lookup_node_app in Hl.
    destruct (lookup_node key1 n) as [[data|r' es']|] eqn:Hl1; [done| |done].
    by exists r', es'.
Qed.

Lemma prefix_removelast (k key : list string) :
  k `prefix_of` key → k ≠ key → k `prefix_of` removelast key.
Proof.
  intros [rest ->] Hne. destruct (decide (rest = [])) as [->|Hrest].
  - by rewrite app_nil_r in Hne.
  - rewrite removelast_app by done. by apply prefix_app_r.
Qed.

(** [safeMkdir] makes no directory but the one at its path. *)
Lemma safeMkdir_new_dirs path fs k :
  dir_at (safeMkdir path fs).2 k → dir_at fs k ∨ k = path_key path.
Proof.
  destruct (safeMkdir path fs) as [err fs'] eqn:Hmk. cbn [snd]. intros Hk.
  destruct (decide (exists_at fs path)) as [Hex|Hno].
  { rewrite safeMkdir_exists in Hmk by done. injection Hmk as <- <-. by left. }
  destruct err as [e|].
  { apply safeMkdir_error in Hmk as ->. by left. }
  destruct (safeMkdir_new _ _ _ Hno Hmk) as (_ & Hnone & Hparent & ->).
  destruct (decide (k = path_key path)) as [|Hne]; [by right|]. left.
  destruct (decide (k `prefix_of` path_key path)) as [Hpre|Hpre].
  - apply prefix_removelast in Hpre as [rest Hrest]; [|done].
    rewrite Hrest in Hparent. by eapply dir_at_prefix.
  - unfold dir_at in *. by rewrite lookup_put_node_other in Hk.
Qed.

(** What [safeMkdir] returns no error for is a directory, unless a file
    was there. *)
Lemma safeMkdir_dir path fs fs' :
  safeMkdir path fs = (None, fs') → path ≠ "" →
  file_at fs (path_key path) = None →
  dir_at fs' (path_key path).
Proof.
  intros Hmk Hpath Hfile. destruct (decide (exists_at fs path)) as [Hex|Hno].
  - rewrite safeMkdir_exists in Hmk by done. injection Hmk as <-.
    destruct Hex as [t Ht]. rewrite stat_nonempty in Ht by done.
    unfold file_at in Hfile. rewrite Ht in Hfile. destruct t as [|r es]; [done|].
    by exists r, es.
  - destruct (safeMkdir_new _ _ _ Hno Hmk) as (_ & Hnone & Hparent & ->).
    exists true, []. apply lookup_put_node_eq. by right.
Qed.

Lemma safeMkdir_succeeds path fs :
  path ≠ "" → dir_at fs (removelast (path_key path)) →
  ∃ fs', safeMkdir path fs = (None, fs').
Proof.
  intros Hpath (r & es & Hparent). unfold safeMkdir, os_Mkdir, create_at.
  destruct (stat fs path); [by eexists|].
  rewrite decide_False by done. rewrite Hparent. by eexists.
Qed.

(** The loop of [recursiveCopyDir] succeeds on keys that come parents
    first, when no file is in the way. *)
Lemma safeMkdir_each_succeeds rmt done todo fs :
  Forall (λ k, k ≠ [] ∧ Forall valid_name k) todo →
  (∀ i k, todo !! i = Some k →
          removelast k = [] ∨ removelast k ∈ done ++ take i todo) →
  dir_at fs (path_key rmt) →
  (∀ k, k ∈ done → dir_at fs (path_key rmt ++ k)) →
  (∀ k, k ∈ todo → file_at fs (path_key rmt ++ k) = None) →
  ∃ fs', safeMkdir_each rmt (rel_path <$> todo) fs = (None, fs') ∧
         ∀ k, k ∈ todo → dir_at fs' (path_key rmt ++ k).
Proof.
  revert done fs. induction todo as [|k todo IH]; intros done fs Hvalid Hparents Hrmt Hdone Hfiles.
  { exists fs. split; [done|]. by intros k ?%elem_of_nil. }
  apply Forall_cons in Hvalid as [[Hne Hk] Hvalid].
  rewrite fmap_cons. cbn [safeMkdir_each].
  assert (filepath_Join [rmt; rel_path k] ≠ "") as Hpath by by apply filepath_Join_nonempty.
  pose proof (path_key_filepath_Join rmt k Hne Hk) as Hkey.
  destruct (safeMkdir_succeeds (filepath_Join [rmt; rel_path k]) fs) as [fs1 Hmk]; [done| |].
  { rewrite Hkey, removelast_app by done.
    destruct (Hparents 0 k eq_refl) as [->|Hin].
    - by rewrite app_nil_r.
    - rewrite take_0, app_nil_r in Hin. by apply Hdone. }
  rewrite Hmk.
  pose proof (safeMkdir_dir _ _ _ Hmk Hpath) as Hnew. rewrite Hkey in Hnew.
  specialize (Hnew (Hfiles k (list_elem_of_here _ _))).
  assert (∀ k', dir_at fs k' → dir_at fs1 k') as Hkeep.
  { intros k' Hk'. pose proof (safeMkdir_dirs (filepath_Join [rmt; rel_path k]) fs k' Hk') as H.
    by rewrite Hmk in H. }
  assert (∀ k', file_at fs1 k' = file_at fs k') as Hsame.
  { intros k'. pose proof (safeMkdir_files (filepath_Join [rmt; rel_path k]) fs k') as H.
    by rewrite Hmk in H. }
  destruct (IH (done ++ [k]) fs1) as (fs' & Heach & Hdirs); [done| | | | |].
  - intros i k' Hi. destruct (Hparents (S i) k' Hi) as [?|Hin]; [by left|right].
    by rewrite <-(assoc_L (++)).
  - by apply Hkeep.
  - intros k' [Hk'|Hk'%list_elem_of_singleton]%elem_of_app; [by apply Hkeep, Hdone|by subst].
  - intros k' Hk'. rewrite Hsame. apply Hfiles. by right.
  - exists fs'. split; [done|]. intros k' [->|Hk']%elem_of_cons; [|by apply Hdirs].
    pose proof (safeMkdir_each_dirs rmt (rel_path <$> todo) fs1 _ Hnew) as H.
    by rewrite Heach in H.
Qed.

Lemma safeMkdir_each_new_dirs rmt keys fs k :
  Forall (λ k, k ≠ [] ∧ Forall valid_name k) keys →
  dir_at (safeMkdir_each rmt (rel_path <$> keys) fs).2 k →
  dir_at fs k ∨ ∃ key, key ∈ keys ∧ k = path_key rmt ++ key.
Proof.
  intros Hvalid. revert fs. induction Hvalid as [|key keys [Hne Hkey] _ IH]; intros fs;
    [by left|].
  rewrite fmap_cons. cbn [safeMkdir_each].
  pose proof (safeMkdir_new_dirs (filepath_Join [rmt; rel_path key]) fs k) as Hnew.
  rewrite path_key_filepath_Join in Hnew by done.
  destruct (safeMkdir _ fs) as [[e|] fs1]; cbn [snd] in *.
  - intros [?| ->]%Hnew; [by left|right]. exists key. by split; [left|].
  - intros [[?| ->]%Hnew|(key' & Hin & ->)]%IH; [by left|right..].
    + exists key. by split; [left|].
    + exists key'. by split; [right|].
Qed.

(** In [subdir_keys] a directory comes after the directory it is in. *)
Lemma subdir_keys_parent_first t i k :
  wf_node t → subdir_keys t !! i = Some k →
  removelast k = [] ∨ removelast k ∈ take i (subdir_keys t).
Proof.
  intros Hwf Hi. destruct (decide (removelast k = [])) as [|Hp]; [by left|right].
  assert (k ∈ subdir_keys t) as Hk by by eapply list_elem_of_lookup_2.
  pose proof Hk as [Hne Hdir]%elem_of_subdir_keys; [|done].
  assert (removelast k ∈ subdir_keys t) as Hparent.
  { apply elem_of_subdir_keys; [done|]. split; [done|].
    apply lookup_node_parent; [done|]. destruct Hdir as (r & es & ->). by eexists. }
  destruct (subdir_keys_contiguous t _ Hwf Hparent) as (before & below & after & Heq & Hbelow).
  assert (k ∈ below) as Hin.
  { apply Hbelow. split_and!; [done| |].
    - exists [List.last k ""]. by apply app_removelast_last.
    - intros Heq'. apply (f_equal length) in Heq'.
      rewrite (app_removelast_last "" Hne) in Heq' at 2. rewrite length_app in Heq'.
      cbn in Heq'. lia. }
  apply list_elem_of_split in Hin as (b1 & b2 & ->).
  assert (i = length (before ++ removelast k :: b1)) as ->.
  { eapply NoDup_lookup; [by apply NoDup_subdir_keys|done|].
    rewrite Heq. rewrite <-(assoc_L (++) b1), (app_comm_cons b1), (assoc_L (++) before).
    rewrite <-app_comm_cons. by apply list_lookup_middle. }
  rewrite Heq. rewrite <-(assoc_L (++) b1), (app_comm_cons b1), (assoc_L (++) before).
  rewrite take_app_length. apply elem_of_app. right. left.
Qed.

(** The mirror succeeds when the destination can be made and no file
    of it is where a directory of the source goes; then a directory is
    there for each directory of the source, and no other directory is
    new. *)
Lemma recursiveCopyDir_succeeds src rmt fs t :
  wf_node fs →
  stat fs src = Some t → is_dir t → readable_tree t →
  apart src rmt →
  rmt ≠ "" →
  dir_at fs (removelast (path_key rmt)) →
  (∀ k, dir_at t k → file_at fs (path_key rmt ++ k) = None) →
  ∃ fs',
    recursiveCopyDir src rmt fs = (None, fs') ∧
    wf_node fs' ∧ stat fs' src = Some t ∧
    (∀ k, dir_at t k → dir_at fs' (path_key rmt ++ k)) ∧
    (∀ k, dir_at fs' k → dir_at fs k ∨ ∃ key, dir_at t key ∧ k = path_key rmt ++ key).
Proof.
  intros Hwf Hstat Hdir Hread Hapart Hrmt Hparent Hfiles.
  destruct (stat_Some _ _ _ Hstat) as [Hsrc Hlook].
  pose proof (wf_lookup _ _ _ Hwf Hlook) as Hwft.
  assert (dir_at t []) as Hroot by (destruct t; [done|by eexists _, _]).
  unfold recursiveCopyDir.
  destruct (safeMkdir_succeeds rmt fs Hrmt Hparent) as [fs1 Hmk]. rewrite Hmk.
  pose proof (wf_safeMkdir rmt fs Hwf) as Hwf1. rewrite Hmk in Hwf1. cbn [snd] in Hwf1.
  assert (stat fs1 src = Some t) as Hstat1.
  { rewrite stat_nonempty, <-Hlook by done.
    pose proof (safeMkdir_lookup_other rmt fs (path_key src) (proj1 Hapart)) as H.
    by rewrite Hmk in H. }
  rewrite (recursiveGetDirs_subdir_keys _ _ t) by done.
  assert (dir_at fs1 (path_key rmt)) as Hrmt1.
  { apply (safeMkdir_dir _ _ _ Hmk Hrmt). specialize (Hfiles [] Hroot).
    by rewrite app_nil_r in Hfiles. }
  assert (Forall (λ k, k ≠ [] ∧ Forall valid_name k) (subdir_keys t)) as Hvalid.
  { apply Forall_forall. intros k. by apply subdir_keys_valid. }
  destruct (safeMkdir_each_succeeds rmt [] (subdir_keys t) fs1) as (fs2 & Heach & Hdirs).
  - done.
  - intros i k Hi. by apply subdir_keys_parent_first.
  - done.
  - by intros k ?%elem_of_nil.
  - intros k [_ Hk]%elem_of_subdir_keys; [|done].
    pose proof (safeMkdir_files rmt fs (path_key rmt ++ k)) as H. rewrite Hmk in H.
    cbn [snd] in H. rewrite H. by apply Hfiles.
  - rewrite Heach. exists fs2. split; [done|].
    destruct (safeMkdir_each_keeps src rmt (rel_path <$> subdir_keys t) fs1) as [Hwf2 Hstat2];
      [done| |done|].
    { apply Forall_fmap, Forall_forall. intros k [? ?]%subdir_keys_valid; [|done].
      by exists k. }
    rewrite Heach in Hwf2, Hstat2. cbn [snd] in Hwf2, Hstat2.
    split_and!; [done|congruence| |].
    + intros k Hk. destruct (decide (k = [])) as [->|Hne].
      * rewrite app_nil_r.
        pose proof (safeMkdir_each_dirs rmt (rel_path <$> subdir_keys t) fs1 _ Hrmt1) as H.
        by rewrite Heach in H.
      * apply Hdirs. by apply elem_of_subdir_keys.
    + intros k Hk.
      pose proof (safeMkdir_each_new_dirs rmt (subdir_keys t) fs1 k Hvalid) as H.
      rewrite Heach in H. destruct (H Hk) as [Hk1|(key & Hkey & ->)].
      * pose proof (safeMkdir_new_dirs rmt fs k) as H1. rewrite Hmk in H1.
        destruct (H1 Hk1) as [?| ->]; [by left|right].
        exists []. by rewrite app_nil_r.
      * right. exists key. split; [|done]. by apply elem_of_subdir_keys in Hkey as [_ ?].
Qed.

End mirror_succeeds.

(** ** When directory mode succeeds *)

Section run_succeeds.
Variable template_Template : Type.
Variable template_Parse : string → string → result template_Template.
Variable template_Execute : template_Template → TemplateContext → result string.

Local Abbreviation Template' := (Template template_Template template_Parse template_Execute).
Local Abbreviation Run' := (Run template_Template template_Parse template_Execute).

Lemma for_each_Template_total loaded w1 :
  Forall (λ tf, ∃ templater out,
            template_Parse (InputPath tf) (Input tf) = Ok templater ∧
            template_Execute templater (Context tf) = Ok out) loaded →
  ∃ rendered w2, for_each Template' loaded w1 = (Ok rendered, w2).
Proof.
  intros Hall. revert w1. induction Hall as [|tf loaded (templater & out & Hp & He) _ IH];
    intros w1; cbn [for_each]; [by eexists _, _|].
  unfold Template at 1. rewrite Hp, He.
  destruct (IH (log (Rendered (InputPath tf)) w1)) as (rendered & w2 & ->). by eexists _, _.
Qed.

Lemma for_each_SaveOutput_total rendered w2 :
  Forall (λ tf, OutputPath tf ≠ "" ∧
                dir_at (fs w2) (removelast (path_key (OutputPath tf))) ∧
                ¬ dir_at (fs w2) (path_key (OutputPath tf))) rendered →
  ∃ saved w3, for_each SaveOutput rendered w2 = (Ok saved, w3).
Proof.
  revert w2. induction rendered as [|tf rendered IH]; intros w2 Hall; cbn [for_each];
    [by eexists _, _|].
  apply Forall_cons in Hall as [(Hne & Hparent & Hnodir) Hall]. unfold SaveOutput at 1.
  destruct (os_WriteFile_succeeds _ (Output tf) _ Hne Hparent Hnodir) as [fs' Hwrite].
  rewrite Hwrite. destruct (os_WriteFile_ok _ _ _ _ Hwrite) as (_ & _ & Hdirs).
  destruct (IH (log (Saved (OutputPath tf)) (set_fs fs' w2))) as (saved & w3 & ->);
    [|by eexists _, _].
  cbn [fs log set_fs]. eapply Forall_impl; [exact Hall|]. intros tf' (? & ? & ?).
  by rewrite !Hdirs.
Qed.


End run_succeeds.

(** ** The flags that reach [Run] *)

Section main_facts.
Variable flagSet_Parse : list string → Flags → Flags * option error.
Variable template_Template : Type.
Variable template_Parse : string → string → result template_Template.
Variable template_Execute : template_Template → TemplateContext → result string.

(** X21: [main] calls [Run] only with flags that passed the
    validation: in directory mode the output directory is given, in file
    mode the input and the output file are; and when [NewFlags] reports
    an error, [main] exits with [Failed parse flags] and the world is as
    before. *)
Theorem main_runs_validated_flags args w :
  match NewFlags flagSet_Parse args with
  | (flags, Some e) =>
      main flagSet_Parse template_Template template_Parse template_Execute args w
        = (Fatalf "Failed parse flags: %v\n" e, w)
  | (flags, None) =>
      (flag_ID flags ≠ "" → flag_OD flags ≠ "") ∧
      (flag_ID flags = "" → flag_IF flags ≠ "" ∧ flag_OF flags ≠ "") ∧
      main flagSet_Parse template_Template template_Parse template_Execute args w =
        match Run template_Template template_Parse template_Execute flags w with
        | (Ok _, w') => (Exit0, w')
        | (Err e, w') => (Fatalf "Failed run: %v\n" e, w')
        | (Panic p, w') => (Crash p, w')
        end
  end.
Proof.
  unfold main. destruct (NewFlags flagSet_Parse args) as [flags [e|]] eqn:Hflags; [done|].
  split_and!; [| |done]; revert Hflags; unfold NewFlags;
    destruct (flagSet_Parse args _) as [flags0 [e|]]; try done;
    repeat case_bool_decide; intros [= ->]; naive_solver.
Qed.

End main_facts.

Example recursiveGetFiles_locked :
  recursiveGetFiles locked_fs "src" = (["a.txt"], Some (PathError "open" "src/secret" EACCES)) ∧
  recursiveGetDirs locked_fs "src" = (["secret"], Some (PathError "open" "src/secret" EACCES)).
Proof. split; vm_compute; reflexivity. Qed.

(** ** More sample runs *)


Lemma recursiveGetFiles_lists_every_file_witness :
  wf_node sample_fs ∧
  ∃ keys, recursiveGetFiles sample_fs "src" = (rel_path <$> keys, None) ∧
          NoDup (rel_path <$> keys) ∧
          os_ReadFile sample_fs (filepath_Join ["src"; rel_path ["sub"; "b.txt"]]) = Ok "B".
Proof.
  split; [exact wf_sample_fs|].
  destruct (recursiveGetFiles_lists_every_file sample_fs "src"
              (Dir true [("a.txt", File "A");
                         ("sub", Dir true [("b.txt", File "B"); ("empty", Dir true [])])])
              wf_sample_fs eq_refl I)
    as (keys & Hfiles & _ & Hnd & Hread); [solve_readable_tree|].
  exists keys. split; [exact Hfiles|]. split; [exact Hnd|].
  exact (Hread ["sub"; "b.txt"] "B" eq_refl).
Defined.

Lemma walks_fail_on_unreadable_directories_witness :
  wf_node sample_fs ∧
  (recursiveGetDirs sample_fs "src").2 = None ∧
  (recursiveGetFiles sample_fs "src").2 = None.
Proof.
  split; [exact wf_sample_fs|].
  destruct (walks_fail_on_unreadable_directories sample_fs "src" wf_sample_fs) as [Hdirs Hfiles].
  assert (∃ t, stat sample_fs "src" = Some t ∧ is_dir t ∧ readable_tree t) as Ht.
  { eexists. split; [reflexivity|]. split; [exact I|]. solve_readable_tree. }
  split; [exact (proj2 Hdirs Ht)|exact (proj2 Hfiles Ht)].
Defined.

Lemma SaveOutput_then_LoadInput_witness :
  ∃ tf' w',
    SaveOutput {| InputPath := "in.txt"; Input := hello_template; OutputPath := "out.txt";
                  Output := "Hello World"; Context := sample_context |} hello_world
      = (Ok tf', w') ∧
    ∃ tf2' w'',
      LoadInput (NewTemplateFile sample_context "out.txt" "final.txt") w' = (Ok tf2', w'') ∧
      Input tf2' = "Hello World".
Proof.
  eexists _, _. split; [reflexivity|].
  destruct (SaveOutput_then_LoadInput
              {| InputPath := "in.txt"; Input := hello_template; OutputPath := "out.txt";
                 Output := "Hello World"; Context := sample_context |}
              hello_world _ _
              (NewTemplateFile sample_context "out.txt" "final.txt") eq_refl eq_refl)
    as (tf2' & w'' & Hload & Hinput & _).
  exists tf2', w''. split; [exact Hload|exact Hinput].
Defined.

Lemma Run_uses_the_flags_of_its_mode_witness :
  sample_Run {| flag_IF := "in.txt"; flag_OF := "out.txt"; flag_ID := ""; flag_OD := "dst" |}
             hello_world
  = sample_Run hello_flags hello_world.
Proof.
  apply (Run_uses_the_flags_of_its_mode string sample_template_Parse sample_Execute
           hello_flags
           {| flag_IF := "in.txt"; flag_OF := "out.txt"; flag_ID := ""; flag_OD := "dst" |}).
  - reflexivity.
  - intros H. by destruct H.
  - intros _. split; reflexivity.
Defined.


Lemma Run_file_mode_creates_no_directory_witness :
  ∃ e w', sample_Run nodir_flags hello_world = (Err e, w') ∧
          fs w' = hello_fs ∧
          events w' = [Loaded "in.txt"; Rendered "in.txt"].
Proof.
  assert (¬ dir_at (fs hello_world) (removelast (path_key (flag_OF nodir_flags)))) as Hparent.
  { by intros (r & es & [=]). }
  destruct (Run_file_mode_creates_no_directory string sample_template_Parse sample_Execute
              nodir_flags hello_world {| envs := <["NAME" := "World"]> ∅ |}
              hello_template hello_template "Hello World" I eq_refl eq_refl eq_refl eq_refl
              eq_refl Hparent)
    as (e & w' & Hrun & Hfs & Hevents).
  exists e, w'. split; [exact Hrun|]. split; [exact Hfs|exact Hevents].
Defined.


Lemma Run_directory_mode_witness :
  wf_node (fs sample_world) ∧
  ∃ w', sample_Run mirror_flags sample_world = (Ok (), w') ∧
        file_at (fs w') ["dst"; "sub"; "b.txt"] = Some "B" ∧
        file_at (fs w') ["src"; "sub"; "b.txt"] = Some "B".
Proof.
  split; [exact wf_sample_fs|].
  assert (∃ w', sample_Run mirror_flags sample_world = (Ok (), w')) as (w' & Hrun).
  { eexists. vm_compute. reflexivity. }
  destruct (Run_directory_mode string sample_template_Parse sample_Execute
              mirror_flags sample_world w' wf_sample_fs ltac:(discriminate) Hrun)
    as (tx & Htx & Hfiles & Hothers & _).
  exists w'. split; [exact Hrun|]. split.
  - destruct (Hfiles ["sub"; "b.txt"] "B" eq_refl) as (templater & out & Hparse & Hexec & Hout).
    injection Hparse as <-. injection Hexec as <-. exact Hout.
  - rewrite (Hothers ["src"; "sub"; "b.txt"]); [reflexivity|]. intros key _. discriminate.
Defined.

Lemma sample_files key data :
  file_at (Dir true [("a.txt", File "A");
                     ("sub", Dir true [("b.txt", File "B"); ("empty", Dir true [])])])
          key = Some data →
  data = "A" ∨ data = "B".
Proof.
  unfold file_at. destruct key as [|n1 [|n2 [|n3 key]]]; cbn; repeat case_decide; cbn;
    repeat case_decide; cbn; intros [=]; auto.
Qed.

